(** * Autoclone: the upload engine of the GitHub folder uploader

    A shallow embedding of the backend's upload path:
    - [PathSanitizer]: utils/pathSanitizer.js ([sanitizePath], [isValidPath]);
    - [PQueue]:        the p-queue scheduler the service instantiates;
    - [UploadQueue]:   services/uploadQueue.js (the job body and the
                       rate-limit governor);
    - [FileScanner]:   utils/fileScanner.js ([validateFileList]);
    - [Routes]:        routes/upload.js (/start, /status, /cancel);
    - [Server]:        server.js with /execute, [setupSSE] and the turns of
                       the event loop.

    The definitions come first, the properties follow.

    JavaScript strings are sequences of UTF-16 code units and are modelled
    as [list N]; session ids and header values, which are only compared
    and parsed, are Rocq strings. *)

From Stdlib Require Import ZArith NArith Ascii String DecimalString Sorted.
From stdpp Require Import gmap strings list fin_maps.

(** ** JavaScript strings *)

Module Js.

Abbreviation jsstring := (list N) (only parsing).

(** A string literal of the source, as code units. *)
Definition lit (s : string) : jsstring :=
  List.map N_of_ascii (list_ascii_of_string s).

Definition chr (a : ascii) : N := N_of_ascii a.

Definition NUL : N := 0%N.
Definition slash : N := chr "/".
Definition backslash : N := chr "\".
Definition dot : N := chr ".".

Definition isChar (c : N) : N -> bool := N.eqb c.

Definition oneOf (cs : list N) (c : N) : bool := existsb (N.eqb c) cs.

(** ECMAScript LineTerminator: LF, CR, LS, PS. *)
Definition isLineTerminator (c : N) : bool :=
  oneOf [10; 13; 8232; 8233]%N c.

(** The class [\s] and the characters removed by [String.prototype.trim]:
    WhiteSpace (TAB, VT, FF, SP, NBSP, ZWNBSP and the Unicode space
    separators) together with LineTerminator. *)
Definition isSpace (c : N) : bool :=
  oneOf [9; 11; 12; 32; 160; 5760; 8239; 8287; 12288; 65279]%N c
  || ((8192 <=? c) && (c <=? 8202))%N
  || isLineTerminator c.

Fixpoint dropStart (p : N -> bool) (s : jsstring) : jsstring :=
  match s with
  | [] => []
  | c :: r => if p c then dropStart p r else s
  end.

Fixpoint dropEnd (p : N -> bool) (s : jsstring) : jsstring :=
  match s with
  | [] => []
  | c :: r =>
      match dropEnd p r with
      | [] => if p c then [] else [c]
      | r' => c :: r'
      end
  end.

(** [s.trim()], and [s.replace(/^\s+|\s+$/g, '')] which removes the same
    characters at the same two places. *)
Definition trim (s : jsstring) : jsstring := dropEnd isSpace (dropStart isSpace s).

(** [s.split(sep)] for a one-character separator. *)
Fixpoint split (sep : N) (s : jsstring) : list jsstring :=
  match s with
  | [] => [[]]
  | c :: r =>
      if N.eqb c sep then [] :: split sep r
      else match split sep r with
           | [] => [[c]]
           | p :: ps => (c :: p) :: ps
           end
  end.

(** [parts.join(sep)]. *)
Fixpoint join (sep : N) (ps : list jsstring) : jsstring :=
  match ps with
  | [] => []
  | [p] => p
  | p :: ps' => p ++ sep :: join sep ps'
  end.

Definition eqs (a b : jsstring) : bool := bool_decide (a = b).

Definition includes (l : list jsstring) (s : jsstring) : bool :=
  existsb (eqs s) l.

(** [toUpperCase] and [toLowerCase] on the ASCII letters.  The results are
    only compared with ASCII words whose letters have no other lower- or
    upper-case preimage, so the other case mappings of Unicode do not
    change any comparison made in this development. *)
Definition toUpper (c : N) : N :=
  if ((97 <=? c) && (c <=? 122))%N then (c - 32)%N else c.
Definition toLower (c : N) : N :=
  if ((65 <=? c) && (c <=? 90))%N then (c + 32)%N else c.
Definition toUpperCase (s : jsstring) : jsstring := List.map toUpper s.
Definition toLowerCase (s : jsstring) : jsstring := List.map toLower s.

End Js.

(** ** Regular expressions

    The fragment of RegExp syntax used by the path validator: character
    classes, the anchors [^] and [$] (no [m] flag, so they are the two
    ends of the input), concatenation, alternation and [+].  [matchAt]
    is a backtracking matcher in continuation-passing style; the flag
    passed along says whether the current position is the start of the
    input. *)

Module Re.
Import Js.

Inductive regex : Type :=
| Chr (p : N -> bool)
| Bol
| Eol
| Cat (r1 r2 : regex)
| Alt (r1 r2 : regex)
| Plus (r : regex).

Fixpoint matchAt (r : regex) (bol : bool) (s : jsstring)
    (k : bool -> jsstring -> bool) {struct r} : bool :=
  match r with
  | Chr p => match s with
             | c :: s' => p c && k false s'
             | [] => false
             end
  | Bol => bol && k bol s
  | Eol => match s with
           | [] => k bol s
           | _ :: _ => false
           end
  | Cat r1 r2 => matchAt r1 bol s (fun b s' => matchAt r2 b s' k)
  | Alt r1 r2 => matchAt r1 bol s k || matchAt r2 bol s k
  | Plus r1 =>
      (fix loop (fuel : nat) (b : bool) (t : jsstring) {struct fuel} : bool :=
         match fuel with
         | O => false
         | S f => matchAt r1 b t (fun b' t' => loop f b' t' || k b' t')
         end) (S (length s)) bol s
  end.

Fixpoint searchFrom (r : regex) (bol : bool) (s : jsstring) : bool :=
  matchAt r bol s (fun _ _ => true)
  || match s with
     | [] => false
     | _ :: s' => searchFrom r false s'
     end.

(** [pattern.test(s)] for a pattern without the [g] flag. *)
Definition test (r : regex) (s : jsstring) : bool := searchFrom r true s.

(** A literal word, matched exactly or, for the [i] flag, up to ASCII
    case (under [i] without [u] a character above U+007F never
    canonicalizes to an ASCII one). *)
Fixpoint word (cs : jsstring) : regex :=
  match cs with
  | [] => Cat Bol Bol
  | [c] => Chr (isChar c)
  | c :: cs' => Cat (Chr (isChar c)) (word cs')
  end.

Fixpoint wordi (cs : jsstring) : regex :=
  match cs with
  | [] => Cat Bol Bol
  | [c] => Chr (fun x => isChar (toUpper c) (toUpper x))
  | c :: cs' => Cat (Chr (fun x => isChar (toUpper c) (toUpper x))) (wordi cs')
  end.

End Re.

(** ** utils/pathSanitizer.js *)

Module PathSanitizer.
Import Js Re.

(** The class of [<], [>], [:], the double quote, [|], [?] and [*]. *)
Definition isInvalidChar (c : N) : bool :=
  oneOf [60; 62; 58; 34; 124; 63; 42]%N c.

(** [s.replace(/\.{2,}/g, '.')]: every maximal run of two or more dots
    becomes one dot, so a dot is kept only when no dot follows it. *)
Fixpoint collapseDots (s : jsstring) : jsstring :=
  match s with
  | [] => []
  | c :: r =>
      match r with
      | d :: _ => if isChar dot c && isChar dot d then collapseDots r
                  else c :: collapseDots r
      | [] => [c]
      end
  end.

Definition cleanPart (part : jsstring) : jsstring :=
  collapseDots (trim (List.filter (fun c => negb (isInvalidChar c)) part)).

(** One iteration of the [for (const part of parts)] loop on the array
    [validParts]. *)
Definition visit (validParts : list jsstring) (part : jsstring) : list jsstring :=
  if eqs part [] || eqs part (lit ".") then validParts
  else if eqs part (lit "..") then
    (if (0 <? length validParts)%nat then removelast validParts else validParts)
  else
    let clean := cleanPart part in
    if (0 <? length clean)%nat then validParts ++ [clean] else validParts.

Definition validPartsOf (filePath : jsstring) : list jsstring :=
  let sanitized := List.filter (fun c => negb (isChar NUL c)) filePath in
  let sanitized := List.map (fun c => if isChar backslash c then slash else c) sanitized in
  let sanitized := dropEnd (isChar slash) (dropStart (isChar slash) (trim sanitized)) in
  fold_left visit (split slash sanitized) [].

Definition sanitizePath (filePath : jsstring) : jsstring :=
  match filePath with
  | [] => []
  | _ => join slash (validPartsOf filePath)
  end.

(** [(\/|$)] *)
Definition slashOrEnd : regex := Alt (Chr (isChar slash)) Eol.

Definition dangerousPatterns : list regex :=
  [ Cat (wordi (lit ".git")) slashOrEnd;
    Cat (wordi (lit "/.git")) slashOrEnd;
    Cat Bol (Cat (wordi (lit ".git")) slashOrEnd);
    Cat (word (lit "..")) slashOrEnd;
    Cat (word (lit "/..")) slashOrEnd;
    Cat Bol (Cat (word (lit "..")) slashOrEnd);
    Cat (Chr (isChar slash)) (Plus (Chr (isChar slash)));
    Cat Bol (Chr (isChar slash));
    Cat (Chr (isChar slash)) Eol;
    Chr isInvalidChar;
    Alt (Cat Bol (Chr isSpace)) (Cat (Chr isSpace) Eol);
    Chr (isChar NUL) ].

Definition reservedNames : list jsstring :=
  List.map lit
    [ "CON"; "PRN"; "AUX"; "NUL";
      "COM1"; "COM2"; "COM3"; "COM4"; "COM5"; "COM6"; "COM7"; "COM8"; "COM9";
      "LPT1"; "LPT2"; "LPT3"; "LPT4"; "LPT5"; "LPT6"; "LPT7"; "LPT8"; "LPT9" ]%string.

Definition blockedExtensions : list jsstring :=
  List.map lit
    [ ".exe"; ".bat"; ".cmd"; ".sh"; ".bin";
      ".dll"; ".so"; ".dylib"; ".sys";
      ".php"; ".php3"; ".php4"; ".php5"; ".phtml";
      ".py"; ".pyc"; ".pyo"; ".pyw";
      ".pl"; ".pm"; ".t"; ".cgi";
      ".js"; ".jse"; ".vbs"; ".vbe"; ".wsf";
      ".jar"; ".war"; ".ear"; ".class" ]%string.

(** Node's [path.basename(p)] (POSIX): the last component, trailing
    separators ignored. *)
Definition basename (p : jsstring) : jsstring :=
  List.last (split slash (dropEnd (isChar slash) p)) [].

(** The text before and after the last dot of a component. *)
Fixpoint lastDot (b : jsstring) : option (jsstring * jsstring) :=
  match b with
  | [] => None
  | c :: r =>
      match lastDot r with
      | Some (pre, ext) => Some (c :: pre, ext)
      | None => if isChar dot c then Some ([], r) else None
      end
  end.

(** Node's [path.extname(p)] (POSIX): from the last dot of the last
    component; empty when there is no dot, when the dot is the first
    character of the component, or when the component is [..]. *)
Definition extname (p : jsstring) : jsstring :=
  let b := basename p in
  match lastDot b with
  | None => []
  | Some (pre, ext) =>
      if eqs pre [] || eqs b (lit "..") then [] else dot :: ext
  end.

(** [s.replace(/\..*$/, '')]: [.] does not match a line terminator, so
    the leftmost dot with no line terminator after it starts the match. *)
Fixpoint stripFromDot (s : jsstring) : jsstring :=
  match s with
  | [] => []
  | c :: r =>
      if isChar dot c && forallb (fun x => negb (isLineTerminator x)) r then []
      else c :: stripFromDot r
  end.

Definition isValidPath (filePath : jsstring) : bool :=
  match filePath with
  | [] => false
  | _ =>
      if (500 <? length filePath)%nat then false
      else if existsb (fun pattern => test pattern filePath) dangerousPatterns then false
      else
        let fileName := stripFromDot (toUpperCase (basename filePath)) in
        if includes reservedNames fileName then false
        else
          let ext := toLowerCase (extname filePath) in
          if includes blockedExtensions ext then false
          else true
  end.

End PathSanitizer.

(** ** Numbers and [parseInt]

    A JavaScript number that is either an integer or [NaN]; the values
    that occur are header fields, clock readings and their sums.  Where
    they are below 2^53 the arithmetic of doubles is exact; a greater
    value is beyond the range of [Date], and nothing but that is asked
    of it. *)

Module JsNum.

Inductive num : Type :=
| NaN
| Num (z : Z).

Definition lift2 (f : Z -> Z -> Z) (a b : num) : num :=
  match a, b with
  | Num x, Num y => Num (f x y)
  | _, _ => NaN
  end.

Definition add : num -> num -> num := lift2 Z.add.
Definition sub : num -> num -> num := lift2 Z.sub.
Definition mul : num -> num -> num := lift2 Z.mul.

(** [Math.max(a, b)]: [NaN] as soon as one argument is. *)
Definition max : num -> num -> num := lift2 Z.max.

(** [a < b]: false when an operand is [NaN]. *)
Definition lt (a b : num) : bool :=
  match a, b with
  | Num x, Num y => (x <? y)%Z
  | _, _ => false
  end.

(** The time values of [Date]: the numbers within 8.64e15 ms of the
    epoch.  [new Date(t).toISOString()] throws a RangeError for every
    other [t], [NaN] included. *)
Definition isTimeValue (t : num) : bool :=
  match t with
  | Num z => (Z.abs z <=? 8640000000000000)%Z
  | NaN => false
  end.

Definition code (a : ascii) : Z := Z.of_N (N_of_ascii a).

Definition digitValue (radix : Z) (a : ascii) : option Z :=
  let c := code a in
  let v := if ((48 <=? c) && (c <=? 57))%Z then Some (c - 48)%Z
           else if ((97 <=? c) && (c <=? 122))%Z then Some (c - 87)%Z
           else if ((65 <=? c) && (c <=? 90))%Z then Some (c - 55)%Z
           else None in
  match v with
  | Some d => if (d <? radix)%Z then Some d else None
  | None => None
  end.

(** The longest prefix of digits, read in the radix; [None] when the
    prefix is empty. *)
Fixpoint digits (radix : Z) (cs : list ascii) (acc : option Z) : option Z :=
  match cs with
  | [] => acc
  | a :: r =>
      match digitValue radix a with
      | Some d => digits radix r (Some (radix * default 0%Z acc + d)%Z)
      | None => acc
      end
  end.

Definition isBlank (a : ascii) : bool :=
  let c := code a in
  ((9 <=? c) && (c <=? 13))%Z || (c =? 32)%Z || (c =? 160)%Z.

Fixpoint skipBlanks (cs : list ascii) : list ascii :=
  match cs with
  | [] => []
  | a :: r => if isBlank a then skipBlanks r else cs
  end.

(** [parseInt(s)] without a radix: leading blanks, a sign, a [0x]
    prefix selecting radix 16, then digits; [undefined] parses to
    [NaN]. *)
Definition parseInt (s : option string) : num :=
  match s with
  | None => NaN
  | Some s =>
      let cs := skipBlanks (list_ascii_of_string s) in
      let '(neg, cs) :=
        match cs with
        | "-"%char :: r => (true, r)
        | "+"%char :: r => (false, r)
        | _ => (false, cs)
        end in
      let '(radix, cs) :=
        match cs with
        | "0"%char :: "x"%char :: r => (16%Z, r)
        | "0"%char :: "X"%char :: r => (16%Z, r)
        | _ => (10%Z, cs)
        end in
      match digits radix cs None with
      | None => NaN
      | Some v => Num (if neg then (- v)%Z else v)
      end
  end.

End JsNum.

(** ** The scheduler: p-queue

    The service builds its queue with [new PQueue({concurrency, timeout,
    throwOnTimeout})].  The package is an npm dependency of the backend
    and its sources are not part of the repository; this module follows
    the package's own implementation, in the releases that have the
    [throwOnTimeout] option: [add] enqueues by priority and tries to
    start a job, a job holds one of [concurrency] slots while it runs,
    [_next] gives the slot back and tries to start another job, [pause]
    and [start] switch dispatch off and on, [clear] empties the queue.
    Greater priority values are served first.  The element type [A] is
    the job. *)

Module PQueue.

Section Queue.
Context {A : Type}.

Record item : Type := Item { priority : Z; run : A }.

Record t : Type := Make {
  concurrency : nat;
  timeout : Z;
  throwOnTimeout : bool;
  isPaused : bool;
  pendingCount : nat;
  queue : list item
}.

Definition create (concurrency : nat) (timeout : Z) (throwOnTimeout : bool) : t :=
  Make concurrency timeout throwOnTimeout false 0 [].

(** [PriorityQueue.enqueue]: the element goes behind every queued
    element whose priority is greater or equal (the queue is kept in
    descending order, and the insertion index is the lower bound of the
    new priority in it). *)
Fixpoint enqueue (e : item) (q : list item) : list item :=
  match q with
  | [] => [e]
  | x :: q' => if (priority e <=? priority x)%Z then x :: enqueue e q' else e :: q
  end.

(** [size]: queued jobs; [pending]: running jobs. *)
Definition size (q : t) : nat := length (queue q).
Definition pending (q : t) : nat := pendingCount q.

(** [_tryToStartAnother]: dequeues the head and starts it when the queue
    is not paused and a slot is free; the started job is returned to the
    caller, which runs its synchronous prefix. *)
Definition tryToStartAnother (q : t) : option A * t :=
  match queue q with
  | [] => (None, q)
  | x :: rest =>
      if negb (isPaused q) && (pendingCount q <? concurrency q)%nat then
        (Some (run x),
         Make (concurrency q) (timeout q) (throwOnTimeout q) (isPaused q)
              (S (pendingCount q)) rest)
      else (None, q)
  end.

Definition add (job : A) (prio : Z) (q : t) : option A * t :=
  tryToStartAnother
    (Make (concurrency q) (timeout q) (throwOnTimeout q) (isPaused q)
          (pendingCount q) (enqueue (Item prio job) (queue q))).

(** [_next]: called when a running job settles or times out. *)
Definition next (q : t) : option A * t :=
  tryToStartAnother
    (Make (concurrency q) (timeout q) (throwOnTimeout q) (isPaused q)
          (Nat.pred (pendingCount q)) (queue q)).

Definition pause (q : t) : t :=
  Make (concurrency q) (timeout q) (throwOnTimeout q) true (pendingCount q) (queue q).

(** [_processQueue]: [while (this._tryToStartAnother()) {}]. *)
Fixpoint processQueue (fuel : nat) (q : t) : list A * t :=
  match fuel with
  | O => ([], q)
  | S f =>
      match tryToStartAnother q with
      | (Some j, q') => let '(js, q'') := processQueue f q' in (j :: js, q'')
      | (None, q') => ([], q')
      end
  end.

(** [start]: nothing when the queue is not paused; otherwise dispatch is
    switched on and the queue is processed.  Each turn of the loop that
    continues removes one queued job, so [size q] turns and the last,
    failing one are all the loop can make. *)
Definition start (q : t) : list A * t :=
  if negb (isPaused q) then ([], q)
  else processQueue (S (size q))
         (Make (concurrency q) (timeout q) (throwOnTimeout q) false
               (pendingCount q) (queue q)).

Definition clear (q : t) : t :=
  Make (concurrency q) (timeout q) (throwOnTimeout q) (isPaused q) (pendingCount q) [].

End Queue.

Arguments item : clear implicits.
Arguments t : clear implicits.

End PQueue.

(** ** The environment of the process

    [process.env] as far as the upload path reads it; a variable that is
    unset, or that does not parse to a number, is [None]. *)

Module Env.

Record t : Type := Make {
  UPLOAD_CONCURRENCY : option nat;
  MAX_UPLOAD_SIZE : option Z
}.

Definition unset : t := Make None None.

End Env.

(** ** services/uploadQueue.js: the class UploadQueue

    An instance is a record of its fields together with what the runtime
    holds for it: the listeners registered with [on] (each is the handler
    set of one event-stream connection, named by the connection), the
    events it has emitted, the resume timers that were set and have not
    fired, the job bodies suspended at a network call, and the jobs whose
    slot in the queue is still taken. *)

Module UploadQueue.
Import Js JsNum.

Record Headers : Type := MkHeaders {
  x_ratelimit_remaining : option string;
  x_ratelimit_limit : option string;
  x_ratelimit_reset : option string
}.

(** [error.response] of a rejected request. *)
Record Response : Type := MkResponse {
  status : Z;
  headers : Headers
}.

(** The two requests of a job: the read of the existing file and the
    write.  A rejected request may carry no response at all. *)
Inductive GetResult : Type :=
| GetFound (sha : string)
| GetRejected (response : option Response).

Inductive PutResult : Type :=
| PutDone (responseHeaders : Headers)
| PutRejected (response : option Response).

Record FileData : Type := MkFileData {
  path : jsstring;
  content : jsstring;
  priority : option Z
}.

Record Job : Type := MkJob {
  jobId : nat;
  jobFile : FileData;
  jobSession : string
}.

Inductive Event : Type :=
| jobStart (id : nat) (sessionId : string) (filePath : jsstring)
| jobComplete (id : nat) (sessionId : string) (filePath : jsstring)
| jobError (id : nat) (sessionId : string) (filePath : jsstring) (status : option Z)
| rateLimitWarning (remaining limit : num)
| rateLimitExceeded (resetTime waitTime : num)
| rateLimitResumed.

Record Stats : Type := MkStats {
  totalJobs : nat;
  completedJobs : nat;
  failedJobs : nat;
  rateLimitHits : nat
}.

Record Active : Type := MkActive {
  activeFile : jsstring;
  activeSession : string;
  startTime : Z
}.

(** A resume timer: [setTimeout(callback, waitTime)] called at [setAt]. *)
Record Timer : Type := MkTimer {
  setAt : Z;
  delay : num
}.

Record State : Type := MkState {
  queue : PQueue.t Job;
  activeUploads : gmap nat Active;
  stats : Stats;
  listeners : list nat;
  emitted : list Event;
  timers : list Timer;
  bodies : list Job;
  slots : list nat
}.

(** [constructor()]: [concurrency] is
    [parseInt(process.env.UPLOAD_CONCURRENCY) || 3] (the queue refuses
    to be built with a concurrency below 1, so a negative setting does
    not give a running server). *)
Definition defaultConcurrency : nat := 3.

Definition concurrencyOf (env : Env.t) : nat :=
  match Env.UPLOAD_CONCURRENCY env with
  | Some (S n) => S n
  | _ => defaultConcurrency
  end.

Definition noStats : Stats := MkStats 0 0 0 0.

Definition create (env : Env.t) : State :=
  MkState (PQueue.create (concurrencyOf env) 300000 false) ∅ noStats [] [] [] [] [].

Definition withQueue (q : PQueue.t Job) (st : State) : State :=
  MkState q (activeUploads st) (stats st) (listeners st) (emitted st) (timers st) (bodies st) (slots st).

Definition withActive (m : gmap nat Active) (st : State) : State :=
  MkState (queue st) m (stats st) (listeners st) (emitted st) (timers st) (bodies st) (slots st).

Definition withStats (s : Stats) (st : State) : State :=
  MkState (queue st) (activeUploads st) s (listeners st) (emitted st) (timers st) (bodies st) (slots st).

Definition withTimers (ts : list Timer) (st : State) : State :=
  MkState (queue st) (activeUploads st) (stats st) (listeners st) (emitted st) ts (bodies st) (slots st).

Definition withBodies (bs : list Job) (st : State) : State :=
  MkState (queue st) (activeUploads st) (stats st) (listeners st) (emitted st) (timers st) bs (slots st).

Definition withSlots (ss : list nat) (st : State) : State :=
  MkState (queue st) (activeUploads st) (stats st) (listeners st) (emitted st) (timers st) (bodies st) ss.

(** [on(event, handler)] and [off(event, handler)] for the six handlers
    of connection [c]. *)
Definition on (c : nat) (st : State) : State :=
  MkState (queue st) (activeUploads st) (stats st) (listeners st ++ [c]) (emitted st)
          (timers st) (bodies st) (slots st).

Definition off (c : nat) (st : State) : State :=
  MkState (queue st) (activeUploads st) (stats st)
          (List.filter (fun x => negb (Nat.eqb x c)) (listeners st)) (emitted st)
          (timers st) (bodies st) (slots st).

(** [this.emit(event, data)]: the event is handed to the listeners of
    this instance; what they do with it is [Server.deliver]. *)
Definition emit (ev : Event) (st : State) : State :=
  MkState (queue st) (activeUploads st) (stats st) (listeners st) (emitted st ++ [ev]) (timers st)
          (bodies st) (slots st).

(** The job up to its first [await]: the entry in [activeUploads] and
    the jobStart event; the body then waits for the read request. *)
Definition begin (now : Z) (j : Job) (st : State) : State :=
  let st := withActive
              (<[jobId j := MkActive (path (jobFile j)) (jobSession j) now]> (activeUploads st)) st in
  let st := emit (jobStart (jobId j) (jobSession j) (path (jobFile j))) st in
  withSlots (slots st ++ [jobId j]) (withBodies (bodies st ++ [j]) st).

Definition started (now : Z) (oj : option Job) (st : State) : State :=
  match oj with
  | Some j => begin now j st
  | None => st
  end.

(** [fileData.priority || 0] *)
Definition priorityOf (fd : FileData) : Z := default 0%Z (priority fd).

(** [addUploadJob(fileData, repoConfig, sessionId)]; [id] is the job id
    the method builds from the session id, the clock and a random
    suffix. *)
Definition addUploadJob (now : Z) (id : nat) (fd : FileData) (sessionId : string)
    (st : State) : State :=
  let s := stats st in
  let st := withStats (MkStats (S (totalJobs s)) (completedJobs s) (failedJobs s)
                               (rateLimitHits s)) st in
  let '(oj, q) := PQueue.add (MkJob id fd sessionId) (priorityOf fd) (queue st) in
  started now oj (withQueue q st).

(** [parseInt(headers['x-ratelimit-reset']) * 1000] *)
Definition resetTimeOf (h : Headers) : num :=
  mul (parseInt (x_ratelimit_reset h)) (Num 1000).

(** [checkRateLimits(headers)].  The event is built before it is
    emitted, and [new Date(resetTime).toISOString()] in it throws when
    the reset time is no time value; [None] is that RangeError. *)
Definition checkRateLimits (h : Headers) (st : State) : option State :=
  let remaining := parseInt (x_ratelimit_remaining h) in
  let limit := parseInt (x_ratelimit_limit h) in
  let resetTime := resetTimeOf h in
  if lt remaining (Num 10) then
    if isTimeValue resetTime then Some (emit (rateLimitWarning remaining limit) st)
    else None
  else Some st.

Definition waitTimeOf (now : Z) (h : Headers) : num :=
  let resetTime := resetTimeOf h in
  max (Num 1000) (add (sub resetTime (Num now)) (Num 1000)).

(** [handleRateLimitExceeded(headers)].  As in [checkRateLimits], the
    event is built first: when the reset time is no time value the
    method throws before it emits, pauses or sets the timer; [None] is
    that RangeError. *)
Definition handleRateLimitExceeded (now : Z) (h : Headers) (st : State) : option State :=
  let resetTime := resetTimeOf h in
  let waitTime := waitTimeOf now h in
  if isTimeValue resetTime then
    let st := emit (rateLimitExceeded resetTime waitTime) st in
    let st := withQueue (PQueue.pause (queue st)) st in
    Some (withTimers (timers st ++ [MkTimer now waitTime]) st)
  else None.

(** [start()]: the jobs that the queue starts run up to their first
    [await] one after the other. *)
Definition start (now : Z) (st : State) : State :=
  let '(js, q) := PQueue.start (queue st) in
  fold_left (fun s j => begin now j s) js (withQueue q st).

(** The callback of the resume timer. *)
Definition resume (now : Z) (st : State) : State :=
  emit rateLimitResumed (start now st).

(** The [i]-th pending timer fires. *)
Definition fireTimer (now : Z) (i : nat) (st : State) : State :=
  match timers st !! i with
  | Some _ => resume now (withTimers (take i (timers st) ++ drop (S i) (timers st)) st)
  | None => st
  end.

(** The test of the [catch] block for an exhausted quota. *)
Definition isRateLimit (r : option Response) : bool :=
  match r with
  | Some r => (status r =? 403)%Z
              && bool_decide (x_ratelimit_remaining (headers r) = Some "0"%string)
  | None => false
  end.

(** The [catch] block of the job, entered with an error whose response
    is [r].  When [handleRateLimitExceeded] throws, its RangeError
    leaves the block: the failure and the hit are counted, and the
    jobError event is not emitted.  The job is rejected either way. *)
Definition caught (now : Z) (j : Job) (r : option Response) (st : State) : State :=
  let s := stats st in
  let st := withStats (MkStats (totalJobs s) (completedJobs s) (S (failedJobs s))
                               (rateLimitHits s)) st in
  let errorData := jobError (jobId j) (jobSession j) (path (jobFile j)) (status <$> r) in
  if isRateLimit r then
    let s := stats st in
    let st := withStats (MkStats (totalJobs s) (completedJobs s) (failedJobs s)
                                 (S (rateLimitHits s))) st in
    match handleRateLimitExceeded now (from_option headers (MkHeaders None None None) r) st with
    | Some st => emit errorData st
    | None => st
    end
  else emit errorData st.

(** The [try] block after the write has succeeded.  A RangeError of
    [checkRateLimits] is caught by the [catch] block as an error that
    has no response; so is the TypeError of reading the start time of
    an entry that is no longer in [activeUploads]. *)
Definition succeeded (now : Z) (j : Job) (h : Headers) (st : State) : State :=
  match checkRateLimits h st with
  | Some st =>
      match activeUploads st !! jobId j with
      | Some _ =>
          let s := stats st in
          let st := withStats (MkStats (totalJobs s) (S (completedJobs s)) (failedJobs s)
                                       (rateLimitHits s)) st in
          emit (jobComplete (jobId j) (jobSession j) (path (jobFile j))) st
      | None => caught now j None st
      end
  | None => caught now j None st
  end.

(** The body of the job from the answer to the read request on: a
    rejected read is benign only with status 404. *)
Definition body (now : Z) (j : Job) (g : GetResult) (p : PutResult) (st : State) : State :=
  let st :=
    match g with
    | GetRejected r =>
        if bool_decide (status <$> r = Some 404%Z) then
          match p with
          | PutDone h => succeeded now j h st
          | PutRejected r' => caught now j r' st
          end
        else caught now j r st
    | GetFound _ =>
        match p with
        | PutDone h => succeeded now j h st
        | PutRejected r' => caught now j r' st
        end
    end in
  (* finally *)
  withActive (delete (jobId j) (activeUploads st)) st.

(** The queue's wrapper around a running job ends, because the job
    settled or because the queue's timeout elapsed: the promise returned
    by [add] settles and the slot goes to the next queued job.  The
    result tells whether a promise settled. *)
Definition release (now : Z) (id : nat) (st : State) : State * bool :=
  if bool_decide (id ∈ slots st) then
    let st := withSlots (List.filter (fun x => negb (Nat.eqb x id)) (slots st)) st in
    let '(oj, q) := PQueue.next (queue st) in
    (started now oj (withQueue q st), true)
  else (st, false).

Definition findBody (id : nat) (st : State) : option Job :=
  List.find (fun j => Nat.eqb (jobId j) id) (bodies st).

(** The requests of job [id] are answered: its body runs to the end. *)
Definition settle (now : Z) (id : nat) (g : GetResult) (p : PutResult) (st : State)
    : State * bool :=
  match findBody id st with
  | Some j =>
      let st := withBodies (List.filter (fun x => negb (Nat.eqb (jobId x) id)) (bodies st)) st in
      release now id (body now j g p st)
  | None => (st, false)
  end.

(** How the promise that [add] returned settles. *)
Inductive Settlement : Type :=
| Resolved
| Rejected.

(** The timer of the queue's wrapper around job [id] has run out at
    [now]: the job holds a slot, and the [timeout] of the queue has
    passed since the job began, which is the start time that the job
    recorded in [activeUploads].  (After [clear()] that record is gone;
    the timer may then run out at any time.) *)
Definition overdue (now : Z) (id : nat) (st : State) : bool :=
  bool_decide (id ∈ slots st)
  && match activeUploads st !! id with
     | Some active => (startTime active + PQueue.timeout (queue st) <=? now)%Z
     | None => true
     end.

(** What the queue does with a timeout: with [throwOnTimeout: false]
    the promise resolves with no value, otherwise it is rejected with
    the TimeoutError. *)
Definition timeoutSettlement (q : PQueue.t Job) : Settlement :=
  if PQueue.throwOnTimeout q then Rejected else Resolved.

(** The queue's timeout elapses for job [id] at [now]: the promise of
    [add] settles and the wrapper ends; the body of the job is not
    interrupted. *)
Definition timeoutJob (now : Z) (id : nat) (st : State) : State * option Settlement :=
  if overdue now id st then
    (fst (release now id st), Some (timeoutSettlement (queue st)))
  else (st, None).

Definition getQueueSize (st : State) : nat :=
  PQueue.size (queue st) + PQueue.pending (queue st).

Definition clearStats (st : State) : State := withStats noStats st.

Definition pause (st : State) : State := withQueue (PQueue.pause (queue st)) st.

Definition clear (st : State) : State :=
  clearStats (withActive ∅ (withQueue (PQueue.clear (queue st)) st)).

End UploadQueue.

(** ** utils/fileScanner.js *)

Module FileScanner.
Import Js.

(** A file record as the extractor and the scanner build it. *)
Record File : Type := MkFile {
  path : jsstring;
  size : Z;
  content : jsstring
}.

(** [files.reduce((sum, file) => sum + file.size, 0)] *)
Definition totalSize (files : list File) : Z :=
  fold_left (fun sum file => (sum + size file)%Z) files 0%Z.

(** The errors that [validateFileList] throws, each with the number
    that its message quotes: [Too many files. Maximum allowed:
    ${maxFiles}] and [Total size exceeds limit of ${maxTotalSize / 1024
    / 1024}MB]. *)
Inductive Failure : Type :=
| TooManyFiles (maxFiles : nat)
| TotalSizeExceedsLimit (maxTotalSize : Z).

Inductive Outcome : Type :=
| Returned (value : bool)
| Thrown (error : Failure).

Definition defaultMaxFiles : nat := 1000.
Definition defaultMaxTotalSize : Z := (100 * 1024 * 1024)%Z.

(** [validateFileList(files, maxFiles = 1000, maxTotalSize = 100 MiB)] *)
Definition validateFileList (files : list File) (maxFiles : nat) (maxTotalSize : Z)
    : Outcome :=
  if (maxFiles <? length files)%nat then Thrown (TooManyFiles maxFiles)
  else if (maxTotalSize <? totalSize files)%Z then Thrown (TotalSizeExceedsLimit maxTotalSize)
  else Returned true.

End FileScanner.

(** ** routes/upload.js *)

Module Routes.
Import Js FileScanner.

Inductive Status : Type :=
| Pending
| Uploading
| Completed
| Cancelled.

Record SessionStats : Type := MkSessionStats {
  total : nat;
  completed : nat;
  failed : nat
}.

Record Config : Type := MkConfig {
  owner : string;
  repo : string;
  branch : string;
  basePath : string;
  commitMessage : string;
  installationToken : string;
  installationId : nat
}.

Record Session : Type := MkSession {
  files : list File;
  config : Config;
  tempId : option string;
  startedAt : Z;
  status : Status;
  stats : SessionStats;
  completedAt : option Z;
  cancelledAt : option Z
}.

Definition withStatus (s : Status) (se : Session) : Session :=
  MkSession (files se) (config se) (tempId se) (startedAt se) s (stats se)
            (completedAt se) (cancelledAt se).

Definition withCompletedAt (t : Z) (se : Session) : Session :=
  MkSession (files se) (config se) (tempId se) (startedAt se) (status se) (stats se)
            (Some t) (cancelledAt se).

Definition withCancelledAt (t : Z) (se : Session) : Session :=
  MkSession (files se) (config se) (tempId se) (startedAt se) (status se) (stats se)
            (completedAt se) (Some t).

(** The uploaded archive as multer hands it over; [size] is the length
    of its buffer. *)
Record Upload : Type := MkUpload {
  originalname : string;
  mimetype : string;
  size : Z
}.

(** multer's [limits.fileSize]:
    [parseInt(process.env.MAX_UPLOAD_SIZE) || 100 * 1024 * 1024].  The
    upload is refused as soon as the file reaches this size. *)
Definition fileSizeLimit (env : Env.t) : Z :=
  match Env.MAX_UPLOAD_SIZE env with
  | Some n => if (n =? 0)%Z then (100 * 1024 * 1024)%Z else n
  | None => (100 * 1024 * 1024)%Z
  end.

Fixpoint startsWith (p s : list ascii) : bool :=
  match p, s with
  | [], _ => true
  | a :: p', b :: s' => bool_decide (a = b) && startsWith p' s'
  | _ :: _, [] => false
  end.

Fixpoint includesText (p s : list ascii) : bool :=
  startsWith p s
  || match s with
     | [] => false
     | _ :: s' => includesText p s'
     end.

Definition endsWith (p s : string) : bool :=
  startsWith (rev (list_ascii_of_string p)) (rev (list_ascii_of_string s)).

Definition includesStr (p s : string) : bool :=
  includesText (list_ascii_of_string p) (list_ascii_of_string s).

Definition allowedMimeTypes : list string :=
  [ "application/zip"; "application/x-zip-compressed"; "multipart/x-zip" ]%string.

(** multer's [fileFilter]. *)
Definition fileFilter (file : Upload) : bool :=
  (bool_decide (mimetype file = "application/octet-stream"%string)
   && endsWith ".zip" (originalname file))
  || bool_decide (mimetype file ∈ allowedMimeTypes).

(** A request to POST /start, with what its collaborators answer while
    it is served: the installation token, the extracted archive and the
    fresh uuid.  A field that the client left out is [None]. *)
Record StartRequest : Type := MkStartRequest {
  reqInstallation : option nat;
  reqOwner : option string;
  reqRepo : option string;
  reqBranch : option string;
  reqBasePath : option string;
  reqCommitMessage : option string;
  reqFile : option Upload;
  tokenAnswer : option string;
  extractAnswer : option (list File * string);
  uuid : string
}.

Inductive StartResponse : Type :=
| StartError (code : nat) (error : string)
| StartSuccess (sessionId : string) (fileCount : nat) (totalSize : Z).

(** [!x] for an optional string and for an optional number. *)
Definition missing (x : option string) : bool :=
  match x with
  | None => true
  | Some s => bool_decide (s = ""%string)
  end.

Definition noInstallation (x : option nat) : bool :=
  match x with
  | Some (S _) => false
  | _ => true
  end.

Definition orElse (x : option string) (d : string) : string :=
  match x with
  | None => d
  | Some s => if bool_decide (s = ""%string) then d else s
  end.

(** POST /start behind [requireInstallation] and [upload.single('file')].
    The result is the response and the session map afterwards. *)
Definition start (env : Env.t) (now : Z) (req : StartRequest)
    (sessions : gmap string Session) : StartResponse * gmap string Session :=
  if noInstallation (reqInstallation req) then
    (StartError 401 "GitHub App not installed. Please install the app first.", sessions)
  else if negb (from_option fileFilter true (reqFile req)) then
    (StartError 500 "Invalid file type. Only ZIP files are allowed.", sessions)
  else if from_option (fun file => (fileSizeLimit env <=? size file)%Z) false (reqFile req) then
    (StartError 500 "File too large", sessions)
  else if missing (reqOwner req) || missing (reqRepo req) then
    (StartError 400 "Owner and repository name are required", sessions)
  else
    match reqFile req with
    | None => (StartError 400 "No file provided", sessions)
    | Some file =>
        let targetBranch := orElse (reqBranch req) "main" in
        match tokenAnswer req with
        | None => (StartError 500 "Failed to process upload", sessions)
        | Some installationToken =>
            if endsWith ".zip" (originalname file) || includesStr "zip" (mimetype file) then
              match extractAnswer req with
              | None => (StartError 500 "Failed to extract ZIP file", sessions)
              | Some (files, tempId) =>
                  let validFiles :=
                    List.filter (fun file => PathSanitizer.isValidPath (FileScanner.path file))
                                files in
                  if (length validFiles =? 0)%nat then
                    (StartError 400 "No valid files found in upload", sessions)
                  else
                    let session :=
                      MkSession validFiles
                        (MkConfig (default ""%string (reqOwner req))
                                  (default ""%string (reqRepo req))
                                  targetBranch
                                  (default ""%string (reqBasePath req))
                                  (default "Upload files"%string (reqCommitMessage req))
                                  installationToken
                                  (default 0 (reqInstallation req)))
                        (Some tempId) now Pending
                        (MkSessionStats (length validFiles) 0 0) None None in
                    (StartSuccess (uuid req) (length validFiles) (totalSize validFiles),
                     <[uuid req := session]> sessions)
              end
            else
              (StartError 400 "Only ZIP files are accepted for folder uploads.", sessions)
        end
    end.

Inductive Reply : Type :=
| ReplyError (code : nat) (error : string)
| ReplyOk.

(** The guards shared by /execute, /status and /cancel. *)
Definition guard (installation : option nat) (sessionId : string)
    (sessions : gmap string Session) : Reply + Session :=
  if noInstallation installation then inl (ReplyError 401 "GitHub App not installed.")
  else
    match sessions !! sessionId with
    | None => inl (ReplyError 404 "Upload session not found")
    | Some session =>
        if bool_decide (Some (installationId (config session)) = installation)
        then inr session
        else inl (ReplyError 403 "Access denied")
    end.

(** The argument of [addUploadJob] for the file at [index].  The index
    is the priority. *)
Definition fileDataOf (index : nat) (file : File) : UploadQueue.FileData :=
  UploadQueue.MkFileData (FileScanner.path file) (content file) (Some (Z.of_nat index)).

(** [session.files.map((file, index) => uploadQueue.addUploadJob(...))]:
    the jobs get the ids [first], [first + 1], ... *)
Fixpoint addAll (now : Z) (first index : nat) (sessionId : string) (fs : list File)
    (q : UploadQueue.State) : UploadQueue.State :=
  match fs with
  | [] => q
  | file :: rest =>
      addAll now (S first) (S index) sessionId rest
             (UploadQueue.addUploadJob now first (fileDataOf index file) sessionId q)
  end.

(** POST /cancel/:sessionId sets the status and the time of the
    cancellation (and removes the temporary directory). *)
Definition cancel (now : Z) (installation : option nat) (sessionId : string)
    (sessions : gmap string Session) : Reply * gmap string Session :=
  match guard installation sessionId sessions with
  | inl e => (e, sessions)
  | inr session =>
      (ReplyOk, <[sessionId := withCancelledAt now (withStatus Cancelled session)]> sessions)
  end.

(** GET /status/:sessionId reports the status and the counters of the
    session; the percentage is derived from the counters. *)
Definition statusOf (installation : option nat) (sessionId : string)
    (sessions : gmap string Session) : Reply + (Status * SessionStats) :=
  match guard installation sessionId sessions with
  | inl e => inl e
  | inr session => inr (status session, stats session)
  end.

End Routes.

(** ** The running server

    server.js mounts the routes and the event-stream endpoint.  The
    routes work on [uploadQueue], the instance that services/uploadQueue.js
    exports by default; [setupSSE] builds an instance of its own for each
    connection.  [watches] are the pending
    [Promise.allSettled(uploadPromises)] of /execute: the session and the
    jobs whose promise has not settled. *)

Module Server.
Import Js FileScanner Routes.

Inductive Message : Type :=
| connected (sessionId : string)
| sse (ev : UploadQueue.Event)
| ping.

Record Connection : Type := MkConnection {
  connSession : string;
  own : UploadQueue.State;
  res : list Message;
  closed : bool
}.

Record System : Type := MkSystem {
  sessions : gmap string Session;
  uploadQueue : UploadQueue.State;
  watches : list (string * list nat);
  nextJob : nat;
  connections : list Connection
}.

Definition boot (env : Env.t) : System :=
  MkSystem ∅ (UploadQueue.create env) [] 0 [].

(** The six handlers of [setupSSE] for a connection on [sessionId]:
    what they write to the response when [ev] reaches them. *)
Definition eventHandlers (sessionId : string) (ev : UploadQueue.Event) : list Message :=
  match ev with
  | UploadQueue.jobStart _ sid _
  | UploadQueue.jobComplete _ sid _
  | UploadQueue.jobError _ sid _ _ =>
      if bool_decide (sid = sessionId) then [sse ev] else []
  | UploadQueue.rateLimitWarning _ _
  | UploadQueue.rateLimitExceeded _ _
  | UploadQueue.rateLimitResumed => [sse ev]
  end.

Definition handle (ev : UploadQueue.Event) (c : Connection) : Connection :=
  MkConnection (connSession c) (own c) (res c ++ eventHandlers (connSession c) ev) (closed c).

(** The events that an instance emitted during a step reach the
    listeners registered on that instance, in the order of emission. *)
Definition deliver (before after : UploadQueue.State) (cs : list Connection)
    : list Connection :=
  fold_left
    (fun cs ev => fold_left (fun cs l => alter (handle ev) l cs) (UploadQueue.listeners after) cs)
    (drop (length (UploadQueue.emitted before)) (UploadQueue.emitted after))
    cs.

(** [setupSSE(req, res)]: the connected message is written, a new
    UploadQueue is built and the handlers are registered on it. *)
Definition setupSSE (env : Env.t) (sessionId : string) (sys : System) : System :=
  let c := length (connections sys) in
  let uploadQueue' := UploadQueue.on c (UploadQueue.create env) in
  MkSystem (sessions sys) (uploadQueue sys) (watches sys) (nextJob sys)
           (connections sys ++ [MkConnection sessionId uploadQueue' [connected sessionId] false]).

(** The keep-alive interval of a connection fires. *)
Definition keepAlive (c : nat) (sys : System) : System :=
  MkSystem (sessions sys) (uploadQueue sys) (watches sys) (nextJob sys)
           (alter (fun k => if closed k then k
                            else MkConnection (connSession k) (own k) (res k ++ [ping]) false)
                  c (connections sys)).

(** [req.on('close', ...)] *)
Definition close (c : nat) (sys : System) : System :=
  MkSystem (sessions sys) (uploadQueue sys) (watches sys) (nextJob sys)
           (alter (fun k => MkConnection (connSession k) (UploadQueue.off c (own k)) (res k) true)
                  c (connections sys)).

(** A step of the shared queue, with the delivery of what it emitted. *)
Definition withQueue (q : UploadQueue.State) (sys : System) : System :=
  MkSystem (sessions sys) q (watches sys) (nextJob sys)
           (deliver (uploadQueue sys) q (connections sys)).

(** The callback of [Promise.allSettled(...).then]: the temporary
    directory is removed, then the session is marked. *)
Definition allSettled (now : Z) (sessionId : string) (ss : gmap string Session)
    : gmap string Session :=
  alter (fun se => withCompletedAt now (withStatus Completed se)) sessionId ss.

(** The promise of job [id] settles: it leaves every watch, and a watch
    that has no job left runs its callback. *)
Definition settled (now : Z) (id : nat) (sys : System) : System :=
  let ws := List.map (fun w => (fst w, List.filter (fun x => negb (Nat.eqb x id)) (snd w)))
                     (watches sys) in
  let done := List.filter (fun w => (length (snd w) =? 0)%nat) ws in
  let left := List.filter (fun w => negb (length (snd w) =? 0)%nat) ws in
  MkSystem (fold_left (fun ss w => allSettled now (fst w) ss) done (sessions sys))
           (uploadQueue sys) left (nextJob sys) (connections sys).

(** POST /execute/:sessionId *)
Definition execute (now : Z) (installation : option nat) (sessionId : string)
    (sys : System) : Reply * System :=
  match guard installation sessionId (sessions sys) with
  | inl e => (e, sys)
  | inr session =>
      let ss := <[sessionId := withStatus Uploading session]> (sessions sys) in
      let n := length (files session) in
      let q := addAll now (nextJob sys) 0 sessionId (files session) (uploadQueue sys) in
      let sys := withQueue q sys in
      (ReplyOk,
       if (n =? 0)%nat then
         MkSystem (allSettled now sessionId ss) (uploadQueue sys) (watches sys)
                  (nextJob sys) (connections sys)
       else
         MkSystem ss (uploadQueue sys)
                  (watches sys ++ [(sessionId, seq (nextJob sys) n)])
                  (nextJob sys + n) (connections sys))
  end.

Inductive Action : Type :=
| PostStart (req : StartRequest)
| PostExecute (installation : option nat) (sessionId : string)
| PostCancel (installation : option nat) (sessionId : string)
| GetProgress (sessionId : string)
| Answers (id : nat) (g : UploadQueue.GetResult) (p : UploadQueue.PutResult)
| QueueTimeout (id : nat)
| TimerFires (i : nat)
| KeepAlive (c : nat)
| Closes (c : nat).

Section Run.
Variable env : Env.t.

(** One turn of the event loop at clock reading [now].  A uuid is never
    handed out twice, so a /start whose uuid is taken does not occur. *)
Definition step (sys : System) (turn : Z * Action) : System :=
  let now := fst turn in
  match snd turn with
  | PostStart req =>
      match sessions sys !! uuid req with
      | Some _ => sys
      | None =>
          MkSystem (snd (start env now req (sessions sys))) (uploadQueue sys) (watches sys)
                   (nextJob sys) (connections sys)
      end
  | PostExecute installation sessionId => snd (execute now installation sessionId sys)
  | PostCancel installation sessionId =>
      MkSystem (snd (cancel now installation sessionId (sessions sys))) (uploadQueue sys)
               (watches sys) (nextJob sys) (connections sys)
  | GetProgress sessionId => setupSSE env sessionId sys
  | Answers id g p =>
      let '(q, promise) := UploadQueue.settle now id g p (uploadQueue sys) in
      let sys := withQueue q sys in
      if promise then settled now id sys else sys
  | QueueTimeout id =>
      let '(q, promise) := UploadQueue.timeoutJob now id (uploadQueue sys) in
      let sys := withQueue q sys in
      match promise with
      | Some _ => settled now id sys
      | None => sys
      end
  | TimerFires i => withQueue (UploadQueue.fireTimer now i (uploadQueue sys)) sys
  | KeepAlive c => keepAlive c sys
  | Closes c => close c sys
  end.

Definition run (turns : list (Z * Action)) (sys : System) : System :=
  fold_left step turns sys.

End Run.

End Server.

(** ** What an observer of the queue sees *)

Module Observe.
Import UploadQueue.

(** The jobs that began, in the order of their jobStart events. *)
Definition begun (evs : list Event) : list nat :=
  flat_map (fun ev => match ev with jobStart id _ _ => [id] | _ => [] end) evs.

Definition isExceeded (ev : Event) : bool :=
  match ev with rateLimitExceeded _ _ => true | _ => false end.

Definition isResumed (ev : Event) : bool :=
  match ev with rateLimitResumed => true | _ => false end.

Definition isJobError (ev : Event) : bool :=
  match ev with jobError _ _ _ _ => true | _ => false end.

Definition isJobStart (ev : Event) : bool :=
  match ev with jobStart _ _ _ => true | _ => false end.

Definition count (f : Event -> bool) (evs : list Event) : nat :=
  length (List.filter f evs).

(** Items are put into the queue one after the other. *)
Definition enqueueAll {A} (es : list (PQueue.item A)) (q : list (PQueue.item A))
    : list (PQueue.item A) :=
  fold_left (fun q e => PQueue.enqueue e q) es q.

Definition hasPriority {A} (p : Z) (e : PQueue.item A) : bool :=
  (PQueue.priority e =? p)%Z.

(** Greater priority first. *)
Definition before {A} (a b : PQueue.item A) : Prop :=
  (PQueue.priority b <= PQueue.priority a)%Z.

(** The priorities with which the jobs [ids] were submitted, looked up
    in a table of job ids and priorities. *)
Definition prioritiesOf (table : list (nat * Z)) (ids : list nat) : list Z :=
  omap (fun id => snd <$> List.find (fun e => Nat.eqb (fst e) id) table) ids.

(** The jobStart event of a job. *)
Definition startEvent (j : Job) : Event :=
  jobStart (jobId j) (jobSession j) (path (jobFile j)).

(** The jobs that a step of the queue starts: they emit their jobStart
    events and become suspended bodies holding a slot; nothing else of
    the instance changes but the queue and [activeUploads]. *)
Record starts (js : list Job) (st st' : State) : Prop := Starts {
  starts_emitted : emitted st' = emitted st ++ List.map startEvent js;
  starts_bodies : bodies st' = bodies st ++ js;
  starts_slots : slots st' = slots st ++ List.map jobId js;
  starts_timers : timers st' = timers st;
  starts_stats : stats st' = stats st;
  starts_listeners : listeners st' = listeners st
}.

(** The reset time of the headers in milliseconds, when it is a time
    value. *)
Definition usableReset (h : Headers) : option Z :=
  match resetTimeOf h with
  | JsNum.Num t => if (Z.abs t <=? 8640000000000000)%Z then Some t else None
  | JsNum.NaN => None
  end.



(** The job to which a slot that is given back goes: the first queued
    job, unless the queue is paused or the slot is beyond the
    concurrency. *)
Definition nextUp (q : PQueue.t Job) : list Job :=
  match PQueue.queue q with
  | x :: _ =>
      if negb (PQueue.isPaused q)
         && (Nat.pred (PQueue.pendingCount q) <? PQueue.concurrency q)%nat
      then [PQueue.run x]
      else []
  | [] => []
  end.

(** The options of the queue that concern the timeout. *)
Definition options (st : State) : Z * bool :=
  (PQueue.timeout (queue st), PQueue.throwOnTimeout (queue st)).

(** A read that lets the job go on to the write: the file was found,
    or the read was rejected with 404. *)
Definition benign (g : GetResult) : bool :=
  match g with
  | GetFound _ => true
  | GetRejected r => bool_decide (status <$> r = Some 404%Z)
  end.

End Observe.

(** ** Scenarios *)

Module Scenario.
Import Js UploadQueue Observe.

Definition fileOf (name : string) (prio : Z) : FileData :=
  MkFileData (lit name) (lit "Y29udGVudA==") (Some prio).

Definition quota (remaining reset : string) : Headers :=
  MkHeaders (Some remaining) (Some "5000"%string) (Some reset).

(** The read finds no file (404), the write succeeds with quota left. *)
Definition notFound : GetResult :=
  GetRejected (Some (MkResponse 404 (MkHeaders None None None))).
Definition written : PutResult := PutDone (quota "4000" "1700000000").

(** The write is refused with 403 and an exhausted quota that resets at
    1700000000 s. *)
Definition exhausted : PutResult :=
  PutRejected (Some (MkResponse 403 (quota "0" "1700000000"))).


(** One slot, taken by job 0; behind it three jobs are submitted with
    the priorities 2, 0 and 1. *)
Definition contenders : list (nat * Z) := [(1, 2%Z); (2, 0%Z); (3, 1%Z)].

Definition contended : State :=
  fold_left (fun st e => addUploadJob 0 (fst e) (fileOf "f" (snd e)) "s" st)
            contenders
            (addUploadJob 0 0 (fileOf "first" 0) "s" (create (Env.Make (Some 1) None))).

(** The slot is given back four times, each time by the job that holds
    it. *)
Definition settleHolder (st : State) : State :=
  match slots st with
  | id :: _ => fst (settle 1 id notFound written st)
  | [] => st
  end.

Definition contendedRun : State :=
  settleHolder (settleHolder (settleHolder (settleHolder contended))).

(** Two slots, two running jobs; the write of each is refused with an
    exhausted quota, one ten seconds before the reset, the other half a
    second later; then both resume timers fire. *)
Definition twoRunning : State :=
  addUploadJob 0 1 (fileOf "b" 1) "s" (addUploadJob 0 0 (fileOf "a" 0) "s" (create (Env.Make (Some 2) None))).

Definition firstSignal : State :=
  fst (settle 1699999990000 0 notFound exhausted twoRunning).
Definition secondSignal : State :=
  fst (settle 1699999990500 1 notFound exhausted firstSignal).
Definition bothFired : State :=
  fireTimer 1700000001000 0 (fireTimer 1700000001000 0 secondSignal).

(** One slot: job 0 runs and job 1 is queued when the queue's timeout
    elapses for job 0; the requests of job 0 are answered later. *)
Definition oneRunning : State :=
  addUploadJob 0 1 (fileOf "b" 1) "s" (addUploadJob 0 0 (fileOf "a" 0) "s" (create (Env.Make (Some 1) None))).

Definition timedOut : State * option Settlement := timeoutJob 300000 0 oneRunning.
Definition answeredLate : State * bool := settle 400000 0 notFound written (fst timedOut).

End Scenario.

Module ServerScenario.
Import Js FileScanner Routes Server.

(** Decimal numerals, for the names of generated files. *)
Definition decimal (n : nat) : string := NilEmpty.string_of_uint (Nat.to_uint n).

(** A text file of [bytes] bytes named after [n]. *)
Definition numbered (bytes : Z) (n : nat) : File :=
  MkFile (lit ("f" ++ decimal n ++ ".txt")) bytes (lit "eA==").

Definition archive : Upload := MkUpload "upload.zip" "application/zip" (1024 * 1024).

(** A well-formed upload by installation 7 into o/r with the extracted
    [files]. *)
Definition uploadOf (files : list File) (sessionId : string) : StartRequest :=
  MkStartRequest (Some 7) (Some "o"%string) (Some "r"%string) (Some "main"%string) None None
                 (Some archive) (Some "token"%string) (Some (files, "upload_1"%string))
                 sessionId.

Definition twoSlots : Env.t := Env.Make (Some 2) None.

Definition answered (id : nat) : Action :=
  Answers id Scenario.notFound Scenario.written.

(** One file, uploaded with success. *)
Definition completedRun : System :=
  run Env.unset
      [ (10%Z, PostStart (uploadOf [numbered 10 0] "s1"));
        (20%Z, PostExecute (Some 7) "s1");
        (30%Z, answered 0) ]
      (boot Env.unset).

(** Seven files on two slots: two jobs are active and five are queued
    when the batch is cancelled. *)
Definition sevenFiles : list File := List.map (numbered 10) (seq 0 7).

Definition cancelledRun : System :=
  run twoSlots
      [ (10%Z, PostStart (uploadOf sevenFiles "s1"));
        (20%Z, PostExecute (Some 7) "s1");
        (30%Z, PostCancel (Some 7) "s1") ]
      (boot twoSlots).

(** After the cancellation one of the two active jobs is answered. *)
Definition afterCancel : System :=
  run twoSlots [ (40%Z, answered 0) ]%Z cancelledRun.

(** Every job is answered in the end, each when it holds a slot. *)
Definition drained : System :=
  run twoSlots
      [ (50%Z, answered 1); (51%Z, answered 6); (52%Z, answered 5); (53%Z, answered 4);
        (54%Z, answered 3); (55%Z, answered 2) ]
      afterCancel.

(** More files than [validateFileList] admits, and two files that
    together are larger than it admits. *)
Definition manyFiles : list File := List.map (numbered 10) (seq 0 1001).
Definition largeFiles : list File := List.map (numbered (60 * 1024 * 1024)) (seq 0 2).

(** A subscriber of session s1 is connected while a job of s1 runs into
    the exhausted quota and the resume timer fires. *)
Definition subscribedRun : System :=
  run Env.unset
      [ (10%Z, PostStart (uploadOf [numbered 10 0] "s1"));
        (15%Z, GetProgress "s1");
        (20%Z, PostExecute (Some 7) "s1");
        (30%Z, Answers 0 Scenario.notFound Scenario.exhausted);
        (40%Z, TimerFires 0) ]
      (boot Env.unset).

End ServerScenario.

(** ** Invariants of the running server *)

Module Invariant.
Import UploadQueue Observe Routes Server.

(** The governor's books: every Exceeded event that has no Resumed
    event yet has its resume timer pending, the exhaustion counter
    counts the Exceeded events, and nothing listens to the instance. *)
Record governed (q : State) : Prop := Governed {
  governed_cycles :
    count isExceeded (emitted q) = count isResumed (emitted q) + length (timers q);
  governed_hits : count isExceeded (emitted q) <= rateLimitHits (UploadQueue.stats q);
  governed_listeners : listeners q = []
}.

(** What a connection has received is its connected message and
    keep-alive pings. *)
Definition idle (c : Connection) : Prop :=
  Forall (fun m => m = connected (connSession c) \/ m = ping) (res c).

(** The counters of a session are as /start set them. *)
Definition untouched (se : Session) : Prop :=
  total (Routes.stats se) = length (files se)
  /\ completed (Routes.stats se) = 0
  /\ failed (Routes.stats se) = 0.

Record sound (sys : System) : Prop := Sound {
  sound_queue : governed (uploadQueue sys);
  sound_sessions : map_Forall (fun _ se => untouched se) (sessions sys);
  sound_connections : Forall idle (connections sys)
}.

End Invariant.

(** ** Predicates used to state the properties of the path functions *)

Module PathSpec.
Import Js PathSanitizer.

(** A character that a cleaned part may contain. *)
Definition plain (c : N) : bool :=
  negb (isChar slash c) && negb (isChar backslash c) && negb (isChar NUL c)
  && negb (isInvalidChar c).

(** The first, respectively the last, character is not in the class. *)
Definition headGood (p : N -> bool) (s : jsstring) : Prop :=
  match s with
  | [] => True
  | c :: _ => p c = false
  end.

Definition lastGood (p : N -> bool) (s : jsstring) : Prop :=
  match s with
  | [] => True
  | _ :: _ => p (List.last s 0%N) = false
  end.

(** What every element of [validParts] satisfies. *)
Record clean (p : jsstring) : Prop := Clean {
  clean_nonempty : p <> [];
  clean_plain : Forall (fun c => plain c = true) p;
  clean_head : headGood isSpace p;
  clean_last : lastGood isSpace p;
  clean_dots : collapseDots p = p
}.

Definition notDot (p : jsstring) : bool := negb (eqs p (lit ".")).

(** The part of [plain] that a split of the prepared input gives. *)
Definition inert (c : N) : bool :=
  negb (isChar slash c) && negb (isChar backslash c) && negb (isChar NUL c).

End PathSpec.

(** ** utils/pathSanitizer.js, continued *)

Module PathTools.
Import Js PathSanitizer.

(** [s.lastIndexOf(c)]; [None] is the result -1. *)
Fixpoint lastIndexOf (c : N) (s : jsstring) : option nat :=
  match s with
  | [] => None
  | x :: r =>
      match lastIndexOf c r with
      | Some i => Some (S i)
      | None => if N.eqb x c then Some 0 else None
      end
  end.

(** [getParentDirectory(filePath)]; [substring(0, lastSlash)] is the
    prefix of that length. *)
Definition getParentDirectory (filePath : jsstring) : jsstring :=
  let sanitized := sanitizePath filePath in
  match lastIndexOf slash sanitized with
  | None => []
  | Some lastSlash => take lastSlash sanitized
  end.

(** The characters that no output of [sanitizePath] contains. *)
Definition removed (c : N) : bool :=
  isChar NUL c || isChar backslash c || isInvalidChar c.

(** The shape of a blocked extension: a dot and then at least one
    character, none of them a dot or a separator. *)
Definition extensionShape (e : jsstring) : bool :=
  match e with
  | c :: x =>
      isChar dot c && negb (eqs x [])
      && forallb (fun y => negb (isChar dot y) && negb (isChar slash y)) x
  | [] => false
  end.

Definition underscore : N := chr "_".

(** The characters that [[^a-zA-Z0-9._-]] does not match. *)
Definition isSafeChar (c : N) : bool :=
  ((97 <=? c) && (c <=? 122))%N || ((65 <=? c) && (c <=? 90))%N
  || ((48 <=? c) && (c <=? 57))%N
  || isChar dot c || isChar underscore c || isChar (chr "-") c.

(** [path.basename(originalName, path.extname(originalName))].  The
    extension is empty, or it is the end of the last component from its
    last dot on and a proper part of it; [basename] with this suffix
    gives the component without it. *)
Definition baseNameOf (originalName : jsstring) : jsstring :=
  let b := basename originalName in
  match lastDot b with
  | Some (pre, _) => if eqs pre [] || eqs b (lit "..") then b else pre
  | None => b
  end.

(** [counter > 0 ? `_${counter}` : ''], for a counter that is a natural
    number written without exponent. *)
Definition suffixOf (counter : nat) : jsstring :=
  if (0 <? counter)%nat then underscore :: lit (ServerScenario.decimal counter) else [].

(** [s.replace(/[^a-zA-Z0-9._-]/g, '_').replace(/^_+|_+$/g, '')] *)
Definition cleaned (s : jsstring) : jsstring :=
  dropEnd (isChar underscore)
          (dropStart (isChar underscore)
                     (List.map (fun c => if isSafeChar c then c else underscore) s)).

(** [getSafeFileName(originalName, counter = 0)] *)
Definition getSafeFileName (originalName : jsstring) (counter : nat) : jsstring :=
  let baseName := baseNameOf originalName in
  let ext := extname originalName in
  let safeName := cleaned baseName in
  let safeName := if eqs safeName [] then lit "file" else safeName in
  safeName ++ suffixOf counter ++ ext.

End PathTools.

(** ** services/uploadQueue.js, continued: getStats and the books of
    the queue *)

Module Accounting.
Import UploadQueue.

(** What [getStats()] returns: the four counters, the number of entries
    of [activeUploads], and the queue's [pending] (running) and [size]
    (waiting) counts. *)
Record Report : Type := MkReport {
  counters : Stats;
  activeJobs : nat;
  pendingJobs : nat;
  queueSize : nat
}.

Definition getStats (st : State) : Report :=
  MkReport (stats st) (size (activeUploads st)) (PQueue.pending (queue st))
           (PQueue.size (queue st)).

(** The ids of the waiting jobs and of the jobs whose body runs. *)
Definition queuedIds (st : State) : list nat :=
  List.map (fun e => jobId (PQueue.run e)) (PQueue.queue (queue st)).

Definition runningIds (st : State) : list nat := List.map jobId (bodies st).

(** The books of an instance with [c] slots to which the jobs
    [0 .. n-1] were submitted. *)
Record tidy (c n : nat) (st : State) : Prop := Tidy {
  tidy_concurrency : PQueue.concurrency (queue st) = c;
  tidy_pending : PQueue.pendingCount (queue st) = length (slots st);
  tidy_bound : length (slots st) <= c;
  tidy_ids : NoDup (runningIds st ++ queuedIds st);
  tidy_fresh : Forall (fun id => id < n) (runningIds st ++ queuedIds st);
  tidy_slots : NoDup (slots st ++ queuedIds st);
  tidy_held : Forall (fun id => id < n) (slots st);
  tidy_active : dom (activeUploads st) = list_to_set (runningIds st);
  tidy_total :
    totalJobs (stats st)
    = completedJobs (stats st) + failedJobs (stats st)
      + length (PQueue.queue (queue st)) + length (bodies st);
  tidy_next : totalJobs (stats st) = n
}.

(** A list of ids without [id]. *)
Definition without (id : nat) (l : list nat) : list nat :=
  List.filter (fun y => negb (Nat.eqb y id)) l.

(** Jobs began between [st] and [st']: each of them took a slot and has
    its body running. *)
Definition grows (st st' : State) : Prop :=
  exists new, runningIds st' = runningIds st ++ new /\ slots st' = slots st ++ new.

(** The wrapper of job [id] ended between [st] and [st'] (and jobs may
    have begun). *)
Definition frees (id : nat) (st st' : State) : Prop :=
  exists new, runningIds st' = runningIds st ++ new
              /\ slots st' = without id (slots st) ++ new.

(** The body of job [id] ended between [st] and [st']. *)
Definition ends (id : nat) (st st' : State) : Prop :=
  exists new, runningIds st' = without id (runningIds st) ++ new
              /\ slots st' = without id (slots st) ++ new.

(** Every job that holds a slot of the queue has its body running. *)
Definition held (st : State) : Prop := Forall (fun id => id ∈ runningIds st) (slots st).

(** The state that [checkRateLimits] leaves: the one it was called in
    when it throws. *)
Definition checked (h : Headers) (st : State) : State :=
  default st (checkRateLimits h st).

(** Nothing of the governor moved between two states: the pause flag,
    the resume timers, the exhaustion counter and the Exceeded events. *)
Definition calm (st st' : State) : Prop :=
  PQueue.isPaused (queue st') = PQueue.isPaused (queue st)
  /\ timers st' = timers st
  /\ rateLimitHits (stats st') = rateLimitHits (stats st)
  /\ Observe.count Observe.isExceeded (emitted st')
     = Observe.count Observe.isExceeded (emitted st).

End Accounting.

(** ** The books of the instance that the routes share *)

Module Books.
Import Routes Server Accounting.

Definition books (env : Env.t) (sys : System) : Prop :=
  tidy (UploadQueue.concurrencyOf env) (nextJob sys) (uploadQueue sys).

Definition isTimeout (a : Action) : bool :=
  match a with
  | QueueTimeout _ => true
  | _ => false
  end.

(** Two records of one upload: what /start stored is the same. *)
Definition sameUpload (se se' : Session) : Prop :=
  files se' = files se /\ config se' = config se /\ tempId se' = tempId se
  /\ startedAt se' = startedAt se.

(** Every session of [ss] is in [ss'], with the same upload. *)
Definition keeps (ss ss' : gmap string Session) : Prop :=
  forall sid se, ss !! sid = Some se ->
                 exists se', ss' !! sid = Some se' /\ sameUpload se se'.

(** A session that /execute can work on: it names an installation, a
    repository and a branch, and it has files, each with a valid path. *)
Definition uploadable (se : Session) : Prop :=
  files se <> []
  /\ Forall (fun file => PathSanitizer.isValidPath (FileScanner.path file) = true) (files se)
  /\ installationId (config se) <> 0
  /\ owner (config se) <> ""%string
  /\ repo (config se) <> ""%string
  /\ branch (config se) <> ""%string.

(** The jobs of an instance: those that wait and those whose body
    runs. *)
Definition jobsOf (st : UploadQueue.State) : list UploadQueue.Job :=
  List.map PQueue.run (PQueue.queue (UploadQueue.queue st)) ++ UploadQueue.bodies st.

(** The job uploads a file of its session. *)
Definition owned (ss : gmap string Session) (j : UploadQueue.Job) : Prop :=
  exists se file,
    ss !! UploadQueue.jobSession j = Some se
    /\ In file (files se)
    /\ UploadQueue.path (UploadQueue.jobFile j) = FileScanner.path file
    /\ UploadQueue.content (UploadQueue.jobFile j) = FileScanner.content file.

(** No job is in [st'] that is not in [st]. *)
Definition sub (st st' : UploadQueue.State) : Prop :=
  forall j, In j (jobsOf st') -> In j (jobsOf st).

End Books.


(** ** github/auth.js: the token cache of [GitHubAuth]

    [getInstallationToken] reads and writes [tokenCache] around one
    request.  The key is [installation_token_<id>], so the cache is a
    map from installation ids.  The method runs in two turns of the
    event loop: up to the request, and from the answer on. *)

Module GitHubAuth.

Record Cached : Type := MkCached {
  token : string;
  expiresAt : Z
}.

Abbreviation Cache := (gmap nat Cached) (only parsing).

(** [constructor()] *)
Definition create : Cache := ∅.

(** The method up to the request: a cached token whose time has not
    come is returned; an entry whose time has come is deleted and the
    request is made. *)
Definition cachedToken (now : Z) (installationId : nat) (tokenCache : Cache)
    : option string * Cache :=
  match tokenCache !! installationId with
  | Some cached =>
      if (now <? expiresAt cached)%Z then (Some (token cached), tokenCache)
      else (None, delete installationId tokenCache)
  | None => (None, tokenCache)
  end.

(** The method from the answer on; [None] is a rejected request, for
    which the method throws. *)
Definition received (now : Z) (installationId : nat) (answer : option string)
    (tokenCache : Cache) : option string * Cache :=
  match answer with
  | Some tokenData =>
      let expiresAt := (now + 60 * 60 * 1000 - 60000)%Z in
      (Some tokenData, <[installationId := MkCached tokenData expiresAt]> tokenCache)
  | None => (None, tokenCache)
  end.

(** What happens to the cache over time: calls of the method and
    answers to its requests, each with the reading of the clock. *)
Inductive Event : Type :=
| Called (installationId : nat)
| Answered (installationId : nat) (answer : option string).

Definition step (tokenCache : Cache) (turn : Z * Event) : Cache :=
  match snd turn with
  | Called installationId => snd (cachedToken (fst turn) installationId tokenCache)
  | Answered installationId answer =>
      snd (received (fst turn) installationId answer tokenCache)
  end.

Definition run (turns : list (Z * Event)) : Cache := fold_left step turns create.

(** Every entry of the cache was written by an answer. *)
Definition sourced (turns : list (Z * Event)) (c : Cache) : Prop :=
  forall id cached, c !! id = Some cached ->
    exists t, In (t, Answered id (Some (token cached))) turns
              /\ expiresAt cached = (t + 3540000)%Z.

End GitHubAuth.

(** ** routes/install.js

    The routes work on [req.session], the session of the client that
    express-session keeps.  A handler is modelled from the request to
    the response, with the answer of [GitHubAuth.verifyInstallation]
    given. *)

Module Install.

(** The values that [req.session.installState] takes: never assigned,
    the string that /start issued, and [null] after a verification. *)
Inductive InstallState : Type :=
| Unset
| Issued (state : string)
| Spent.

(** [state] in the body of a request: absent, [null], a string, or a
    value of another type. *)
Inductive BodyValue : Type :=
| Undefined
| Null
| Str (s : string)
| Other.

(** What [verifyInstallation] returns of an installation.  Installation
    ids are numbers. *)
Record Installation : Type := MkInstallation {
  id : nat;
  account : string
}.

Record ClientSession : Type := MkClientSession {
  installState : InstallState;
  installationId : option nat;
  installationInfo : option Installation
}.

(** A session that express-session has just created. *)
Definition fresh : ClientSession := MkClientSession Unset None None.

(** [state !== req.session.installState]: strict inequality, which
    holds between values of different types. *)
Definition differs (state : BodyValue) (installState : InstallState) : bool :=
  match state, installState with
  | Undefined, Unset => false
  | Null, Spent => false
  | Str s, Issued s' => negb (bool_decide (s = s'))
  | _, _ => true
  end.

(** GET /start; [state] is the string built from the clock and
    [Math.random()]. *)
Definition start (state : string) (session : ClientSession) : ClientSession :=
  MkClientSession (Issued state) (installationId session) (installationInfo session).

(** What [verifyInstallation] comes to: the installation, [null] for a
    404 of GitHub, or an error. *)
Inductive Verification : Type :=
| Found (installation : Installation)
| NotFound
| Failed.

Inductive Reply : Type :=
| Error (code : nat) (error : string)
| Success.

(** POST /verify *)
Definition verify (installation_id : option nat) (state : BodyValue)
    (answer : Verification) (session : ClientSession) : Reply * ClientSession :=
  if Routes.noInstallation installation_id then
    (Error 400 "Missing installation_id parameter", session)
  else if differs state (installState session) then
    (Error 400 "Invalid state parameter", session)
  else
    match answer with
    | Found installation =>
        (Success, MkClientSession Spent installation_id (Some installation))
    | NotFound => (Error 404 "Installation not found or access denied", session)
    | Failed => (Error 500 "Failed to verify installation", session)
    end.

(** GET /status: whether an installation is reported. *)
Definition installed (session : ClientSession) : bool :=
  negb (Routes.noInstallation (installationId session)).

(** POST /uninstall *)
Definition uninstall (installation_id : option nat) (session : ClientSession)
    : Reply * ClientSession :=
  if Routes.noInstallation installation_id then (Error 400 "Missing installation_id", session)
  else if bool_decide (installationId session = installation_id) then
    (Success, MkClientSession (installState session) None None)
  else (Success, session).

(** The requests of one client, in order. *)
Inductive Request : Type :=
| GetStart (state : string)
| PostVerify (installation_id : option nat) (state : BodyValue) (answer : Verification)
| PostUninstall (installation_id : option nat).

Definition serve (session : ClientSession) (r : Request) : ClientSession :=
  match r with
  | GetStart state => start state session
  | PostVerify installation_id state answer =>
      snd (verify installation_id state answer session)
  | PostUninstall installation_id => snd (uninstall installation_id session)
  end.

Definition serveAll (rs : list Request) (session : ClientSession) : ClientSession :=
  fold_left serve rs session.

(** The installation of the session was confirmed by GitHub in one of
    the requests [rs]. *)
Definition confirmed (rs : list Request) (session : ClientSession) : Prop :=
  forall n, installationId session = Some n ->
    exists state installation,
      In (PostVerify (Some n) state (Found installation)) rs
      /\ installationInfo session = Some installation.

End Install.

(** ** utils/fileScanner.js, continued: groupFilesByExtension

    The function reads only [file.name].  The groups are the properties
    of a plain object: a property is created when its key is first
    seen, and the properties keep that order (no key is an array
    index).  [toLowerCase] is taken as it is, whatever it does to the
    characters beyond ASCII. *)

Module FileGroups.
Import Js PathSanitizer.

Section Grouping.
Context {A : Type}.
Variable name : A -> jsstring.
Variable toLowerCase : jsstring -> jsstring.

(** [path.extname(file.name).toLowerCase() || 'no-extension'] *)
Definition extOf (file : A) : jsstring :=
  let ext := toLowerCase (extname (name file)) in
  if eqs ext [] then lit "no-extension" else ext.

(** [groups[ext].push(file)], after [groups[ext] = []] when the
    property is missing. *)
Fixpoint push (ext : jsstring) (file : A) (groups : list (jsstring * list A))
    : list (jsstring * list A) :=
  match groups with
  | [] => [(ext, [file])]
  | (k, fs) :: rest =>
      if eqs k ext then (k, fs ++ [file]) :: rest else (k, fs) :: push ext file rest
  end.

Definition groupFilesByExtension (files : list A) : list (jsstring * list A) :=
  fold_left (fun groups file => push (extOf file) file groups) files [].

(** [groups[ext]], with the empty list for a missing property. *)
Definition groupOf (ext : jsstring) (groups : list (jsstring * list A)) : list A :=
  match List.find (fun g => eqs (fst g) ext) groups with
  | Some g => snd g
  | None => []
  end.

(** The keys of a list that are not in [seen], in the order of their
    first occurrence. *)
Fixpoint firstSeen (keys seen : list jsstring) : list jsstring :=
  match keys with
  | [] => []
  | k :: rest =>
      if includes seen k then firstSeen rest seen else k :: firstSeen rest (seen ++ [k])
  end.

End Grouping.

End FileGroups.

(** ** github/routes/repos.js: the list of repositories

    Once it has the installation token, GET / asks GitHub for the
    repositories of the installation page by page, from page 1, until
    an answer has no [Link] header that names a next page.  [github] is
    what GitHub answers for each page. *)

Module Repos.

Section Pages.
Context {Repo : Type}.

Record Page : Type := MkPage {
  repositories : list Repo;
  link : option string
}.

Inductive Answer : Type :=
| Ok (page : Page)
| Rejected (status : option Z).

Inductive Reply : Type :=
| Error (code : nat) (error : string)
| Repositories (repositories : list Repo) (count : nat).

(** The text [rel="next"]. *)
Definition relNext : string :=
  ("rel=" ++ String (ascii_of_nat 34) ("next" ++ String (ascii_of_nat 34) EmptyString))%string.

(** The loop goes on: [linkHeader && linkHeader.includes('rel="next"')]. *)
Definition hasNext (linkHeader : option string) : bool :=
  match linkHeader with
  | None => false
  | Some l => negb (bool_decide (l = EmptyString)) && Routes.includesStr relNext l
  end.

(** The [catch] block. *)
Definition failed (status : option Z) : Reply :=
  if bool_decide (status = Some 401%Z)
  then Error 401 "GitHub App installation token expired or invalid"
  else Error 500 "Failed to fetch repositories".

(** [while (true) { ... }] from page [page] on with [allRepos] collected;
    [None] when the loop has not ended after [fuel] requests. *)
Fixpoint fetch (fuel : nat) (github : nat -> Answer) (page : nat) (allRepos : list Repo)
    : option Reply :=
  match fuel with
  | O => None
  | S fuel' =>
      match github page with
      | Rejected status => Some (failed status)
      | Ok response =>
          let allRepos := allRepos ++ repositories response in
          if hasNext (link response) then fetch fuel' github (S page) allRepos
          else Some (Repositories allRepos (length allRepos))
      end
  end.

Definition getRepositories (fuel : nat) (github : nat -> Answer) : option Reply :=
  fetch fuel github 1 [].

(** The repositories of the pages [page], ..., [page + n - 1]. *)
Fixpoint collected (github : nat -> Answer) (page n : nat) : list Repo :=
  match n with
  | O => []
  | S n' =>
      match github page with
      | Ok response => repositories response ++ collected github (S page) n'
      | Rejected _ => []
      end
  end.

(** The answer for [page] is a page with a next page. *)
Definition continues (github : nat -> Answer) (page : nat) : Prop :=
  exists response, github page = Ok response /\ hasNext (link response) = true.

End Pages.

Arguments Page : clear implicits.
Arguments Answer : clear implicits.
Arguments Reply : clear implicits.

(** GitHub has two pages of repository ids. *)
Definition twoPages (page : nat) : Answer nat :=
  match page with
  | 1 => Ok (MkPage [11; 12] (Some ("<https://api.github.com/installation/repositories?page=2>; "
                                     ++ relNext)%string))
  | _ => Ok (MkPage [13] None)
  end.

(** GitHub names a next page on every page. *)
Definition endless (page : nat) : Answer nat := Ok (MkPage [page] (Some relNext)).

End Repos.
(** * Properties *)

Section PathFacts.
Import Js PathSanitizer PathSpec.

Lemma dropStart_Forall (P : N -> Prop) p s : Forall P s -> Forall P (dropStart p s).
Proof.
  induction 1 as [|c r Hc Hr IH]; simpl; [constructor|].
  destruct (p c); [assumption | constructor; assumption].
Qed.

Lemma dropEnd_Forall (P : N -> Prop) p s : Forall P s -> Forall P (dropEnd p s).
Proof.
  induction 1 as [|c r Hc Hr IH]; simpl; [constructor|].
  destruct (dropEnd p r) as [|x r'].
  - destruct (p c); constructor; auto.
  - constructor; assumption.
Qed.

Lemma dropStart_head p s : headGood p (dropStart p s).
Proof.
  induction s as [|c r IH]; simpl; [exact I|].
  destruct (p c) eqn:E; [assumption | simpl; assumption].
Qed.

Lemma dropStart_id p s : headGood p s -> dropStart p s = s.
Proof. destruct s as [|c r]; simpl; [reflexivity|]. intros ->. reflexivity. Qed.

Lemma dropEnd_cons p c r :
  dropEnd p (c :: r) = [] \/ exists t, dropEnd p (c :: r) = c :: t.
Proof.
  simpl. destruct (dropEnd p r) as [|x r'].
  - destruct (p c); [left | right; exists []]; reflexivity.
  - right. exists (x :: r'). reflexivity.
Qed.

Lemma dropEnd_head p s : headGood p s -> headGood p (dropEnd p s).
Proof.
  destruct s as [|c r]; [intros; exact I|].
  intros H. destruct (dropEnd_cons p c r) as [-> | [t ->]]; [exact I | exact H].
Qed.

Lemma dropEnd_last p s : lastGood p (dropEnd p s).
Proof.
  induction s as [|c r IH]; simpl; [exact I|].
  destruct (dropEnd p r) as [|x r'] eqn:E.
  - destruct (p c) eqn:Ec; simpl; [exact I | assumption].
  - exact IH.
Qed.

Lemma dropEnd_id p s : lastGood p s -> dropEnd p s = s.
Proof.
  induction s as [|c r IH]; [reflexivity|].
  destruct r as [|d r'].
  - simpl. intros ->. reflexivity.
  - intros H. change (dropEnd p (c :: d :: r'))
      with (match dropEnd p (d :: r') with
            | [] => if p c then [] else [c]
            | x :: t => c :: x :: t
            end).
    rewrite IH; [reflexivity | exact H].
Qed.

Lemma trim_fixed s : headGood isSpace s -> lastGood isSpace s -> trim s = s.
Proof.
  intros Hh Hl. unfold trim. rewrite (dropStart_id _ _ Hh). apply dropEnd_id, Hl.
Qed.

Lemma trim_head s : headGood isSpace (trim s).
Proof. apply dropEnd_head, dropStart_head. Qed.

Lemma trim_last s : lastGood isSpace (trim s).
Proof. apply dropEnd_last. Qed.

Lemma collapseDots_step c d r :
  collapseDots (c :: d :: r)
  = if isChar dot c && isChar dot d then collapseDots (d :: r)
    else c :: collapseDots (d :: r).
Proof. reflexivity. Qed.

Lemma collapseDots_cons c r : exists t, collapseDots (c :: r) = c :: t.
Proof.
  revert c. induction r as [|d r' IH]; intros c.
  - exists []. reflexivity.
  - rewrite collapseDots_step. destruct (isChar dot c && isChar dot d) eqn:E.
    + destruct (IH d) as [t Ht]. rewrite Ht.
      apply andb_true_iff in E as [Ec Ed].
      apply N.eqb_eq in Ec, Ed. subst. exists t. reflexivity.
    + eexists. reflexivity.
Qed.

Lemma collapseDots_Forall (P : N -> Prop) s : Forall P s -> Forall P (collapseDots s).
Proof.
  induction 1 as [|c r Hc Hr IH]; [constructor|].
  destruct r as [|d r']; [constructor; auto|].
  rewrite collapseDots_step.
  destruct (isChar dot c && isChar dot d); [assumption | constructor; assumption].
Qed.

Lemma collapseDots_head p s : headGood p s -> headGood p (collapseDots s).
Proof.
  destruct s as [|c r]; [intros; exact I|].
  destruct (collapseDots_cons c r) as [t ->]. trivial.
Qed.

Lemma collapseDots_lastchar s d : List.last (collapseDots s) d = List.last s d.
Proof.
  induction s as [|c r IH]; [reflexivity|].
  destruct r as [|e r']; [reflexivity|].
  rewrite collapseDots_step.
  destruct (isChar dot c && isChar dot e).
  - rewrite IH. reflexivity.
  - destruct (collapseDots_cons e r') as [t Ht]. rewrite Ht in *.
    change (List.last (c :: e :: t) d) with (List.last (e :: t) d).
    rewrite IH. reflexivity.
Qed.

Lemma collapseDots_last p s : lastGood p s -> lastGood p (collapseDots s).
Proof.
  destruct s as [|c r]; [intros; exact I|].
  intros H. destruct (collapseDots_cons c r) as [t Ht].
  unfold lastGood. rewrite Ht, <- Ht, collapseDots_lastchar. exact H.
Qed.

Lemma collapseDots_idem s : collapseDots (collapseDots s) = collapseDots s.
Proof.
  induction s as [|c r IH]; [reflexivity|].
  destruct r as [|d r']; [reflexivity|].
  rewrite collapseDots_step.
  destruct (isChar dot c && isChar dot d) eqn:E; [exact IH|].
  destruct (collapseDots_cons d r') as [t Ht]. rewrite Ht in *.
  rewrite collapseDots_step.
  rewrite E, IH. reflexivity.
Qed.

Lemma filter_fixed (p : N -> bool) s :
  Forall (fun c => p c = true) s -> List.filter p s = s.
Proof.
  induction 1 as [|c r Hc Hr IH]; simpl; [reflexivity|]. rewrite Hc, IH. reflexivity.
Qed.

Lemma filter_Forall (p : N -> bool) s : Forall (fun c => p c = true) (List.filter p s).
Proof.
  induction s as [|c r IH]; simpl; [constructor|].
  destruct (p c) eqn:E; [constructor; assumption | assumption].
Qed.

Lemma filter_keeps (P : N -> Prop) (p : N -> bool) s :
  Forall P s -> Forall P (List.filter p s).
Proof.
  induction 1 as [|c r Hc Hr IH]; simpl; [constructor|].
  destruct (p c); [constructor; assumption | assumption].
Qed.

(** A cleaned part is a fixed point of the cleaning. *)
Lemma cleanPart_fixed p : clean p -> cleanPart p = p.
Proof.
  intros [_ Hp Hh Hl Hd]. unfold cleanPart.
  rewrite filter_fixed.
  - rewrite trim_fixed by assumption. exact Hd.
  - eapply Forall_impl; [exact Hp|]. intros c Hc.
    unfold plain in Hc. apply andb_true_iff in Hc as [_ Hc]. exact Hc.
Qed.

Lemma filter_plain q :
  Forall (fun c => inert c = true) q ->
  Forall (fun c => plain c = true) (List.filter (fun c => negb (isInvalidChar c)) q).
Proof.
  induction 1 as [|c r Hc Hr IH]; [constructor|].
  cbn [List.filter]. destruct (negb (isInvalidChar c)) eqn:E; [|exact IH].
  constructor; [|exact IH].
  unfold plain. unfold inert in Hc. rewrite Hc, E. reflexivity.
Qed.

Lemma cleanPart_clean q :
  Forall (fun c => inert c = true) q -> cleanPart q <> [] -> clean (cleanPart q).
Proof.
  intros Hq Hne. unfold cleanPart in *.
  constructor.
  - exact Hne.
  - apply collapseDots_Forall. unfold trim.
    apply dropEnd_Forall, dropStart_Forall, filter_plain, Hq.
  - apply collapseDots_head, trim_head.
  - apply collapseDots_last, trim_last.
  - apply collapseDots_idem.
Qed.


Lemma split_parts (P : N -> Prop) sep s :
  Forall P s -> Forall (Forall (fun c => P c /\ N.eqb c sep = false)) (split sep s).
Proof.
  induction 1 as [|c r Hc Hr IH]; [repeat constructor|].
  cbn [split]. destruct (N.eqb c sep) eqn:E.
  - constructor; [constructor | exact IH].
  - destruct (split sep r) as [|p ps]; [repeat constructor; auto|].
    inversion IH; subst. constructor; [constructor; auto | assumption].
Qed.

Lemma split_single sep p :
  Forall (fun c => N.eqb c sep = false) p -> split sep p = [p].
Proof.
  induction 1 as [|c r Hc Hr IH]; [reflexivity|].
  cbn [split]. rewrite Hc, IH. reflexivity.
Qed.

Lemma split_app sep p rest :
  Forall (fun c => N.eqb c sep = false) p ->
  split sep (p ++ sep :: rest) = p :: split sep rest.
Proof.
  induction 1 as [|c r Hc Hr IH].
  - cbn [app split]. rewrite N.eqb_refl. reflexivity.
  - cbn [app split]. rewrite Hc, IH. reflexivity.
Qed.

Lemma join_cons sep p q ps : join sep (p :: q :: ps) = p ++ sep :: join sep (q :: ps).
Proof. reflexivity. Qed.

Lemma split_join sep ps :
  ps <> [] -> Forall (Forall (fun c => N.eqb c sep = false)) ps ->
  split sep (join sep ps) = ps.
Proof.
  intros Hne H. induction H as [|p ps Hp Hps IH]; [contradiction|].
  destruct ps as [|q ps'].
  - apply split_single, Hp.
  - rewrite join_cons, split_app by exact Hp. rewrite IH; [reflexivity | discriminate].
Qed.

Lemma join_Forall (P : N -> Prop) sep ps :
  P sep -> Forall (Forall P) ps -> Forall P (join sep ps).
Proof.
  intros Hs H. induction H as [|p ps Hp Hps IH]; [constructor|].
  destruct ps as [|q ps']; [exact Hp|].
  rewrite join_cons. apply Forall_app. split; [exact Hp|]. constructor; assumption.
Qed.

Lemma join_nonempty sep p ps : p <> [] -> join sep (p :: ps) <> [].
Proof.
  intros Hp. destruct ps as [|q ps']; [exact Hp|].
  rewrite join_cons. destruct p; [contradiction | discriminate].
Qed.

Lemma join_head f sep p ps : p <> [] -> headGood f p -> headGood f (join sep (p :: ps)).
Proof.
  intros Hne Hp. destruct ps as [|q ps']; [exact Hp|].
  rewrite join_cons. destruct p; [contradiction | exact Hp].
Qed.

Lemma last_app_nonempty (a b : jsstring) d : b <> [] -> List.last (a ++ b) d = List.last b d.
Proof.
  intros Hb. induction a as [|x a IH]; [reflexivity|].
  cbn [app]. destruct (a ++ b) eqn:E.
  - destruct a; [simpl in E; contradiction | discriminate].
  - rewrite <- IH. reflexivity.
Qed.

Lemma lastGood_app f (a b : jsstring) : b <> [] -> lastGood f b -> lastGood f (a ++ b).
Proof.
  intros Hb H. unfold lastGood in *.
  destruct (a ++ b) eqn:E.
  - exact I.
  - rewrite <- E, last_app_nonempty by exact Hb. destruct b; [contradiction | exact H].
Qed.

Lemma join_last f sep ps :
  Forall (fun p => p <> [] /\ lastGood f p) ps -> lastGood f (join sep ps).
Proof.
  induction 1 as [|p ps [Hne Hp] Hps IH]; [exact I|].
  destruct ps as [|q ps']; [exact Hp|].
  rewrite join_cons.
  change (p ++ sep :: join sep (q :: ps')) with (p ++ [sep] ++ join sep (q :: ps')).
  rewrite app_assoc. apply lastGood_app; [|exact IH].
  inversion Hps as [|? ? [Hq _] _]; subst. apply join_nonempty, Hq.
Qed.

Lemma clean_not_dotdot p : clean p -> eqs p (lit "..") = false.
Proof.
  intros [_ _ _ _ Hd]. unfold eqs. apply bool_decide_eq_false. intros ->.
  discriminate Hd.
Qed.

Lemma clean_not_empty p : clean p -> eqs p [] = false.
Proof.
  intros [Hne _ _ _ _]. unfold eqs. apply bool_decide_eq_false. exact Hne.
Qed.

Lemma length_pos (p : jsstring) : p <> [] -> (0 <? length p)%nat = true.
Proof. destruct p; [contradiction | reflexivity]. Qed.

(** On a cleaned part the loop either skips a single dot or pushes the
    part unchanged. *)
Lemma visit_clean_part acc p :
  clean p -> visit acc p = if notDot p then acc ++ [p] else acc.
Proof.
  intros Hc. unfold visit, notDot.
  rewrite (clean_not_empty p Hc). cbn [orb].
  destruct (eqs p (lit ".")); [reflexivity|]. cbn [negb].
  rewrite (clean_not_dotdot p Hc), (cleanPart_fixed p Hc).
  rewrite length_pos; [reflexivity | apply Hc].
Qed.

Lemma fold_visit_clean ps acc :
  Forall clean ps -> fold_left visit ps acc = acc ++ List.filter notDot ps.
Proof.
  intros H. revert acc. induction H as [|p ps Hp Hps IH]; intros acc.
  - cbn. rewrite app_nil_r. reflexivity.
  - cbn [fold_left List.filter]. rewrite (visit_clean_part acc p Hp), IH.
    destruct (notDot p); [rewrite <- app_assoc|]; reflexivity.
Qed.

Lemma Forall_removelast {A} (P : A -> Prop) (l : list A) :
  Forall P l -> Forall P (removelast l).
Proof.
  induction 1 as [|x l Hx Hl IH]; [constructor|].
  cbn [removelast]. destruct l; [constructor | constructor; assumption].
Qed.

(** The loop keeps [validParts] cleaned. *)
Lemma visit_keeps_clean acc q :
  Forall clean acc -> Forall (fun c => inert c = true) q -> Forall clean (visit acc q).
Proof.
  intros Hacc Hq. unfold visit.
  destruct (eqs q [] || eqs q (lit ".")); [exact Hacc|].
  destruct (eqs q (lit "..")).
  - destruct (0 <? length acc)%nat; [apply Forall_removelast|]; exact Hacc.
  - destruct (cleanPart q) eqn:E; [exact Hacc|].
    cbn [length Nat.ltb Nat.leb]. apply Forall_app. split; [exact Hacc|].
    constructor; [|constructor]. rewrite <- E. apply cleanPart_clean; [exact Hq|].
    rewrite E. discriminate.
Qed.

Lemma fold_visit_keeps_clean qs acc :
  Forall clean acc -> Forall (Forall (fun c => inert c = true)) qs ->
  Forall clean (fold_left visit qs acc).
Proof.
  intros Hacc H. revert acc Hacc. induction H as [|q qs Hq Hqs IH]; intros acc Hacc.
  - exact Hacc.
  - cbn [fold_left]. apply IH, visit_keeps_clean; assumption.
Qed.

Lemma validPartsOf_clean s : Forall clean (validPartsOf s).
Proof.
  unfold validPartsOf. apply fold_visit_keeps_clean; [constructor|].
  set (prepared := dropEnd _ _).
  assert (H : Forall (fun c => negb (isChar backslash c) && negb (isChar NUL c) = true) prepared).
  { unfold prepared, trim. do 4 apply dropEnd_Forall || apply dropStart_Forall.
    induction s as [|c r IH]; [constructor|].
    cbn [List.filter]. destruct (negb (isChar NUL c)) eqn:E; [|exact IH].
    cbn [List.map]. constructor; [|exact IH].
    destruct (isChar backslash c) eqn:Eb; [reflexivity|].
    rewrite Eb, E. reflexivity. }
  eapply Forall_impl; [exact (split_parts _ slash prepared H)|].
  intros p Hp. eapply Forall_impl; [exact Hp|].
  intros c [Hc Hs]. unfold inert. unfold isChar at 1. rewrite N.eqb_sym, Hs. exact Hc.
Qed.

Lemma sanitizePath_join s : sanitizePath s = join slash (validPartsOf s).
Proof. destruct s; reflexivity. Qed.

Lemma plain_inert c : plain c = true -> inert c = true.
Proof. unfold plain, inert. intros H. apply andb_true_iff in H as [H _]. exact H. Qed.

Lemma clean_no_slash ps :
  Forall clean ps -> Forall (Forall (fun c => N.eqb c slash = false)) ps.
Proof.
  intros H. eapply Forall_impl; [exact H|]. intros p [_ Hp _ _ _].
  eapply Forall_impl; [exact Hp|]. intros c Hc.
  apply plain_inert in Hc. unfold inert in Hc.
  apply andb_true_iff in Hc as [Hc _]. apply andb_true_iff in Hc as [Hc _].
  unfold isChar in Hc. rewrite N.eqb_sym. destruct (slash =? c)%N; [discriminate | reflexivity].
Qed.

(** The joined output of the loop is left alone by the preparation
    steps and splits back into the parts. *)
Lemma prepared_join ps :
  ps <> [] -> Forall clean ps ->
  validPartsOf (join slash ps) = List.filter notDot ps.
Proof.
  intros Hne H. unfold validPartsOf.
  assert (Hplain : Forall (fun c => negb (isChar backslash c) && negb (isChar NUL c) = true)
                          (join slash ps)).
  { apply join_Forall; [reflexivity|].
    eapply Forall_impl; [exact H|]. intros p [_ Hp _ _ _].
    eapply Forall_impl; [exact Hp|]. intros c Hc.
    apply plain_inert in Hc. unfold inert in Hc.
    apply andb_true_iff in Hc as [Hc Hn]. apply andb_true_iff in Hc as [_ Hb].
    rewrite Hb, Hn. reflexivity. }
  rewrite filter_fixed.
  2:{ eapply Forall_impl; [exact Hplain|]. intros c Hc.
      apply andb_true_iff in Hc as [_ Hc]. exact Hc. }
  replace (List.map (fun c => if isChar backslash c then slash else c) (join slash ps))
    with (join slash ps).
  2:{ clear -Hplain. induction Hplain as [|c r Hc Hr IH]; [reflexivity|].
      cbn [List.map]. rewrite <- IH.
      apply andb_true_iff in Hc as [Hc _]. destruct (isChar backslash c); [discriminate|].
      reflexivity. }
  destruct ps as [|p ps']; [contradiction|].
  assert (Hp : clean p) by (inversion H; assumption).
  rewrite trim_fixed.
  - rewrite dropStart_id, dropEnd_id.
    + rewrite split_join; [|discriminate | apply clean_no_slash, H].
      rewrite fold_visit_clean by exact H. reflexivity.
    + apply join_last. eapply Forall_impl; [exact H|].
      intros q [Hq Hpl _ Hl _]. split; [exact Hq|].
      destruct q as [|x q']; [contradiction|]. unfold lastGood in *.
      assert (Hin : Forall (fun c => plain c = true) [List.last (x :: q') 0%N]).
      { constructor; [|constructor].
        destruct (exists_last Hq) as [front [z Hz]]. rewrite Hz in *.
        rewrite last_last. apply Forall_app in Hpl as [_ Hz']. inversion Hz'; assumption. }
      inversion Hin as [|? ? Hc _]; subst. apply plain_inert in Hc. unfold inert in Hc.
      apply andb_true_iff in Hc as [Hc _]. apply andb_true_iff in Hc as [Hc _].
      destruct (isChar slash _); [discriminate | reflexivity].
    + apply join_head; [apply Hp|].
      destruct Hp as [Hq Hpl _ _ _]. destruct p as [|x q']; [contradiction|].
      inversion Hpl as [|? ? Hc _]; subst. apply plain_inert in Hc. unfold inert in Hc.
      apply andb_true_iff in Hc as [Hc _]. apply andb_true_iff in Hc as [Hc _].
      cbn [headGood]. destruct (isChar slash x); [discriminate | reflexivity].
  - apply join_head; apply Hp.
  - apply join_last. eapply Forall_impl; [exact H|].
    intros q [Hq _ _ Hl _]. split; assumption.
Qed.

(** A second application removes the parts that are a single dot and
    nothing else. *)
Lemma sanitizePath_twice s :
  sanitizePath (sanitizePath s) = join slash (List.filter notDot (validPartsOf s)).
Proof.
  rewrite (sanitizePath_join s), sanitizePath_join.
  destruct (validPartsOf s) as [|p ps] eqn:E; [reflexivity|].
  rewrite prepared_join; [reflexivity | discriminate |].
  rewrite <- E. apply validPartsOf_clean.
Qed.

Lemma filter_notDot_fixed ps :
  ~ In (lit ".") ps -> List.filter notDot ps = ps.
Proof.
  induction ps as [|p ps IH]; [reflexivity|].
  intros H. cbn [List.filter]. unfold notDot at 1, eqs.
  rewrite bool_decide_eq_false_2.
  - cbn [negb]. rewrite IH; [reflexivity|]. intros Hin. apply H. right. exact Hin.
  - intros ->. apply H. left. reflexivity.
Qed.

Lemma segments_of_output s :
  validPartsOf s <> [] -> split slash (sanitizePath s) = validPartsOf s.
Proof.
  intros Hne. rewrite sanitizePath_join.
  apply split_join; [exact Hne | apply clean_no_slash, validPartsOf_clean].
Qed.

End PathFacts.

Section PathTheorems.
Import Js Re PathSanitizer PathSpec.

Lemma searchFrom_later r bol a s :
  (forall b, matchAt r b s (fun _ _ => true) = true) -> searchFrom r bol (a ++ s) = true.
Proof.
  intros H. revert bol. induction a as [|c a IH]; intros bol.
  - cbn [app]. destruct s; cbn [searchFrom]; rewrite H; reflexivity.
  - cbn [app searchFrom]. rewrite IH. apply orb_true_r.
Qed.

(** The pattern for a double separator matches at a position exactly
    when two separators stand there; the bound on the turns of [+]
    plays no part. *)
Lemma double_separator_at b s :
  matchAt (Cat (Chr (isChar slash)) (Plus (Chr (isChar slash)))) b s (fun _ _ => true)
  = match s with
    | c1 :: c2 :: _ => isChar slash c1 && isChar slash c2
    | _ => false
    end.
Proof.
  destruct s as [|c1 [|c2 t]]; cbn [matchAt length].
  - reflexivity.
  - apply andb_false_r.
  - rewrite orb_true_r, andb_true_r. reflexivity.
Qed.

Lemma double_separator_found a b :
  test (Cat (Chr (isChar slash)) (Plus (Chr (isChar slash)))) (a ++ lit "//" ++ b) = true.
Proof.
  apply searchFrom_later. intros bol.
  change (lit "//" ++ b) with (slash :: slash :: b).
  cbn [matchAt].
  unfold isChar. rewrite !N.eqb_refl. cbn [andb]. apply orb_true_r.
Qed.

Lemma dangerous_rejected pattern s :
  In pattern dangerousPatterns -> test pattern s = true -> isValidPath s = false.
Proof.
  intros Hin Ht. unfold isValidPath. destruct s as [|c r]; [reflexivity|].
  destruct (500 <? length (c :: r))%nat; [reflexivity|].
  replace (existsb (fun pattern => test pattern (c :: r)) dangerousPatterns) with true;
    [reflexivity|].
  symmetry. apply existsb_exists. exists pattern. split; assumption.
Qed.

(** A path with two adjacent separators is never valid. *)
Lemma double_separator_rejected a b : isValidPath (a ++ lit "//" ++ b) = false.
Proof.
  eapply dangerous_rejected; [|apply double_separator_found].
  do 6 right. left. reflexivity.
Qed.

Lemma visit_dotdot_pops parts part : visit (parts ++ [part]) (lit "..") = parts.
Proof.
  unfold visit. change (eqs (lit "..") [] || eqs (lit "..") (lit ".")) with false.
  change (eqs (lit "..") (lit "..")) with true. cbn iota.
  rewrite length_app, Nat.add_comm. cbn [length Nat.add Nat.ltb Nat.leb].
  apply removelast_last.
Qed.

Lemma output_has_no_dotdot s :
  includes (split slash (sanitizePath s)) (lit "..") = false.
Proof.
  destruct (validPartsOf s) as [|p ps] eqn:E.
  - rewrite sanitizePath_join, E. reflexivity.
  - rewrite segments_of_output by (rewrite E; discriminate).
    pose proof (validPartsOf_clean s) as H. rewrite E in *. clear E.
    unfold includes. induction H as [|q qs Hq Hqs IH]; [reflexivity|].
    cbn [existsb]. rewrite IH, orb_false_r.
    unfold eqs. apply bool_decide_eq_false. intros Heq.
    pose proof (clean_not_dotdot q Hq) as Hn. unfold eqs in Hn.
    apply bool_decide_eq_false in Hn. apply Hn. symmetry. exact Heq.
Qed.

(** C8.  The validator rejects [../../etc/passwd] and [src//app.js]
    (every path with a double separator is rejected), and the normalizer
    maps [a/b/../c] to [a/c]: a [..] part removes exactly the last kept
    part, does nothing when no part is kept, and no part of the output
    is [..]. *)
Theorem path_validator_examples :
  isValidPath (lit "../../etc/passwd") = false
  /\ isValidPath (lit "src//app.js") = false
  /\ sanitizePath (lit "a/b/../c") = lit "a/c"
  /\ (forall a b, isValidPath (a ++ lit "//" ++ b) = false)
  /\ (forall parts part, visit (parts ++ [part]) (lit "..") = parts)
  /\ visit [] (lit "..") = []
  /\ (forall s, includes (split slash (sanitizePath s)) (lit "..") = false).
Proof.
  split; [vm_compute; reflexivity|].
  split; [exact (double_separator_rejected (lit "src") (lit "app.js"))|].
  split; [vm_compute; reflexivity|].
  split; [exact double_separator_rejected|].
  split; [exact visit_dotdot_pops|].
  split; [reflexivity | exact output_has_no_dotdot].
Qed.

(** C10, counterexample.  Three dots are cleaned to a single dot, which
    a second application drops as a current-directory marker. *)
Lemma sanitizePath_three_dots :
  sanitizePath (lit "...") = lit "."
  /\ sanitizePath (sanitizePath (lit "...")) = []
  /\ sanitizePath (sanitizePath (lit "...")) <> sanitizePath (lit "...").
Proof.
  split; [vm_compute; reflexivity|].
  split; [vm_compute; reflexivity|].
  vm_compute. discriminate.
Qed.

(** C10, amended.  sanitizePath is idempotent on every input whose
    sanitized form has no part that is a single dot. *)
Theorem sanitizePath_idempotent_without_dot_part (s : jsstring) :
  ~ In (lit ".") (split slash (sanitizePath s)) ->
  sanitizePath (sanitizePath s) = sanitizePath s.
Proof.
  intros H. rewrite sanitizePath_twice.
  destruct (validPartsOf s) as [|p ps] eqn:E.
  - rewrite sanitizePath_join, E. reflexivity.
  - rewrite segments_of_output in H by (rewrite E; discriminate).
    rewrite (sanitizePath_join s). rewrite E in *.
    rewrite filter_notDot_fixed by exact H. reflexivity.
Qed.

(** The amended C10 at [a/b/../c]. *)
Lemma sanitizePath_idempotent_witness :
  ~ In (lit ".") (split slash (sanitizePath (lit "a/b/../c")))
  /\ sanitizePath (sanitizePath (lit "a/b/../c")) = sanitizePath (lit "a/b/../c").
Proof.
  assert (H : ~ In (lit ".") (split slash (sanitizePath (lit "a/b/../c")))).
  { vm_compute. intros [H | [H | []]]; discriminate H. }
  split; [exact H | exact (sanitizePath_idempotent_without_dot_part _ H)].
Defined.

End PathTheorems.

Section SchedulerOrder.
Import Observe.
Context {A : Type}.
Implicit Types (e x : PQueue.item A) (q : list (PQueue.item A)).

Lemma enqueue_Forall (P : PQueue.item A -> Prop) e q :
  P e -> Forall P q -> Forall P (PQueue.enqueue e q).
Proof.
  intros He H. induction H as [|x q Hx Hq IH]; cbn [PQueue.enqueue].
  - constructor; [exact He | constructor].
  - destruct (PQueue.priority e <=? PQueue.priority x)%Z; constructor; auto.
Qed.

Lemma enqueue_sorted e q :
  StronglySorted before q -> StronglySorted before (PQueue.enqueue e q).
Proof.
  induction 1 as [|x q Hq IH Hx]; cbn [PQueue.enqueue].
  - constructor; constructor.
  - destruct (PQueue.priority e <=? PQueue.priority x)%Z eqn:E.
    + constructor; [exact IH|]. apply enqueue_Forall; [|exact Hx].
      unfold before. lia.
    + constructor; [constructor; assumption|].
      constructor; [unfold before; lia|].
      eapply Forall_impl; [exact Hx|]. unfold before. intros y Hy. lia.
Qed.

Lemma enqueueAll_sorted es q :
  StronglySorted before q -> StronglySorted before (enqueueAll es q).
Proof.
  revert q. induction es as [|e es IH]; intros q Hq; [exact Hq|].
  apply IH, enqueue_sorted, Hq.
Qed.

Lemma filter_none (p : Z) q :
  Forall (fun y => (PQueue.priority y < p)%Z) q -> List.filter (hasPriority p) q = [].
Proof.
  induction 1 as [|y q Hy Hq IH]; [reflexivity|].
  cbn [List.filter]. unfold hasPriority at 1.
  destruct (Z.eqb_spec (PQueue.priority y) p); [lia | exact IH].
Qed.

(** Among the queued jobs of one priority a new job is the last. *)
Lemma enqueue_same_priority p e q :
  StronglySorted before q ->
  List.filter (hasPriority p) (PQueue.enqueue e q)
  = List.filter (hasPriority p) q ++ List.filter (hasPriority p) [e].
Proof.
  induction 1 as [|x q Hq IH Hx]; cbn [PQueue.enqueue]; [reflexivity|].
  destruct (PQueue.priority e <=? PQueue.priority x)%Z eqn:E.
  - cbn [List.filter] in *. rewrite IH. destruct (hasPriority p x); reflexivity.
  - cbn [List.filter]. destruct (hasPriority p e) eqn:He; [|rewrite app_nil_r; reflexivity].
    unfold hasPriority in He. apply Z.eqb_eq in He.
    assert (Hxp : hasPriority p x = false) by (unfold hasPriority; lia).
    rewrite Hxp, filter_none; [reflexivity|].
    eapply Forall_impl; [exact Hx|]. unfold before. intros y Hy. lia.
Qed.

Lemma enqueueAll_same_priority p es q :
  StronglySorted before q ->
  List.filter (hasPriority p) (enqueueAll es q)
  = List.filter (hasPriority p) q ++ List.filter (hasPriority p) es.
Proof.
  revert q. induction es as [|e es IH]; intros q Hq.
  - cbn. rewrite app_nil_r. reflexivity.
  - cbn [enqueueAll fold_left]. change (fold_left _ es ?q0) with (enqueueAll es q0).
    rewrite IH by (apply enqueue_sorted, Hq).
    rewrite enqueue_same_priority by exact Hq.
    rewrite <- app_assoc. f_equal. cbn [List.filter].
    destruct (hasPriority p e); reflexivity.
Qed.

(** A queue that is switched on with enough free slots starts all its
    jobs in the order of the queue. *)
Lemma processQueue_all fuel c t b k q :
  (length q < fuel)%nat -> (k + length q <= c)%nat ->
  PQueue.processQueue fuel (PQueue.Make c t b false k q)
  = (List.map PQueue.run q, PQueue.Make c t b false (k + length q) []).
Proof.
  revert k q. induction fuel as [|f IH]; intros k q Hf Hc; [lia|].
  destruct q as [|x q].
  - cbn. rewrite Nat.add_0_r. reflexivity.
  - cbn [PQueue.processQueue PQueue.tryToStartAnother PQueue.queue PQueue.isPaused
         PQueue.pendingCount PQueue.concurrency PQueue.timeout PQueue.throwOnTimeout negb andb].
    cbn [length] in Hf, Hc.
    destruct (Nat.ltb_spec k c); [|lia].
    rewrite IH by lia. cbn [List.map length]. rewrite Nat.add_succ_r. reflexivity.
Qed.

(** The fuel that [start] gives to the loop is enough: with more fuel
    the loop ends in the same state with the same jobs started. *)
Lemma processQueue_enough fuel extra (t : PQueue.t A) :
  (PQueue.size t < fuel)%nat ->
  PQueue.processQueue (fuel + extra) t = PQueue.processQueue fuel t.
Proof.
  revert t. induction fuel as [|f IH]; intros t Hf; [lia|].
  cbn [Nat.add PQueue.processQueue].
  unfold PQueue.tryToStartAnother, PQueue.size in *.
  destruct (PQueue.queue t) as [|x rest] eqn:E; [reflexivity|].
  destruct (negb (PQueue.isPaused t) && (PQueue.pendingCount t <? PQueue.concurrency t)%nat);
    [|reflexivity].
  rewrite IH; [reflexivity|]. cbn [PQueue.queue length] in *. lia.
Qed.

End SchedulerOrder.

Section SchedulerTheorems.
Import UploadQueue Observe Scenario.

Lemma enqueue_length {A} (e : PQueue.item A) q :
  length (PQueue.enqueue e q) = S (length q).
Proof.
  induction q as [|x q IH]; cbn [PQueue.enqueue]; [reflexivity|].
  destruct (PQueue.priority e <=? PQueue.priority x)%Z; cbn [length]; [rewrite IH|]; reflexivity.
Qed.

Lemma enqueueAll_length {A} (es q : list (PQueue.item A)) :
  length (enqueueAll es q) = length q + length es.
Proof.
  revert q. induction es as [|e es IH]; intros q; cbn [enqueueAll fold_left length]; [lia|].
  change (fold_left _ es ?q0) with (enqueueAll es q0).
  rewrite IH, enqueue_length. lia.
Qed.

(** C2, counterexample.  Three jobs wait for the one slot with the
    priorities 2, 0 and 1; they begin in the order 2, 1, 0. *)
Lemma contenders_begin_2_1_0 :
  begun (emitted contended) = [0]
  /\ prioritiesOf contenders (begun (emitted contendedRun)) = [2; 1; 0]%Z
  /\ prioritiesOf contenders (begun (emitted contendedRun)) <> [0; 1; 2]%Z.
Proof.
  split; [vm_compute; reflexivity|].
  split; [vm_compute; reflexivity|].
  vm_compute. discriminate.
Qed.

(** C2, amended.  The queue is kept in descending order of priority, a
    new job goes behind the queued jobs of its priority, the slot that a
    running job gives back goes to the head of the queue, and a queue
    that is switched on starts its jobs from the head: queued jobs with
    a greater priority value begin earlier, jobs of equal priority
    begin in the order of submission, and jobs queued with the
    priorities 2, 0, 1 begin in the order 2, 1, 0. *)
Theorem queued_jobs_begin_by_descending_priority :
  (forall es : list (PQueue.item Job), StronglySorted before (enqueueAll es []))
  /\ (forall (es : list (PQueue.item Job)) p,
        List.filter (hasPriority p) (enqueueAll es []) = List.filter (hasPriority p) es)
  /\ (forall (x : PQueue.item Job) q k t b,
        PQueue.next (PQueue.Make (S k) t b false (S k) (x :: q))
        = (Some (PQueue.run x), PQueue.Make (S k) t b false (S k) q))
  /\ (forall (es : list (PQueue.item Job)) t b,
        fst (PQueue.start (PQueue.Make (length es) t b true 0 (enqueueAll es [])))
        = List.map PQueue.run (enqueueAll es []))
  /\ prioritiesOf contenders (begun (emitted contendedRun)) = [2; 1; 0]%Z.
Proof.
  split; [intros es; apply enqueueAll_sorted; constructor|].
  split; [intros es p; apply (enqueueAll_same_priority p es []); constructor|].
  split.
  { intros x q k t b. unfold PQueue.next, PQueue.tryToStartAnother.
    cbn [PQueue.queue PQueue.isPaused PQueue.pendingCount PQueue.concurrency Nat.pred negb andb
         PQueue.timeout PQueue.throwOnTimeout].
    rewrite (proj2 (Nat.ltb_lt k (S k))) by lia. reflexivity. }
  split; [|vm_compute; reflexivity].
  intros es t b. unfold PQueue.start. cbn [PQueue.isPaused negb].
  unfold PQueue.size.
  cbn [PQueue.queue PQueue.concurrency PQueue.timeout PQueue.throwOnTimeout PQueue.pendingCount].
  rewrite processQueue_all; [reflexivity | lia |].
  rewrite enqueueAll_length. cbn [length]. lia.
Qed.

End SchedulerTheorems.

Section QueueEffects.
Import UploadQueue Observe Invariant.

Lemma count_app f (a b : list Event) : count f (a ++ b) = count f a + count f b.
Proof. unfold count. rewrite List.filter_app, length_app. reflexivity. Qed.

Lemma count_one f ev : count f [ev] = if f ev then 1 else 0.
Proof. unfold count. cbn [List.filter]. destruct (f ev); reflexivity. Qed.

Lemma count_starts f js :
  (forall j, f (startEvent j) = false) -> count f (List.map startEvent js) = 0.
Proof.
  intros H. induction js as [|j js IH]; [reflexivity|].
  unfold count in *. cbn [List.map List.filter]. rewrite H. exact IH.
Qed.

Lemma starts_begin now j st : starts [j] st (begin now j st).
Proof. constructor; reflexivity. Qed.

Lemma starts_trans js1 js2 st1 st2 st3 :
  starts js1 st1 st2 -> starts js2 st2 st3 -> starts (js1 ++ js2) st1 st3.
Proof.
  intros [A1 A2 A3 A4 A5 A6] [B1 B2 B3 B4 B5 B6]. constructor.
  - rewrite B1, A1, List.map_app, app_assoc. reflexivity.
  - rewrite B2, A2, app_assoc. reflexivity.
  - rewrite B3, A3, List.map_app, app_assoc. reflexivity.
  - congruence.
  - congruence.
  - congruence.
Qed.

Lemma starts_refl st st' :
  emitted st' = emitted st -> bodies st' = bodies st -> slots st' = slots st ->
  timers st' = timers st -> stats st' = stats st -> listeners st' = listeners st ->
  starts [] st st'.
Proof.
  intros. constructor; cbn [List.map]; rewrite ?app_nil_r; assumption.
Qed.

Lemma starts_started now oj st :
  starts (option_list oj) st (started now oj st).
Proof.
  destruct oj as [j|]; cbn [option_list started].
  - apply starts_begin.
  - apply starts_refl; reflexivity.
Qed.

Lemma starts_fold now js st :
  starts js st (fold_left (fun s j => begin now j s) js st).
Proof.
  revert st. induction js as [|j js IH]; intros st.
  - apply starts_refl; reflexivity.
  - cbn [fold_left]. apply (starts_trans [j] js _ _ _ (starts_begin now j st)), IH.
Qed.

Lemma starts_withQueue js q st st' :
  starts js (withQueue q st) st' -> starts js st st'.
Proof. intros [? ? ? ? ? ?]. constructor; assumption. Qed.

Lemma starts_start now st :
  starts (fst (PQueue.start (queue st))) st (start now st).
Proof.
  unfold start. destruct (PQueue.start (queue st)) as [js q].
  cbn [fst]. eapply starts_withQueue, starts_fold.
Qed.

Lemma starts_governed js st st' : starts js st st' -> governed st -> governed st'.
Proof.
  intros [E _ _ T S L] [C H Ls]. constructor.
  - rewrite E, T, !count_app, !count_starts by reflexivity. lia.
  - rewrite S, E, count_app, count_starts by reflexivity. lia.
  - congruence.
Qed.


Lemma governed_frame st st' :
  emitted st' = emitted st -> timers st' = timers st ->
  rateLimitHits (stats st') = rateLimitHits (stats st) ->
  listeners st' = listeners st -> governed st -> governed st'.
Proof.
  intros E T H L [C Hh Ls]. constructor; rewrite ?E, ?T, ?H, ?L; assumption.
Qed.

Lemma governed_emit ev st :
  isExceeded ev = false -> isResumed ev = false -> governed st -> governed (emit ev st).
Proof.
  intros He Hr [C H L]. constructor; cbn [emit emitted timers stats listeners].
  - rewrite !count_app. unfold count at 2 4. cbn [List.filter]. rewrite He, Hr.
    cbn [length]. lia.
  - rewrite count_app. unfold count at 2. cbn [List.filter]. rewrite He. cbn [length]. lia.
  - exact L.
Qed.

Lemma governed_addUploadJob now id fd sid st :
  governed st -> governed (addUploadJob now id fd sid st).
Proof.
  intros G. unfold addUploadJob.
  destruct (PQueue.add _ _ _) as [oj q].
  eapply starts_governed; [apply starts_started|].
  eapply governed_frame; [..|exact G]; reflexivity.
Qed.

Lemma governed_checkRateLimits h st st' :
  checkRateLimits h st = Some st' -> governed st -> governed st'.
Proof.
  unfold checkRateLimits. intros E G.
  destruct (JsNum.lt _ _); [|injection E as <-; exact G].
  destruct (JsNum.isTimeValue _); [|discriminate]. injection E as <-.
  apply governed_emit; [reflexivity..|exact G].
Qed.

(** An exhaustion signal that the handler survives opens a cycle of its
    own; one on which it throws is counted and opens none. *)
Lemma governed_caught now j r st : governed st -> governed (caught now j r st).
Proof.
  intros [C H L]. unfold caught.
  destruct (isRateLimit r).
  - unfold handleRateLimitExceeded. destruct (JsNum.isTimeValue _).
    + apply governed_emit; [reflexivity..|].
      constructor;
        cbn [emit withQueue withTimers withStats emitted timers stats listeners rateLimitHits].
      * rewrite !count_app, length_app. unfold count at 2 4.
        cbn [List.filter isExceeded isResumed length]. lia.
      * rewrite count_app. unfold count at 2. cbn [List.filter isExceeded length]. lia.
      * exact L.
    + constructor; cbn [withStats emitted timers stats listeners rateLimitHits];
        [exact C | lia | exact L].
  - apply governed_emit; [reflexivity..|].
    constructor; [exact C | exact H | exact L].
Qed.

Lemma governed_succeeded now j h st : governed st -> governed (succeeded now j h st).
Proof.
  intros G. unfold succeeded.
  destruct (checkRateLimits h st) as [st'|] eqn:E; [|apply governed_caught, G].
  apply (governed_checkRateLimits _ _ _ E) in G.
  destruct (activeUploads st' !! jobId j).
  - apply governed_emit; [reflexivity..|].
    eapply governed_frame; [..|exact G]; reflexivity.
  - apply governed_caught, G.
Qed.

Lemma governed_withActive m st : governed st -> governed (withActive m st).
Proof. intros G. eapply governed_frame; [..|exact G]; reflexivity. Qed.

Lemma governed_body now j g p st : governed st -> governed (body now j g p st).
Proof.
  intros G. unfold body. apply governed_withActive.
  destruct g as [sha|r].
  - destruct p; [apply governed_succeeded | apply governed_caught]; exact G.
  - destruct (bool_decide _).
    + destruct p; [apply governed_succeeded | apply governed_caught]; exact G.
    + apply governed_caught, G.
Qed.

Lemma governed_release now id st : governed st -> governed (fst (release now id st)).
Proof.
  intros G. unfold release. destruct (bool_decide _); [|exact G].
  destruct (PQueue.next _) as [oj q]. cbn [fst].
  eapply starts_governed; [apply starts_started|].
  eapply governed_frame; [..|exact G]; reflexivity.
Qed.

Lemma governed_settle now id g p st : governed st -> governed (fst (settle now id g p st)).
Proof.
  intros G. unfold settle. destruct (findBody id st) as [j|]; [|exact G].
  apply governed_release, governed_body.
  eapply governed_frame; [..|exact G]; reflexivity.
Qed.

Lemma governed_timeoutJob now id st : governed st -> governed (fst (timeoutJob now id st)).
Proof.
  intros G. unfold timeoutJob. destruct (overdue now id st); [|exact G].
  apply governed_release, G.
Qed.

Lemma length_without (ts : list Timer) i t :
  ts !! i = Some t -> S (length (take i ts ++ drop (S i) ts)) = length ts.
Proof.
  intros H. apply lookup_lt_Some in H.
  rewrite length_app, length_take, length_drop. lia.
Qed.

(** A timer that fires closes one cycle. *)
Lemma governed_fireTimer now i st : governed st -> governed (fireTimer now i st).
Proof.
  intros [C H L]. unfold fireTimer. destruct (timers st !! i) as [t|] eqn:E;
    [|constructor; assumption].
  pose proof (length_without _ _ _ E) as Hlen.
  unfold resume.
  set (st1 := withTimers _ st).
  pose proof (starts_start now st1) as [A1 _ _ A4 A5 A6].
  constructor; cbn [emit emitted timers stats listeners].
  - rewrite A1, A4, !count_app, !count_starts by reflexivity.
    unfold count at 2 4. cbn [List.filter isExceeded isResumed length].
    subst st1. cbn [withTimers emitted timers]. lia.
  - rewrite A5, A1, !count_app, !count_starts by reflexivity.
    unfold count at 2. cbn [List.filter isExceeded length].
    subst st1. cbn [withTimers emitted stats]. lia.
  - rewrite A6. exact L.
Qed.

End QueueEffects.

Section ServerInvariant.
Import UploadQueue Observe Routes Server Invariant.

Lemma deliver_nobody before after cs :
  listeners after = [] -> deliver before after cs = cs.
Proof.
  intros L. unfold deliver. rewrite L.
  induction (drop _ (emitted after)) as [|ev evs IH]; [reflexivity|].
  cbn [fold_left]. exact IH.
Qed.

Lemma sound_withQueue q sys :
  governed q -> sound sys -> sound (Server.withQueue q sys).
Proof.
  intros G [_ S C]. constructor; cbn [Server.withQueue uploadQueue sessions connections].
  - exact G.
  - exact S.
  - rewrite deliver_nobody; [exact C | apply G].
Qed.

Lemma untouched_alter f sid (ss : gmap string Session) :
  (forall se, untouched se -> untouched (f se)) ->
  map_Forall (fun _ se => untouched se) ss ->
  map_Forall (fun _ se => untouched se) (alter f sid ss).
Proof.
  intros Hf H k se. rewrite lookup_alter. case_decide as E.
  - subst. destruct (ss !! k) as [se0|] eqn:E0; [|discriminate].
    cbn. intros [= <-]. apply Hf. exact (H _ _ E0).
  - apply H.
Qed.

Lemma sound_settled now id sys : sound sys -> sound (settled now id sys).
Proof.
  intros [G S C]. constructor; cbn [settled uploadQueue sessions connections];
    [exact G | | exact C].
  generalize (List.filter (fun w : string * list nat => (length (snd w) =? 0)%nat)
                (List.map (fun w => (fst w, List.filter (fun x => negb (Nat.eqb x id)) (snd w)))
                          (watches sys))).
  intros done. revert S. generalize (sessions sys).
  induction done as [|w done IH]; intros ss S; [exact S|].
  cbn [fold_left]. apply IH. unfold allSettled.
  apply untouched_alter; [|exact S]. intros se U. exact U.
Qed.

Lemma governed_addAll now first index sid fs q :
  governed q -> governed (addAll now first index sid fs q).
Proof.
  revert first index q. induction fs as [|f fs IH]; intros first index q G; [exact G|].
  cbn [addAll]. apply IH, governed_addUploadJob, G.
Qed.

Lemma guard_session installation sid (ss : gmap string Session) se :
  guard installation sid ss = inr se -> ss !! sid = Some se.
Proof.
  unfold guard. destruct (noInstallation installation); [discriminate|].
  destruct (ss !! sid) as [se0|]; [|discriminate].
  destruct (bool_decide _); [|discriminate]. intros [= <-]. reflexivity.
Qed.

Lemma sound_execute now installation sid sys :
  sound sys -> sound (snd (execute now installation sid sys)).
Proof.
  intros Hs. unfold execute.
  destruct (guard installation sid (sessions sys)) as [e|se] eqn:Eg; [exact Hs|].
  apply guard_session in Eg.
  pose proof (sound_withQueue
                (addAll now (nextJob sys) 0 sid (files se) (uploadQueue sys)) sys
                (governed_addAll _ _ _ _ _ _ (sound_queue _ Hs)) Hs) as [G S C].
  assert (S' : map_Forall (fun _ se => untouched se)
                 (<[sid := withStatus Uploading se]> (sessions sys))).
  { apply map_Forall_insert_2; [|exact (sound_sessions _ Hs)].
    exact (sound_sessions _ Hs _ _ Eg). }
  cbn [snd]. destruct (length (files se) =? 0)%nat; constructor;
    cbn [uploadQueue sessions connections]; try assumption.
  unfold allSettled. apply untouched_alter; [|exact S']. intros x U. exact U.
Qed.

Lemma sound_start env now req sys :
  sound sys ->
  sound (MkSystem (snd (Routes.start env now req (sessions sys))) (uploadQueue sys) (watches sys)
                  (nextJob sys) (connections sys)).
Proof.
  intros [G S C]. constructor; cbn [uploadQueue sessions connections]; [exact G | | exact C].
  unfold Routes.start.
  repeat match goal with
         | |- context [if ?b then _ else _] => destruct b; cbn [snd]; try exact S
         | |- context [match ?x with _ => _ end] => destruct x; cbn [snd]; try exact S
         end.
  apply map_Forall_insert_2; [|exact S].
  repeat split.
Qed.

Lemma sound_cancel now installation sid sys :
  sound sys ->
  sound (MkSystem (snd (cancel now installation sid (sessions sys))) (uploadQueue sys)
                  (watches sys) (nextJob sys) (connections sys)).
Proof.
  intros [G S C]. constructor; cbn [uploadQueue sessions connections]; [exact G | | exact C].
  unfold cancel. destruct (guard _ _ _) as [e|se] eqn:Eg; [exact S|].
  apply guard_session in Eg. cbn [snd].
  apply map_Forall_insert_2; [exact (S _ _ Eg) | exact S].
Qed.

Lemma sound_boot env : sound (boot env).
Proof.
  constructor; cbn.
  - constructor; reflexivity.
  - apply map_Forall_empty.
  - constructor.
Qed.

Lemma sound_step env sys turn : sound sys -> sound (step env sys turn).
Proof.
  intros Hs. unfold step. destruct turn as [now a]. cbn [fst snd].
  destruct a as [req|inst sid|inst sid|sid|id g p|id|i|c|c].
  - destruct (sessions sys !! uuid req); [exact Hs | apply sound_start, Hs].
  - apply sound_execute, Hs.
  - apply sound_cancel, Hs.
  - destruct Hs as [G S C]. constructor; cbn [setupSSE uploadQueue sessions connections];
      [exact G | exact S |].
    apply Forall_app_2; [exact C|]. constructor; [|constructor].
    unfold idle. cbn [res connSession]. constructor; [left; reflexivity | constructor].
  - pose proof (governed_settle now id g p _ (sound_queue _ Hs)) as G.
    destruct (settle now id g p (uploadQueue sys)) as [q promise]. cbn [fst] in G.
    destruct promise; [apply sound_settled|]; apply sound_withQueue; assumption.
  - pose proof (governed_timeoutJob now id _ (sound_queue _ Hs)) as G.
    destruct (timeoutJob now id (uploadQueue sys)) as [q promise]. cbn [fst] in G.
    destruct promise; [apply sound_settled|]; apply sound_withQueue; assumption.
  - apply sound_withQueue; [apply governed_fireTimer, Hs | exact Hs].
  - destruct Hs as [G S C]. constructor; cbn [keepAlive uploadQueue sessions connections];
      [exact G | exact S |].
    apply Forall_alter; [exact C|]. intros k _ Hk.
    destruct (closed k); [exact Hk|]. unfold idle in *. cbn [res connSession].
    apply Forall_app_2; [exact Hk|]. constructor; [right; reflexivity | constructor].
  - destruct Hs as [G S C]. constructor; cbn [close uploadQueue sessions connections];
      [exact G | exact S |].
    apply Forall_alter; [exact C|]. intros k _ Hk. exact Hk.
Qed.

(** Every state that the server reaches from its start is sound. *)
Lemma sound_run env turns : sound (run env turns (boot env)).
Proof.
  unfold run. generalize (sound_boot env). generalize (boot env).
  induction turns as [|turn turns IH]; intros sys Hs; [exact Hs|].
  cbn [fold_left]. apply IH, sound_step, Hs.
Qed.

End ServerInvariant.

Section GovernorTheorems.
Import JsNum UploadQueue Observe Scenario Invariant.

Lemma tryToStartAnother_paused {A} (q : PQueue.t A) :
  PQueue.isPaused (snd (PQueue.tryToStartAnother q)) = PQueue.isPaused q.
Proof.
  unfold PQueue.tryToStartAnother. destruct (PQueue.queue q); [reflexivity|].
  destruct (_ && _); reflexivity.
Qed.

Lemma processQueue_paused {A} fuel (q : PQueue.t A) :
  PQueue.isPaused (snd (PQueue.processQueue fuel q)) = PQueue.isPaused q.
Proof.
  revert q. induction fuel as [|f IH]; intros q; [reflexivity|].
  cbn [PQueue.processQueue].
  pose proof (tryToStartAnother_paused q) as H.
  destruct (PQueue.tryToStartAnother q) as [[j|] q']; cbn [snd] in *.
  - specialize (IH q'). destruct (PQueue.processQueue f q') as [js q'']. cbn [snd] in *.
    congruence.
  - exact H.
Qed.

(** After [start] the queue is not paused. *)
Lemma start_unpaused {A} (q : PQueue.t A) :
  PQueue.isPaused (snd (PQueue.start q)) = false.
Proof.
  unfold PQueue.start. destruct (PQueue.isPaused q) eqn:E; cbn [negb].
  - rewrite processQueue_paused. reflexivity.
  - exact E.
Qed.

Lemma queue_of_starts now js q st :
  queue (fold_left (fun s j => begin now j s) js (withQueue q st)) = q.
Proof.
  revert st. induction js as [|j js IH]; intros st; [reflexivity|].
  cbn [fold_left]. exact (IH (begin now j st)).
Qed.

Lemma resume_effect now st :
  PQueue.isPaused (queue (resume now st)) = false
  /\ timers (resume now st) = timers st
  /\ exists js, emitted (resume now st)
                = emitted st ++ List.map startEvent js ++ [rateLimitResumed].
Proof.
  unfold resume. pose proof (starts_start now st) as [E _ _ T _ _].
  cbn [emit queue timers emitted]. split; [|split].
  - unfold start. pose proof (start_unpaused (queue st)) as H.
    destruct (PQueue.start (queue st)) as [js q]. cbn [snd] in H.
    rewrite queue_of_starts. exact H.
  - exact T.
  - eexists. rewrite E, <- app_assoc. reflexivity.
Qed.

Lemma fireTimer_at now ts1 t ts2 st :
  fireTimer now (length ts1) (withTimers (ts1 ++ t :: ts2) st)
  = resume now (withTimers (ts1 ++ ts2) st).
Proof.
  unfold fireTimer. cbn [withTimers timers].
  rewrite list_lookup_middle by reflexivity.
  rewrite take_app_length.
  change (ts1 ++ t :: ts2) with (ts1 ++ [t] ++ ts2).
  rewrite app_assoc, drop_app_length'; [reflexivity|].
  rewrite length_app. cbn [length]. lia.
Qed.

(** C3, counterexample.  The second signal finds the queue paused by
    the first and still starts a timer and emits an Exceeded event; two
    Resumed events follow. *)
Lemma second_signal_starts_second_timer :
  PQueue.isPaused (queue firstSignal) = true
  /\ length (timers firstSignal) = 1
  /\ length (timers secondSignal) = 2
  /\ count isExceeded (emitted secondSignal) = 2
  /\ count isResumed (emitted bothFired) = 2.
Proof. vm_compute. repeat split. Qed.

Lemma usableReset_some h t :
  usableReset h = Some t ->
  resetTimeOf h = Num t /\ isTimeValue (resetTimeOf h) = true
  /\ forall now, waitTimeOf now h = Num (Z.max 1000 (t - now + 1000)).
Proof.
  unfold usableReset, waitTimeOf. destruct (resetTimeOf h) as [|z]; [discriminate|].
  cbn [isTimeValue]. destruct (Z.abs z <=? 8640000000000000)%Z; [|discriminate].
  intros [= <-]. repeat split.
Qed.

Lemma usableReset_none h : usableReset h = None -> isTimeValue (resetTimeOf h) = false.
Proof.
  unfold usableReset. destruct (resetTimeOf h) as [|z]; [reflexivity|].
  cbn [isTimeValue]. destruct (Z.abs z <=? 8640000000000000)%Z; [discriminate | reflexivity].
Qed.

(** C3, amended.  Every exhaustion signal whose reset time is usable,
    paused or not, emits one Exceeded event, pauses the queue and starts
    one more resume timer; on a signal whose reset time is not usable
    the handler throws before it does any of this.  Every timer that
    fires resumes the queue and emits one Resumed event.  In every state
    of the server the Exceeded events are as many as the Resumed events
    and the pending timers together, and the exhaustion counter is at
    least their number. *)
Theorem each_signal_has_its_own_cycle :
  (forall now h st,
      match usableReset h with
      | Some t =>
          exists st',
            handleRateLimitExceeded now h st = Some st'
            /\ timers st' = timers st ++ [MkTimer now (Num (Z.max 1000 (t - now + 1000)))]
            /\ count isExceeded (emitted st') = S (count isExceeded (emitted st))
            /\ count isResumed (emitted st') = count isResumed (emitted st)
            /\ PQueue.isPaused (queue st') = true
      | None => handleRateLimitExceeded now h st = None
      end)
  /\ (forall now ts1 t ts2 st,
        timers (fireTimer now (length ts1) (withTimers (ts1 ++ t :: ts2) st)) = ts1 ++ ts2
        /\ count isResumed (emitted (fireTimer now (length ts1) (withTimers (ts1 ++ t :: ts2) st)))
           = S (count isResumed (emitted st))
        /\ count isExceeded (emitted (fireTimer now (length ts1) (withTimers (ts1 ++ t :: ts2) st)))
           = count isExceeded (emitted st)
        /\ PQueue.isPaused
             (queue (fireTimer now (length ts1) (withTimers (ts1 ++ t :: ts2) st))) = false)
  /\ (forall env turns,
        count isExceeded (emitted (Server.uploadQueue (Server.run env turns (Server.boot env))))
        = count isResumed (emitted (Server.uploadQueue (Server.run env turns (Server.boot env))))
          + length (timers (Server.uploadQueue (Server.run env turns (Server.boot env))))
        /\ count isExceeded
             (emitted (Server.uploadQueue (Server.run env turns (Server.boot env))))
           <= rateLimitHits (stats (Server.uploadQueue (Server.run env turns (Server.boot env))))).
Proof.
  split; [|split].
  - intros now h st. destruct (usableReset h) as [t|] eqn:E.
    + destruct (usableReset_some h t E) as (_ & Hv & Hw).
      unfold handleRateLimitExceeded. rewrite Hv, Hw. eexists. split; [reflexivity|].
      cbn [emit withQueue withTimers timers emitted queue PQueue.pause PQueue.isPaused].
      rewrite !count_app, !count_one. cbn [isExceeded isResumed].
      repeat split; lia.
    + unfold handleRateLimitExceeded. rewrite (usableReset_none h E). reflexivity.
  - intros now ts1 t ts2 st. rewrite fireTimer_at.
    destruct (resume_effect now (withTimers (ts1 ++ ts2) st)) as (P & T & js & E).
    rewrite P, T, E. cbn [withTimers timers emitted].
    rewrite !count_app, !count_starts, !count_one by reflexivity.
    cbn [isExceeded isResumed]. repeat split; lia.
  - intros env turns. destruct (sound_run env turns) as [[C H _] _ _]. split; assumption.
Qed.






(** C6, counterexample.  The queue's timeout elapses for the running
    job 0: its promise settles and the queued job 1 begins, but no
    failure is counted and no JobError is emitted; when the requests of
    job 0 are answered later the job is counted as completed. *)
Lemma timed_out_job_is_not_failed :
  snd timedOut = Some Resolved
  /\ failedJobs (stats (fst timedOut)) = 0
  /\ count isJobError (emitted (fst timedOut)) = 0
  /\ begun (emitted (fst timedOut)) = [0; 1]
  /\ completedJobs (stats (fst answeredLate)) = 1
  /\ failedJobs (stats (fst answeredLate)) = 0.
Proof. vm_compute. repeat split. Qed.

Lemma release_eq now id st :
  release now id st
  = if bool_decide (id ∈ slots st) then
      (started now (fst (PQueue.next (queue st)))
               (withQueue (snd (PQueue.next (queue st)))
                          (withSlots (List.filter (fun x => negb (Nat.eqb x id)) (slots st)) st)),
       true)
    else (st, false).
Proof.
  unfold release. destruct (bool_decide _); [|reflexivity].
  cbn [withSlots queue]. destruct (PQueue.next (queue st)). reflexivity.
Qed.

Lemma next_keeps_pause {A} (q : PQueue.t A) :
  PQueue.isPaused (snd (PQueue.next q)) = PQueue.isPaused q.
Proof. unfold PQueue.next. rewrite tryToStartAnother_paused. reflexivity. Qed.

Lemma tryToStartAnother_options {A} (q : PQueue.t A) :
  PQueue.timeout (snd (PQueue.tryToStartAnother q)) = PQueue.timeout q
  /\ PQueue.throwOnTimeout (snd (PQueue.tryToStartAnother q)) = PQueue.throwOnTimeout q.
Proof.
  unfold PQueue.tryToStartAnother. destruct (PQueue.queue q); [split; reflexivity|].
  destruct (_ && _); split; reflexivity.
Qed.

Lemma processQueue_options {A} fuel (q : PQueue.t A) :
  PQueue.timeout (snd (PQueue.processQueue fuel q)) = PQueue.timeout q
  /\ PQueue.throwOnTimeout (snd (PQueue.processQueue fuel q)) = PQueue.throwOnTimeout q.
Proof.
  revert q. induction fuel as [|f IH]; intros q; [split; reflexivity|].
  cbn [PQueue.processQueue].
  pose proof (tryToStartAnother_options q) as [H1 H2].
  destruct (PQueue.tryToStartAnother q) as [[j|] q']; cbn [snd] in *.
  - specialize (IH q'). destruct (PQueue.processQueue f q') as [js q'']. cbn [snd] in *.
    destruct IH as [I1 I2]. split; congruence.
  - split; assumption.
Qed.

Lemma options_started now oj st : options (started now oj st) = options st.
Proof. destruct oj; reflexivity. Qed.

Lemma options_try now st :
  options (started now (fst (PQueue.tryToStartAnother (queue st)))
                   (withQueue (snd (PQueue.tryToStartAnother (queue st))) st))
  = options st.
Proof.
  rewrite options_started. unfold options. cbn [withQueue queue].
  destruct (tryToStartAnother_options (queue st)) as [-> ->]. reflexivity.
Qed.

Lemma options_addUploadJob now id fd sid st :
  options (addUploadJob now id fd sid st) = options st.
Proof.
  unfold addUploadJob, PQueue.add. cbn [withStats queue].
  match goal with
  | |- context [PQueue.tryToStartAnother ?q] =>
      pose proof (tryToStartAnother_options q) as [H1 H2];
      destruct (PQueue.tryToStartAnother q) as [oj q']
  end.
  rewrite options_started. unfold options. cbn [withQueue queue snd] in *.
  rewrite H1, H2. reflexivity.
Qed.

Lemma options_caught now j r st : options (caught now j r st) = options st.
Proof.
  unfold caught. destruct (isRateLimit r); [|reflexivity].
  unfold handleRateLimitExceeded. destruct (isTimeValue _); reflexivity.
Qed.

Lemma options_succeeded now j h st : options (succeeded now j h st) = options st.
Proof.
  unfold succeeded, checkRateLimits.
  destruct (lt _ _); [destruct (isTimeValue _)|];
    try apply options_caught;
    match goal with
    | |- context [activeUploads ?s !! ?k] => destruct (activeUploads s !! k)
    end; try reflexivity; rewrite options_caught; reflexivity.
Qed.

Lemma options_body now j g p st : options (body now j g p st) = options st.
Proof.
  unfold body.
  assert (H : forall s, options (withActive (delete (jobId j) (activeUploads s)) s) = options s)
    by reflexivity.
  rewrite H. destruct g as [sha|r].
  - destruct p; [apply options_succeeded | apply options_caught].
  - destruct (bool_decide _); [|apply options_caught].
    destruct p; [apply options_succeeded | apply options_caught].
Qed.

Lemma options_release now id st : options (fst (release now id st)) = options st.
Proof.
  rewrite release_eq. destruct (bool_decide _); [|reflexivity]. cbn [fst].
  rewrite options_started. unfold options, PQueue.next. cbn [withQueue withSlots queue].
  match goal with
  | |- context [PQueue.tryToStartAnother ?q] =>
      destruct (tryToStartAnother_options q) as [-> ->]
  end.
  reflexivity.
Qed.

Lemma options_settle now id g p st : options (fst (settle now id g p st)) = options st.
Proof.
  unfold settle. destruct (findBody id st); [|reflexivity].
  rewrite options_release, options_body. reflexivity.
Qed.

Lemma options_timeoutJob now id st : options (fst (timeoutJob now id st)) = options st.
Proof.
  unfold timeoutJob. destruct (overdue now id st); [|reflexivity]. apply options_release.
Qed.

Lemma options_fireTimer now i st : options (fireTimer now i st) = options st.
Proof.
  unfold fireTimer. destruct (timers st !! i); [|reflexivity].
  unfold resume, start, PQueue.start. cbn [withTimers queue].
  destruct (negb (PQueue.isPaused (queue st))).
  - reflexivity.
  - match goal with
    | |- context [PQueue.processQueue ?f ?q] =>
        pose proof (processQueue_options f q) as [H1 H2];
        destruct (PQueue.processQueue f q) as [js q']
    end.
    unfold options. cbn [emit queue]. rewrite queue_of_starts. cbn [snd] in *.
    rewrite H1, H2. reflexivity.
Qed.

Lemma options_addAll now sid fs : forall first index q,
  options (Routes.addAll now first index sid fs q) = options q.
Proof.
  induction fs as [|f fs IH]; intros first index q; [reflexivity|].
  cbn [Routes.addAll]. rewrite IH. apply options_addUploadJob.
Qed.

Lemma options_step env sys turn :
  options (Server.uploadQueue (Server.step env sys turn)) = options (Server.uploadQueue sys).
Proof.
  unfold Server.step. destruct turn as [now a]. cbn [fst snd].
  destruct a as [req|inst sid|inst sid|sid|id g p|id|i|c|c]; try reflexivity.
  - destruct (Server.sessions sys !! Routes.uuid req); reflexivity.
  - unfold Server.execute. destruct (Routes.guard _ _ _); [reflexivity|]. cbn [snd].
    destruct (_ =? _)%nat; cbn [Server.uploadQueue Server.withQueue]; apply options_addAll.
  - pose proof (options_settle now id g p (Server.uploadQueue sys)) as H.
    destruct (settle now id g p (Server.uploadQueue sys)) as [q promise]. cbn [fst] in H.
    destruct promise; exact H.
  - pose proof (options_timeoutJob now id (Server.uploadQueue sys)) as H.
    destruct (timeoutJob now id (Server.uploadQueue sys)) as [q promise]. cbn [fst] in H.
    destruct promise; exact H.
  - cbn [Server.uploadQueue Server.withQueue]. apply options_fireTimer.
Qed.

Lemma options_run env turns :
  options (Server.uploadQueue (Server.run env turns (Server.boot env))) = (300000%Z, false).
Proof.
  unfold Server.run.
  assert (H : options (Server.uploadQueue (Server.boot env)) = (300000%Z, false))
    by reflexivity.
  revert H. generalize (Server.boot env).
  induction turns as [|turn turns IH]; intros sys Hs; [exact Hs|].
  cbn [fold_left]. apply IH. rewrite options_step. exact Hs.
Qed.

Lemma nextUp_next (q : PQueue.t Job) :
  option_list (fst (PQueue.next q)) = nextUp q
  /\ PQueue.queue (snd (PQueue.next q)) = drop (length (nextUp q)) (PQueue.queue q)
  /\ PQueue.pendingCount (snd (PQueue.next q))
     = Nat.pred (PQueue.pendingCount q) + length (nextUp q).
Proof.
  unfold PQueue.next, PQueue.tryToStartAnother, nextUp.
  cbn [PQueue.queue PQueue.isPaused PQueue.pendingCount PQueue.concurrency].
  destruct (PQueue.queue q) as [|x rest]; cbn [fst snd option_list length drop PQueue.queue
                                               PQueue.pendingCount];
    [repeat split; lia|].
  destruct (_ && _); cbn [fst snd option_list length drop PQueue.queue PQueue.pendingCount];
    repeat split; lia.
Qed.

(** C6, amended.  The queue's timeout elapses for a job only while the
    job holds a slot and once the timeout of the queue has passed since
    the job began.  Then the promise of the submission settles, resolved
    with no value as the queue is built with throwOnTimeout false, and
    the slot goes to the first queued job, which begins, unless the
    queue is paused.  The job is not marked failed: the counters, the
    timers and the pause flag are unchanged, no event but the jobStart
    of the job that begins is emitted, and every suspended job body, the
    one of the job itself too, stays suspended.  In every state of the
    server the timeout is 300 000 ms and a timeout resolves. *)
Theorem queue_timeout_frees_slot_without_failure (now : Z) (id : nat) (st : State) :
  (if overdue now id st then
     snd (timeoutJob now id st) = Some (timeoutSettlement (queue st))
     /\ slots (fst (timeoutJob now id st))
        = List.filter (fun x => negb (Nat.eqb x id)) (slots st)
          ++ List.map jobId (nextUp (queue st))
     /\ bodies (fst (timeoutJob now id st)) = bodies st ++ nextUp (queue st)
     /\ emitted (fst (timeoutJob now id st))
        = emitted st ++ List.map startEvent (nextUp (queue st))
     /\ PQueue.queue (queue (fst (timeoutJob now id st)))
        = drop (length (nextUp (queue st))) (PQueue.queue (queue st))
     /\ PQueue.pendingCount (queue (fst (timeoutJob now id st)))
        = Nat.pred (PQueue.pendingCount (queue st)) + length (nextUp (queue st))
     /\ stats (fst (timeoutJob now id st)) = stats st
     /\ timers (fst (timeoutJob now id st)) = timers st
     /\ PQueue.isPaused (queue (fst (timeoutJob now id st))) = PQueue.isPaused (queue st)
   else timeoutJob now id st = (st, None))
  /\ (overdue now id st = true <->
      id ∈ slots st
      /\ forall active, activeUploads st !! id = Some active ->
                        (startTime active + PQueue.timeout (queue st) <= now)%Z)
  /\ forall env turns,
       PQueue.timeout (queue (Server.uploadQueue (Server.run env turns (Server.boot env))))
       = 300000%Z
       /\ timeoutSettlement
            (queue (Server.uploadQueue (Server.run env turns (Server.boot env))))
          = Resolved.
Proof.
  split; [|split].
  - unfold timeoutJob. destruct (overdue now id st) eqn:O; [|reflexivity].
    apply andb_true_iff in O as [O _]. cbn [fst snd].
    rewrite release_eq, O. cbn [fst].
    destruct (nextUp_next (queue st)) as (N1 & N2 & N3).
    pose proof (next_keeps_pause (queue st)) as Hp.
    set (st1 := withQueue (snd (PQueue.next (queue st)))
                          (withSlots (List.filter (fun x => negb (Nat.eqb x id)) (slots st)) st)).
    pose proof (starts_started now (fst (PQueue.next (queue st))) st1) as [E B S T V _].
    assert (Hq : queue (started now (fst (PQueue.next (queue st))) st1)
                 = snd (PQueue.next (queue st)))
      by (destruct (fst (PQueue.next (queue st))); reflexivity).
    rewrite S, B, E, T, V, Hq, N1, N2, N3, Hp. subst st1.
    cbn [withQueue withSlots stats timers emitted bodies slots].
    repeat split.
  - unfold overdue. rewrite andb_true_iff, bool_decide_eq_true. split.
    + intros [Hin Ht]. split; [exact Hin|]. intros active Ha. rewrite Ha in Ht.
      apply Z.leb_le, Ht.
    + intros [Hin Ht]. split; [exact Hin|].
      destruct (activeUploads st !! id) as [active|]; [|reflexivity].
      apply Z.leb_le, Ht. reflexivity.
  - intros env turns. pose proof (options_run env turns) as H. unfold options in H.
    injection H as H1 H2. unfold timeoutSettlement. rewrite H2. split; [exact H1 | reflexivity].
Qed.

End GovernorTheorems.

Section ServerTheorems.
Import Js FileScanner Routes Server Observe ServerScenario Invariant.

(** C1.  In every state of the server, every batch has completed +
    failed <= total, because no step writes the two counters; a batch
    whose only job has succeeded therefore has the status completed
    with completed + failed = 0 and total = 1, while the queue's own
    counter has counted the job. *)
Theorem batch_counters_are_never_written :
  (forall env turns,
      map_Forall (fun _ se => completed (stats se) + failed (stats se) <= total (stats se)
                              /\ completed (stats se) = 0 /\ failed (stats se) = 0)
                 (sessions (run env turns (boot env))))
  /\ status <$> sessions completedRun !! "s1"%string = Some Completed
  /\ stats <$> sessions completedRun !! "s1"%string = Some (MkSessionStats 1 0 0)
  /\ UploadQueue.completedJobs (UploadQueue.stats (uploadQueue completedRun)) = 1.
Proof.
  split.
  - intros env turns. destruct (sound_run env turns) as [_ S _].
    eapply map_Forall_impl; [exact S|]. intros sid se [Ht [Hc Hf]].
    cbn beta. rewrite Hc, Hf. repeat split. lia.
  - vm_compute. repeat split.
Qed.

(** C4.  /cancel leaves the shared queue and the pending completion
    callbacks as they are.  Two jobs are active and five are queued
    when the batch is cancelled: the status is cancelled and the
    counters of the batch stay as they were, but when an active job is
    answered the queued job 6 of the batch begins, the other four
    follow, and when the last job has settled the status is overwritten
    with completed. *)
Theorem cancelled_batch_keeps_uploading :
  (forall env now installation sessionId sys,
      uploadQueue (step env sys (now, PostCancel installation sessionId)) = uploadQueue sys
      /\ watches (step env sys (now, PostCancel installation sessionId)) = watches sys)
  /\ status <$> sessions cancelledRun !! "s1"%string = Some Cancelled
  /\ begun (UploadQueue.emitted (uploadQueue cancelledRun)) = [0; 1]
  /\ PQueue.size (UploadQueue.queue (uploadQueue cancelledRun)) = 5
  /\ begun (UploadQueue.emitted (uploadQueue afterCancel)) = [0; 1; 6]
  /\ begun (UploadQueue.emitted (uploadQueue drained)) = [0; 1; 6; 5; 4; 3; 2]
  /\ stats <$> sessions drained !! "s1"%string = Some (MkSessionStats 7 0 0)
  /\ status <$> sessions drained !! "s1"%string = Some Completed.
Proof.
  split; [intros; split; reflexivity|].
  vm_compute. repeat split.
Qed.

(** /start refuses a request without owner or repository name and
    stores nothing. *)
Lemma start_requires_owner_and_repo env now req ss :
  noInstallation (reqInstallation req) = false ->
  from_option fileFilter true (reqFile req) = true ->
  from_option (fun file => (fileSizeLimit env <=? Routes.size file)%Z) false (reqFile req)
  = false ->
  missing (reqOwner req) || missing (reqRepo req) = true ->
  Routes.start env now req ss
  = (StartError 400 "Owner and repository name are required", ss).
Proof.
  intros H1 H2 H3 H4. unfold Routes.start. rewrite H1, H2, H3, H4. reflexivity.
Qed.

(** /start stores a session only in its last branch, with at least one
    valid file. *)
Lemma start_stores_valid_files env now req ss sid n bytes :
  fst (Routes.start env now req ss) = StartSuccess sid n bytes -> n <> 0.
Proof.
  unfold Routes.start.
  repeat match goal with
         | |- context [if ?b then _ else _] => destruct b eqn:?; cbn [fst]; try discriminate
         | |- context [match ?x with _ => _ end] => destruct x eqn:?; cbn [fst]; try discriminate
         end.
  intros [= _ <- _]. intros E. rewrite E in *. discriminate.
Qed.

Lemma filter_all {A} (f : A -> bool) (l : list A) :
  forallb f l = true -> List.filter f l = l.
Proof.
  induction l as [|x l IH]; [reflexivity|].
  cbn [forallb List.filter]. intros H. apply andb_true_iff in H as [Hx Hl].
  rewrite Hx, IH by exact Hl. reflexivity.
Qed.

(** /start stores a session for every non-empty list of valid files,
    however long the list and however large the files. *)
Lemma start_accepts_any_valid_list now files sessionId ss :
  files <> [] ->
  forallb (fun file => PathSanitizer.isValidPath (FileScanner.path file)) files = true ->
  fst (Routes.start Env.unset now (uploadOf files sessionId) ss)
  = StartSuccess sessionId (length files) (totalSize files).
Proof.
  intros Hne Hv. unfold Routes.start, uploadOf.
  cbn [reqInstallation reqFile reqOwner reqRepo reqBranch tokenAnswer extractAnswer uuid
       noInstallation from_option].
  change (negb (fileFilter archive)) with false.
  change (fileSizeLimit Env.unset <=? Routes.size archive)%Z with false.
  change (missing (Some "o"%string) || missing (Some "r"%string)) with false.
  change (endsWith ".zip" (originalname archive) || includesStr "zip" (mimetype archive))
    with true.
  cbn iota. rewrite (filter_all _ _ Hv).
  destruct files as [|f fs]; [contradiction|]. reflexivity.
Qed.

(** C5.  /start accepts an archive of 1001 valid files and an archive
    of two files of 60 MiB each, and stores a session for each, although
    [validateFileList] throws for both lists with its default maxima:
    the route never calls it. *)
Theorem start_does_not_limit_the_file_list :
  validateFileList manyFiles defaultMaxFiles defaultMaxTotalSize
  = Thrown (TooManyFiles defaultMaxFiles)
  /\ fst (Routes.start Env.unset 10 (uploadOf manyFiles "s1") ∅) = StartSuccess "s1" 1001 10010
  /\ (total ∘ stats) <$> snd (Routes.start Env.unset 10 (uploadOf manyFiles "s1") ∅) !! "s1"%string
     = Some 1001
  /\ validateFileList largeFiles defaultMaxFiles defaultMaxTotalSize
     = Thrown (TotalSizeExceedsLimit defaultMaxTotalSize)
  /\ fst (Routes.start Env.unset 10 (uploadOf largeFiles "s2") ∅) = StartSuccess "s2" 2 125829120
  /\ (total ∘ stats) <$> snd (Routes.start Env.unset 10 (uploadOf largeFiles "s2") ∅) !! "s2"%string
     = Some 2.
Proof. vm_compute. repeat split. Qed.

(** The handlers filter the job events by session and pass the
    rate-limit events on. *)
Lemma eventHandlers_filter sessionId ev :
  eventHandlers sessionId ev
  = match ev with
    | UploadQueue.jobStart _ sid _
    | UploadQueue.jobComplete _ sid _
    | UploadQueue.jobError _ sid _ _ => if bool_decide (sid = sessionId) then [sse ev] else []
    | _ => [sse ev]
    end.
Proof. destruct ev; reflexivity. Qed.

(** C9.  The handlers of a subscriber are registered on a queue of the
    subscriber's own, not on the queue that runs the jobs: in every
    state of the server nothing listens to the shared queue and a
    subscriber has received its connected message and pings only.  A
    subscriber of s1 gets neither the events of the job of s1 nor the
    Exceeded and Resumed events that the shared queue emits. *)
Theorem subscribers_receive_no_event :
  (forall env turns,
      UploadQueue.listeners (uploadQueue (run env turns (boot env))) = []
      /\ Forall idle (connections (run env turns (boot env))))
  /\ count isExceeded (UploadQueue.emitted (uploadQueue subscribedRun)) = 1
  /\ count isResumed (UploadQueue.emitted (uploadQueue subscribedRun)) = 1
  /\ count isJobStart (UploadQueue.emitted (uploadQueue subscribedRun)) = 1
  /\ res <$> connections subscribedRun !! 0 = Some [connected "s1"]
  /\ (UploadQueue.listeners ∘ own) <$> connections subscribedRun !! 0 = Some [0].
Proof.
  split.
  - intros env turns. destruct (sound_run env turns) as [[_ _ L] _ C]. split; assumption.
  - vm_compute. repeat split.
Qed.

End ServerTheorems.

(** * Further properties *)

Section PathToolsFacts.
Import Js Re PathSanitizer PathSpec PathTools.

Lemma filter_notDot_clean ps : Forall clean ps -> Forall clean (List.filter notDot ps).
Proof.
  induction 1 as [|p ps Hp Hps IH]; [constructor|].
  cbn [List.filter]. destruct (notDot p); [constructor|]; assumption.
Qed.

Lemma filter_notDot_idem ps :
  List.filter notDot (List.filter notDot ps) = List.filter notDot ps.
Proof.
  induction ps as [|p ps IH]; [reflexivity|].
  cbn [List.filter]. destruct (notDot p) eqn:E; [|exact IH].
  cbn [List.filter]. rewrite E, IH. reflexivity.
Qed.

(** X2.  Two applications of sanitizePath reach a fixed point: the
    second removes the parts that are a single dot, and a third changes
    nothing. *)
Theorem sanitizePath_stable_after_two (s : jsstring) :
  sanitizePath (sanitizePath (sanitizePath s)) = sanitizePath (sanitizePath s).
Proof.
  rewrite (sanitizePath_twice s).
  set (ps := List.filter notDot (validPartsOf s)).
  assert (Hc : Forall clean ps) by apply filter_notDot_clean, validPartsOf_clean.
  rewrite sanitizePath_join.
  destruct ps as [|p ps'] eqn:E; [reflexivity|].
  rewrite prepared_join; [|discriminate | exact Hc].
  rewrite <- E. subst ps. rewrite filter_notDot_idem. reflexivity.
Qed.

Lemma clean_chars p : clean p -> forallb (fun c => negb (removed c)) p = true.
Proof.
  intros [_ Hp _ _ _]. apply forallb_forall. intros c Hc.
  rewrite Forall_forall in Hp. specialize (Hp c). 
  assert (Hpl : plain c = true) by (apply Hp, list_elem_of_In, Hc).
  unfold plain in Hpl. unfold removed.
  destruct (isChar slash c), (isChar backslash c), (isChar NUL c), (isInvalidChar c);
    cbn in *; congruence.
Qed.

Lemma join_forallb (f : N -> bool) sep ps :
  f sep = true -> Forall (fun p => forallb f p = true) ps -> forallb f (join sep ps) = true.
Proof.
  intros Hs H. induction H as [|p ps Hp Hps IH]; [reflexivity|].
  destruct ps as [|q ps']; [exact Hp|].
  rewrite join_cons, forallb_app. cbn [forallb]. rewrite Hp, Hs, IH. reflexivity.
Qed.

(** X1.  What sanitizePath returns holds no NUL, no backslash and none
    of the characters it strips from the parts; it is empty or consists of
    non-empty parts, so it neither starts nor ends with a separator and
    has no two separators in a row; and no part begins or ends with
    white space or holds two dots in a row. *)
Theorem sanitizePath_output_is_well_formed (s : jsstring) :
  forallb (fun c => negb (removed c)) (sanitizePath s) = true
  /\ (sanitizePath s = []
      \/ Forall (fun part => part <> [] /\ trim part = part /\ collapseDots part = part)
                (split slash (sanitizePath s))).
Proof.
  pose proof (validPartsOf_clean s) as Hc. split.
  - rewrite sanitizePath_join. apply join_forallb; [reflexivity|].
    eapply Forall_impl; [exact Hc|]. intros p Hp. apply clean_chars, Hp.
  - destruct (validPartsOf s) as [|p ps] eqn:E.
    + left. rewrite sanitizePath_join, E. reflexivity.
    + right. rewrite segments_of_output by (rewrite E; discriminate). rewrite E.
      eapply Forall_impl; [exact Hc|]. intros q [Hne _ Hh Hl Hd].
      repeat split; [exact Hne | apply trim_fixed; assumption | exact Hd].
Qed.


Lemma lastIndexOf_none sep p :
  Forall (fun c => N.eqb c sep = false) p -> lastIndexOf sep p = None.
Proof.
  induction 1 as [|c r Hc Hr IH]; [reflexivity|].
  cbn [lastIndexOf]. rewrite IH, Hc. reflexivity.
Qed.

Lemma lastIndexOf_app sep p r :
  lastIndexOf sep (p ++ sep :: r)
  = match lastIndexOf sep r with
    | Some i => Some (length p + S i)
    | None => Some (length p)
    end.
Proof.
  induction p as [|c p IH].
  - cbn [app lastIndexOf length Nat.add]. rewrite N.eqb_refl.
    destruct (lastIndexOf sep r); reflexivity.
  - cbn [app lastIndexOf length]. rewrite IH.
    destruct (lastIndexOf sep r); reflexivity.
Qed.

Lemma take_app_plus (p r : list N) i : take (length p + i) (p ++ r) = p ++ take i r.
Proof.
  induction p as [|c p IH]; [reflexivity|]. cbn [length Nat.add app take]. rewrite IH.
  reflexivity.
Qed.

(** Cutting a joined path at its last separator removes the last part. *)
Lemma cut_at_last_separator sep ps :
  Forall (Forall (fun c => N.eqb c sep = false)) ps ->
  match lastIndexOf sep (join sep ps) with
  | None => []
  | Some i => take i (join sep ps)
  end = join sep (removelast ps)
  /\ (lastIndexOf sep (join sep ps) = None <-> (length ps <= 1)%nat).
Proof.
  induction 1 as [|p ps Hp Hps [IH1 IH2]]; [split; [reflexivity | split; [cbn; lia | reflexivity]]|].
  destruct ps as [|q ps'].
  - cbn [join removelast]. rewrite (lastIndexOf_none _ _ Hp).
    split; [reflexivity | split; [cbn; lia | reflexivity]].
  - rewrite join_cons, lastIndexOf_app.
    change (removelast (p :: q :: ps')) with (p :: removelast (q :: ps')).
    destruct (lastIndexOf sep (join sep (q :: ps'))) as [i|] eqn:E.
    + split; [|split; [discriminate | cbn [length]; lia]].
      change (S i) with (1 + i). rewrite take_app_plus. cbn [Nat.add take].
      rewrite IH1.
      destruct (removelast (q :: ps')) as [|x xs] eqn:Er; [|reflexivity].
      exfalso. destruct ps' as [|y ys]; [|cbn in Er; destruct ys; discriminate].
      assert (Hn : (length [q] <= 1)%nat) by (cbn; lia).
      apply IH2 in Hn. congruence.
    + split; [|split; [discriminate | cbn [length]; lia]].
      rewrite <- (Nat.add_0_r (length p)), take_app_plus. cbn [take].
      assert (Hl : (length (q :: ps') <= 1)%nat) by (apply IH2; reflexivity).
      destruct ps' as [|y ys]; [|cbn in Hl; lia].
      cbn [removelast join]. apply app_nil_r.
Qed.

Lemma join_removelast sep (ps : list (list N)) :
  (2 <= length ps)%nat ->
  join sep ps = join sep (removelast ps) ++ sep :: List.last ps [].
Proof.
  induction ps as [|p ps IH]; [cbn; lia|].
  destruct ps as [|q ps']; [cbn; lia|]. intros _.
  destruct ps' as [|r ps''].
  - reflexivity.
  - change (removelast (p :: q :: r :: ps'')) with (p :: removelast (q :: r :: ps'')).
    change (List.last (p :: q :: r :: ps'') []) with (List.last (q :: r :: ps'') []).
    rewrite join_cons, IH by (cbn; lia).
    change (removelast (q :: r :: ps'')) with (q :: removelast (r :: ps'')).
    rewrite join_cons. rewrite <- !app_assoc. reflexivity.
Qed.

(** X3.  getParentDirectory returns the sanitized path without its
    last part: empty when the sanitized path has no separator, and
    otherwise the sanitized path is the parent, a separator and the last
    part. *)
Theorem getParentDirectory_drops_last_part (s : jsstring) :
  getParentDirectory s = join slash (removelast (split slash (sanitizePath s)))
  /\ ((lastIndexOf slash (sanitizePath s) = None /\ getParentDirectory s = [])
      \/ sanitizePath s
         = getParentDirectory s ++ slash :: List.last (split slash (sanitizePath s)) []).
Proof.
  unfold getParentDirectory.
  pose proof (validPartsOf_clean s) as Hc.
  pose proof (cut_at_last_separator slash _ (clean_no_slash _ Hc)) as [H1 H2].
  destruct (validPartsOf s) as [|p ps] eqn:E.
  - rewrite sanitizePath_join, E. split; [reflexivity | left; split; reflexivity].
  - rewrite segments_of_output by (rewrite E; discriminate).
    rewrite sanitizePath_join, E in *. split; [exact H1|].
    destruct (lastIndexOf slash (join slash (p :: ps))) as [i|] eqn:El.
    + right. rewrite H1. apply join_removelast.
      destruct ps as [|q ps']; [|cbn; lia].
      assert (Hn : (length [p] <= 1)%nat) by (cbn; lia). apply H2 in Hn. discriminate.
    + left. split; reflexivity.
Qed.

End PathToolsFacts.

Section ValidPathFacts.
Import Js Re PathSanitizer PathSpec PathTools.

Lemma split_nonempty sep s : split sep s <> [].
Proof.
  destruct s as [|c r]; [discriminate|]. cbn [split].
  destruct (N.eqb c sep); [discriminate|]. destruct (split sep r); discriminate.
Qed.

Lemma join_split sep s : join sep (split sep s) = s.
Proof.
  induction s as [|c r IH]; [reflexivity|].
  cbn [split]. pose proof (split_nonempty sep r) as Hne.
  destruct (split sep r) as [|p ps] eqn:E; [contradiction|].
  destruct (N.eqb_spec c sep) as [->|Hc].
  - rewrite join_cons, IH. reflexivity.
  - destruct ps as [|q ps'].
    + cbn [join] in *. rewrite IH. reflexivity.
    + rewrite join_cons in *. cbn [app]. rewrite IH. reflexivity.
Qed.

(** Where a part of a joined path stands: at the start or behind a
    separator, and at the end or before a separator. *)
Lemma join_In sep ps q :
  In q ps ->
  exists a b, join sep ps = a ++ q ++ b
              /\ (a = [] \/ exists a', a = a' ++ [sep])
              /\ (b = [] \/ exists b', b = sep :: b').
Proof.
  induction ps as [|p ps IH]; [intros []|].
  intros [->|Hin].
  - exists [], (match ps with [] => [] | _ => sep :: join sep ps end).
    split; [|split; [left; reflexivity|]].
    + destruct ps; [cbn [join app]; rewrite app_nil_r; reflexivity | reflexivity].
    + destruct ps; [left | right; eexists]; reflexivity.
  - destruct ps as [|p2 ps']; [destruct Hin|].
    destruct (IH Hin) as (a & b & E & Ha & Hb).
    exists (p ++ sep :: a), b. split; [|split; [right | exact Hb]].
    + rewrite join_cons, E, <- app_assoc. reflexivity.
    + destruct Ha as [->|[a' ->]].
      * exists p. reflexivity.
      * exists (p ++ sep :: a'). rewrite <- app_assoc. reflexivity.
Qed.

Lemma part_position sep s q :
  In q (split sep s) ->
  exists a b, s = a ++ q ++ b
              /\ (a = [] \/ exists a', a = a' ++ [sep])
              /\ (b = [] \/ exists b', b = sep :: b').
Proof.
  intros Hin. destruct (join_In sep _ _ Hin) as (a & b & E & H).
  rewrite join_split in E. exists a, b. split; [exact E | exact H].
Qed.

(** A one-character pattern is found exactly when a character of the
    class occurs. *)
Lemma test_Chr f s : test (Chr f) s = existsb f s.
Proof.
  unfold test. generalize true.
  induction s as [|c r IH]; intros bol; [reflexivity|].
  cbn [searchFrom matchAt existsb]. rewrite andb_true_r, IH. reflexivity.
Qed.

Lemma valid_no_pattern p pattern :
  isValidPath p = true -> In pattern dangerousPatterns -> test pattern p = false.
Proof.
  intros Hv Hin. destruct (test pattern p) eqn:E; [|reflexivity].
  rewrite (dangerous_rejected pattern p Hin E) in Hv. discriminate.
Qed.

Lemma found_at r a s :
  (forall b, matchAt r b s (fun _ _ => true) = true) -> test r (a ++ s) = true.
Proof. apply searchFrom_later. Qed.

Lemma slashOrEnd_ok bol b (k : bool -> list N -> bool) :
  (b = [] \/ exists b', b = slash :: b') -> (forall x y, k x y = true) ->
  matchAt slashOrEnd bol b k = true.
Proof.
  intros [->|[b' ->]] Hk; cbn [slashOrEnd matchAt].
  - rewrite Hk. reflexivity.
  - unfold isChar. rewrite N.eqb_refl, Hk. reflexivity.
Qed.

(** A path that has the part [..] is rejected. *)
Lemma dotdot_part_rejected p : In (lit "..") (split slash p) -> isValidPath p = false.
Proof.
  intros Hin. destruct (part_position _ _ _ Hin) as (a & b & -> & _ & Hb).
  apply (dangerous_rejected (Cat (word (lit "..")) slashOrEnd)).
  - do 3 right. left. reflexivity.
  - apply found_at. intros bol.
    change (lit ".." ++ b) with (dot :: dot :: b).
    cbn [word lit matchAt List.map list_ascii_of_string].
    change (N_of_ascii ".") with dot. unfold isChar. rewrite !N.eqb_refl. cbn [andb].
    apply slashOrEnd_ok; [exact Hb | reflexivity].
Qed.

(** A path that has an empty part is rejected. *)
Lemma empty_part_rejected p : In [] (split slash p) -> isValidPath p = false.
Proof.
  intros Hin. destruct (part_position _ _ _ Hin) as (a & b & -> & Ha & Hb).
  cbn [app]. destruct Ha as [->|[a' ->]], Hb as [->|[b' ->]].
  - reflexivity.
  - apply (dangerous_rejected (Cat Bol (Chr (isChar slash)))).
    + do 7 right. left. reflexivity.
    + cbn [app]. unfold test. cbn [searchFrom matchAt]. unfold isChar.
      rewrite N.eqb_refl. reflexivity.
  - apply (dangerous_rejected (Cat (Chr (isChar slash)) Eol)).
    + do 8 right. left. reflexivity.
    + rewrite app_nil_r. apply found_at. intros bol. cbn [matchAt]. unfold isChar.
      rewrite N.eqb_refl. reflexivity.
  - rewrite <- app_assoc. apply (double_separator_rejected a' b').
Qed.

(** A path that has a part spelling [.git] in any letter case is
    rejected. *)
Lemma git_part_rejected p part :
  In part (split slash p) -> toUpperCase part = lit ".GIT" -> isValidPath p = false.
Proof.
  intros Hin Hg. destruct (part_position _ _ _ Hin) as (a & b & -> & _ & Hb).
  apply (dangerous_rejected (Cat (wordi (lit ".git")) slashOrEnd)).
  - left. reflexivity.
  - apply found_at. intros bol.
    destruct part as [|c1 [|c2 [|c3 [|c4 [|c5 rest]]]]]; try discriminate Hg.
    injection Hg as H1 H2 H3 H4.
    cbn [app wordi lit matchAt List.map list_ascii_of_string].
    unfold isChar. rewrite H1, H2, H3, H4. cbn [andb].
    change (toUpper (N_of_ascii ".") =? N_of_ascii ".")%N with true.
    change (toUpper (N_of_ascii "g") =? N_of_ascii "G")%N with true.
    change (toUpper (N_of_ascii "i") =? N_of_ascii "I")%N with true.
    change (toUpper (N_of_ascii "t") =? N_of_ascii "T")%N with true.
    cbn [andb]. apply slashOrEnd_ok; [exact Hb | reflexivity].
Qed.

(** X4.  A path that isValidPath accepts is not empty, has at most 500
    code units, holds no NUL and none of the characters that are invalid
    in Windows names, and none of its parts is empty, [..], or [.git] in
    any letter case: it is relative, without traversal and without a
    leading, trailing or doubled separator. *)
Theorem valid_path_is_relative_and_without_traversal (p : jsstring) :
  isValidPath p = true ->
  p <> []
  /\ (length p <= 500)%nat
  /\ existsb (fun c => isInvalidChar c || isChar NUL c) p = false
  /\ Forall (fun part => part <> [] /\ part <> lit ".." /\ toUpperCase part <> lit ".GIT")
            (split slash p).
Proof.
  intros Hv. split; [|split; [|split]].
  - intros ->. discriminate Hv.
  - unfold isValidPath in Hv. destruct p as [|c r]; [discriminate|].
    destruct (Nat.ltb_spec 500 (length (c :: r))); [discriminate | lia].
  - pose proof (valid_no_pattern p (Chr isInvalidChar) Hv) as H1.
    pose proof (valid_no_pattern p (Chr (isChar NUL)) Hv) as H2.
    rewrite test_Chr in H1, H2.
    specialize (H1 ltac:(do 9 right; left; reflexivity)).
    specialize (H2 ltac:(do 11 right; left; reflexivity)).
    clear Hv. induction p as [|c r IH]; [reflexivity|].
    cbn [existsb] in *. apply orb_false_iff in H1 as [H1 H1'], H2 as [H2 H2'].
    rewrite H1, H2, IH by assumption. reflexivity.
  - apply Forall_forall. intros part Hin. apply list_elem_of_In in Hin.
    split; [|split]; intros E; subst.
    + rewrite (empty_part_rejected p Hin) in Hv. discriminate.
    + rewrite (dotdot_part_rejected p Hin) in Hv. discriminate.
    + rewrite (git_part_rejected p part Hin E) in Hv. discriminate.
Qed.

(** X4 at the path src/app.txt. *)
Lemma valid_path_witness :
  isValidPath (lit "src/app.txt") = true
  /\ Forall (fun part => part <> [] /\ part <> lit ".." /\ toUpperCase part <> lit ".GIT")
            (split slash (lit "src/app.txt")).
Proof.
  assert (H : isValidPath (lit "src/app.txt") = true) by (vm_compute; reflexivity).
  split; [exact H|].
  exact (proj2 (proj2 (proj2 (valid_path_is_relative_and_without_traversal _ H)))).
Defined.

End ValidPathFacts.

Section ExtensionFacts.
Import Js Re PathSanitizer PathSpec PathTools.

Lemma split_app_any sep a q : split sep (a ++ sep :: q) = split sep a ++ split sep q.
Proof.
  induction a as [|c a IH].
  - cbn [app split]. rewrite N.eqb_refl. reflexivity.
  - cbn [app split]. rewrite IH. destruct (N.eqb c sep); [reflexivity|].
    pose proof (split_nonempty sep a) as Hne.
    destruct (split sep a) as [|p ps]; [contradiction | reflexivity].
Qed.

Lemma last_app_list {A} (l1 l2 : list A) d : l2 <> [] -> List.last (l1 ++ l2) d = List.last l2 d.
Proof.
  intros Hne. induction l1 as [|x l1 IH]; [reflexivity|].
  cbn [app]. destruct (l1 ++ l2) eqn:E.
  - destruct l1; [cbn in E; contradiction | discriminate].
  - rewrite <- IH. reflexivity.
Qed.

Lemma lastGood_noslash (name : list N) :
  Forall (fun c => isChar slash c = false) name -> lastGood (isChar slash) name.
Proof.
  intros H. destruct name as [|c r]; [exact I|]. unfold lastGood.
  destruct (exists_last (l := c :: r)) as (front & z & Hz); [discriminate|].
  rewrite Hz in *. rewrite last_last. apply Forall_app in H as [_ H]. inversion H; assumption.
Qed.

(** The last component of a path that ends in a name without
    separator is that name. *)
Lemma basename_of_name pre name :
  name <> [] -> Forall (fun c => isChar slash c = false) name ->
  pre = [] \/ (exists d, pre = d ++ [slash]) ->
  basename (pre ++ name) = name.
Proof.
  intros Hne Hs Hpre. unfold basename.
  rewrite dropEnd_id by (apply lastGood_app; [exact Hne | apply lastGood_noslash, Hs]).
  assert (Hsingle : split slash name = [name]).
  { apply split_single. eapply Forall_impl; [exact Hs|]. intros c Hc.
    unfold isChar in Hc. rewrite N.eqb_sym. exact Hc. }
  destruct Hpre as [->|[d ->]].
  - cbn [app]. rewrite Hsingle. reflexivity.
  - rewrite <- app_assoc. cbn [app]. rewrite split_app_any, Hsingle.
    apply last_app_list. discriminate.
Qed.

Lemma lastDot_none x : Forall (fun c => isChar dot c = false) x -> lastDot x = None.
Proof.
  induction 1 as [|c r Hc Hr IH]; [reflexivity|]. cbn [lastDot]. rewrite IH, Hc. reflexivity.
Qed.

Lemma lastDot_app stem x :
  Forall (fun c => isChar dot c = false) x -> lastDot (stem ++ dot :: x) = Some (stem, x).
Proof.
  intros Hx. induction stem as [|c stem IH].
  - cbn [app lastDot]. rewrite (lastDot_none x Hx). reflexivity.
  - cbn [app lastDot]. rewrite IH. reflexivity.
Qed.

Lemma shape_parts e :
  extensionShape e = true ->
  exists x, e = dot :: x /\ x <> []
            /\ Forall (fun c => isChar dot c = false) x
            /\ Forall (fun c => isChar slash c = false) x.
Proof.
  destruct e as [|c x]; [discriminate|]. cbn [extensionShape]. intros H.
  apply andb_true_iff in H as [H Hx]. apply andb_true_iff in H as [Hc Hne].
  apply N.eqb_eq in Hc. subst c. exists x. split; [reflexivity|]. split.
  - intros ->. discriminate Hne.
  - rewrite forallb_forall in Hx. split; apply Forall_forall; intros y Hy;
      apply list_elem_of_In in Hy; specialize (Hx y Hy);
      apply andb_true_iff in Hx as [H1 H2];
      [destruct (isChar dot y) | destruct (isChar slash y)]; cbn in *; congruence.
Qed.

(** Lower-casing maps no other character to the dot or the separator. *)
Lemma toLower_small c (k : N) : (k < 65)%N -> (k =? toLower c)%N = (k =? c)%N.
Proof.
  intros Hk. unfold toLower.
  destruct (N.leb_spec 65 c); cbn [andb]; [|reflexivity].
  destruct (N.leb_spec c 90); [|reflexivity].
  destruct (N.eqb_spec k (c + 32)), (N.eqb_spec k c); try reflexivity; lia.
Qed.

Lemma shape_toLowerCase e : extensionShape (toLowerCase e) = extensionShape e.
Proof.
  destruct e as [|c x]; [reflexivity|].
  cbn [toLowerCase List.map extensionShape]. unfold isChar.
  rewrite (toLower_small c dot) by reflexivity. f_equal; [f_equal|].
  - unfold eqs. destruct x; reflexivity.
  - induction x as [|y x IH]; [reflexivity|]. cbn [List.map forallb].
    rewrite (toLower_small y dot), (toLower_small y slash), IH by reflexivity. reflexivity.
Qed.

Lemma blocked_shape l : includes blockedExtensions l = true -> extensionShape l = true.
Proof.
  unfold includes. intros H. apply existsb_exists in H as (b & Hb & E).
  unfold eqs in E. apply bool_decide_eq_true in E. subst l.
  assert (Hall : forallb extensionShape blockedExtensions = true) by (vm_compute; reflexivity).
  rewrite forallb_forall in Hall. apply Hall, Hb.
Qed.

(** Whatever else a path is, a blocked extension makes it invalid. *)
Lemma blocked_extname_rejected p :
  includes blockedExtensions (toLowerCase (extname p)) = true -> isValidPath p = false.
Proof.
  intros H. unfold isValidPath. destruct p as [|c r]; [reflexivity|].
  destruct (500 <? length (c :: r))%nat; [reflexivity|].
  destruct (existsb _ dangerousPatterns); [reflexivity|].
  destruct (includes reservedNames _); [reflexivity|].
  rewrite H. reflexivity.
Qed.

Lemma extname_of_name pre stem x :
  stem <> [] -> x <> [] ->
  Forall (fun c => isChar slash c = false) stem ->
  Forall (fun c => isChar dot c = false) x ->
  Forall (fun c => isChar slash c = false) x ->
  pre = [] \/ (exists d, pre = d ++ [slash]) ->
  extname (pre ++ stem ++ dot :: x) = dot :: x.
Proof.
  intros Hs Hx Hss Hxd Hxs Hpre. unfold extname.
  rewrite basename_of_name; [| destruct stem; [contradiction | discriminate] | | exact Hpre].
  - rewrite lastDot_app by exact Hxd.
    unfold eqs. rewrite bool_decide_eq_false_2 by exact Hs.
    rewrite bool_decide_eq_false_2; [reflexivity|].
    intros E. apply (f_equal (@length N)) in E. rewrite length_app in E.
    destruct stem; [contradiction|]. destruct x; [contradiction|]. cbn in E. lia.
  - apply Forall_app. split; [exact Hss|]. constructor; [reflexivity | exact Hxs].
Qed.

(** X5.  A file name that has a non-empty stem and ends in one of the
    blocked extensions, written in any letter case, is rejected, alone
    and behind any directory prefix. *)
Theorem blocked_extension_is_rejected (dir stem e : jsstring) :
  stem <> [] ->
  Forall (fun c => isChar slash c = false) stem ->
  includes blockedExtensions (toLowerCase e) = true ->
  isValidPath (stem ++ e) = false /\ isValidPath (dir ++ slash :: stem ++ e) = false.
Proof.
  intros Hs Hss He.
  pose proof (blocked_shape _ He) as Hshape. rewrite shape_toLowerCase in Hshape.
  destruct (shape_parts e Hshape) as (x & -> & Hx & Hxd & Hxs).
  split.
  - apply blocked_extname_rejected.
    pose proof (extname_of_name [] stem x Hs Hx Hss Hxd Hxs (or_introl eq_refl)) as E.
    cbn [app] in E. rewrite E. exact He.
  - apply blocked_extname_rejected.
    change (dir ++ slash :: stem ++ dot :: x) with (dir ++ [slash] ++ stem ++ dot :: x).
    rewrite app_assoc.
    rewrite (extname_of_name (dir ++ [slash]) stem x Hs Hx Hss Hxd Hxs
               (or_intror (ex_intro _ dir eq_refl))).
    exact He.
Qed.

(** X5 at the name Setup.EXE in the directory bin. *)
Lemma blocked_extension_witness :
  lit "Setup" <> []
  /\ Forall (fun c => isChar slash c = false) (lit "Setup")
  /\ includes blockedExtensions (toLowerCase (lit ".EXE")) = true
  /\ isValidPath (lit "bin" ++ slash :: lit "Setup" ++ lit ".EXE") = false.
Proof.
  assert (H1 : lit "Setup" <> []) by discriminate.
  assert (H2 : Forall (fun c => isChar slash c = false) (lit "Setup"))
    by (repeat constructor).
  assert (H3 : includes blockedExtensions (toLowerCase (lit ".EXE")) = true)
    by (vm_compute; reflexivity).
  split; [exact H1|]. split; [exact H2|]. split; [exact H3|].
  exact (proj2 (blocked_extension_is_rejected (lit "bin") _ _ H1 H2 H3)).
Defined.

(** X6.  The extension of a name that begins with its only dot is
    empty, so the list of blocked extensions does not apply to it: every
    blocked extension is itself accepted as a file name, alone and in a
    directory. *)
Theorem blocked_extension_alone_is_accepted (e : jsstring) :
  In e blockedExtensions ->
  extname e = [] /\ isValidPath e = true /\ isValidPath (lit "src/" ++ e) = true.
Proof.
  intros Hin.
  assert (Hall : forallb (fun e => eqs (extname e) [] && isValidPath e
                                   && isValidPath (lit "src/" ++ e))
                         blockedExtensions = true) by (vm_compute; reflexivity).
  rewrite forallb_forall in Hall. specialize (Hall e Hin).
  apply andb_true_iff in Hall as [Hall H3]. apply andb_true_iff in Hall as [H1 H2].
  unfold eqs in H1. apply bool_decide_eq_true in H1. repeat split; assumption.
Qed.

(** X6 at the name .exe. *)
Lemma blocked_extension_alone_witness :
  In (lit ".exe") blockedExtensions /\ isValidPath (lit "src/.exe") = true.
Proof.
  assert (H : In (lit ".exe") blockedExtensions) by (left; reflexivity).
  split; [exact H|].
  exact (proj2 (proj2 (blocked_extension_alone_is_accepted _ H))).
Defined.

End ExtensionFacts.

Section AccountingFacts.
Import UploadQueue Observe Accounting.

Lemma enqueue_perm {A} (e : PQueue.item A) q : Permutation (PQueue.enqueue e q) (e :: q).
Proof.
  induction q as [|x q IH]; cbn [PQueue.enqueue]; [reflexivity|].
  destruct (PQueue.priority e <=? PQueue.priority x)%Z; [|reflexivity].
  rewrite IH. apply perm_swap.
Qed.

(** A job leaves the head of the queue and begins. *)
Lemma tidy_begin c n now x rest st :
  tidy c n st ->
  PQueue.queue (queue st) = x :: rest ->
  length (slots st) < c ->
  tidy c n (begin now (PQueue.run x)
                  (withQueue (PQueue.Make (PQueue.concurrency (queue st))
                                          (PQueue.timeout (queue st))
                                          (PQueue.throwOnTimeout (queue st))
                                          (PQueue.isPaused (queue st))
                                          (S (PQueue.pendingCount (queue st))) rest) st)).
Proof.
  intros [Hc Hp Hb Hi Hf Hs Hh Ha Ht Hn] Hq Hlt.
  unfold runningIds, queuedIds in *. rewrite Hq in *. cbn [List.map] in *.
  set (j := PQueue.run x) in *.
  constructor; unfold runningIds, queuedIds;
    cbn [begin emit withActive withBodies withSlots withQueue queue bodies slots stats
         activeUploads PQueue.concurrency PQueue.pendingCount PQueue.queue].
  - exact Hc.
  - rewrite length_app, Hp. cbn [length]. lia.
  - rewrite length_app. cbn [length]. lia.
  - rewrite List.map_app, <- app_assoc. exact Hi.
  - rewrite List.map_app, <- app_assoc. exact Hf.
  - rewrite <- app_assoc. exact Hs.
  - apply Forall_app. split; [exact Hh|]. constructor; [|constructor].
    apply Forall_app in Hf as [_ Hf]. inversion Hf; assumption.
  - rewrite dom_insert_L, Ha, List.map_app, list_to_set_app_L. cbn [List.map list_to_set].
    rewrite union_empty_r_L. apply (comm_L (∪)).
  - rewrite length_app. cbn [length] in *. lia.
  - exact Hn.
Qed.

(** [_tryToStartAnother] on tidy books. *)
Lemma tidy_try c n now st :
  tidy c n st ->
  tidy c n (started now (fst (PQueue.tryToStartAnother (queue st)))
                    (withQueue (snd (PQueue.tryToStartAnother (queue st))) st)).
Proof.
  intros T. unfold PQueue.tryToStartAnother.
  destruct (PQueue.queue (queue st)) as [|x rest] eqn:Eq.
  - cbn [fst snd started]. destruct T. constructor; assumption.
  - destruct (negb (PQueue.isPaused (queue st))
              && (PQueue.pendingCount (queue st) <? PQueue.concurrency (queue st))) eqn:E.
    + cbn [fst snd started]. apply tidy_begin; [exact T | exact Eq|].
      apply andb_true_iff in E as [_ E]. apply Nat.ltb_lt in E.
      destruct T as [Hc Hp _ _ _ _ _ _ _ _]. lia.
    + cbn [fst snd started]. destruct T. constructor; assumption.
Qed.

Lemma tidy_frame c n st st' :
  queue st' = queue st -> slots st' = slots st -> bodies st' = bodies st ->
  activeUploads st' = activeUploads st -> stats st' = stats st ->
  tidy c n st -> tidy c n st'.
Proof.
  intros Eq Es Eb Ea Et [Hc Hp Hb Hi Hf Hs Hh Ha Ht Hn].
  constructor; unfold runningIds, queuedIds in *; rewrite ?Eq, ?Es, ?Eb, ?Ea, ?Et; assumption.
Qed.

(** [addUploadJob] with a new id. *)
Lemma tidy_addUploadJob c n now fd sid st :
  tidy c n st -> tidy c (S n) (addUploadJob now n fd sid st).
Proof.
  intros [Hc Hp Hb Hi Hf Hs Hh Ha Ht Hn].
  set (s := stats st).
  set (e := PQueue.Item (priorityOf fd) (MkJob n fd sid)).
  set (st1 := withQueue (PQueue.Make (PQueue.concurrency (queue st)) (PQueue.timeout (queue st))
                                     (PQueue.throwOnTimeout (queue st))
                                     (PQueue.isPaused (queue st))
                                     (PQueue.pendingCount (queue st))
                                     (PQueue.enqueue e (PQueue.queue (queue st))))
                        (withStats (MkStats (S (totalJobs s)) (completedJobs s) (failedJobs s)
                                            (rateLimitHits s)) st)).
  assert (Hperm : List.map (fun x => jobId (PQueue.run x))
                           (PQueue.enqueue e (PQueue.queue (queue st)))
                  ≡ₚ n :: queuedIds st).
  { rewrite (enqueue_perm e). reflexivity. }
  assert (Hnew : n ∉ runningIds st ++ queuedIds st).
  { intros Hin. rewrite Forall_forall in Hf. specialize (Hf n Hin). lia. }
  assert (Hnews : n ∉ slots st).
  { intros Hin. rewrite Forall_forall in Hh. specialize (Hh n Hin). lia. }
  assert (Hup : forall l : list nat, Forall (fun id => id < n) l -> Forall (fun id => id < S n) l).
  { intros l Hl. eapply Forall_impl; [exact Hl|]. cbn. intros. lia. }
  assert (T1 : tidy c (S n) st1).
  { constructor; unfold runningIds, queuedIds in *; subst st1 s;
      cbn [withQueue withStats queue bodies slots stats activeUploads PQueue.concurrency
           PQueue.pendingCount PQueue.queue totalJobs completedJobs failedJobs].
    - exact Hc.
    - exact Hp.
    - exact Hb.
    - rewrite Hperm, <- Permutation_middle. apply NoDup_cons. split; assumption.
    - rewrite Hperm, <- Permutation_middle. constructor; [lia | apply Hup, Hf].
    - rewrite Hperm, <- Permutation_middle. apply NoDup_cons. split; [|exact Hs].
      intros Hin. apply elem_of_app in Hin as [Hin|Hin]; [exact (Hnews Hin)|].
      apply Hnew, elem_of_app. right. exact Hin.
    - apply Hup, Hh.
    - exact Ha.
    - rewrite (Permutation_length (enqueue_perm e _)). cbn [length]. lia.
    - lia. }
  assert (Heq : addUploadJob now n fd sid st
                = started now (fst (PQueue.tryToStartAnother (queue st1)))
                          (withQueue (snd (PQueue.tryToStartAnother (queue st1))) st1)).
  { unfold addUploadJob, PQueue.add. subst st1 s e. cbn [withQueue withStats queue stats].
    destruct (PQueue.tryToStartAnother _) as [oj q]. reflexivity. }
  rewrite Heq. exact (tidy_try c (S n) now st1 T1).
Qed.

(** The part of the books that the body of a job changes: the entry of
    the job leaves [activeUploads] and one of the two outcome counters
    goes up by one. *)
Lemma body_books now j g p st :
  PQueue.queue (queue (body now j g p st)) = PQueue.queue (queue st)
  /\ PQueue.concurrency (queue (body now j g p st)) = PQueue.concurrency (queue st)
  /\ PQueue.pendingCount (queue (body now j g p st)) = PQueue.pendingCount (queue st)
  /\ slots (body now j g p st) = slots st
  /\ bodies (body now j g p st) = bodies st
  /\ activeUploads (body now j g p st) = delete (jobId j) (activeUploads st)
  /\ totalJobs (stats (body now j g p st)) = totalJobs (stats st)
  /\ completedJobs (stats (body now j g p st)) + failedJobs (stats (body now j g p st))
     = S (completedJobs (stats st) + failedJobs (stats st)).
Proof.
  assert (Hcaught : forall r s0,
             PQueue.queue (queue (caught now j r s0)) = PQueue.queue (queue s0)
             /\ PQueue.concurrency (queue (caught now j r s0)) = PQueue.concurrency (queue s0)
             /\ PQueue.pendingCount (queue (caught now j r s0)) = PQueue.pendingCount (queue s0)
             /\ slots (caught now j r s0) = slots s0
             /\ bodies (caught now j r s0) = bodies s0
             /\ activeUploads (caught now j r s0) = activeUploads s0
             /\ totalJobs (stats (caught now j r s0)) = totalJobs (stats s0)
             /\ completedJobs (stats (caught now j r s0)) + failedJobs (stats (caught now j r s0))
                = S (completedJobs (stats s0) + failedJobs (stats s0))).
  { intros r s0. unfold caught, handleRateLimitExceeded.
    destruct (isRateLimit r); [destruct (JsNum.isTimeValue _)|]; cbn; repeat split; lia. }
  assert (Hsucc : forall h s0,
             PQueue.queue (queue (succeeded now j h s0)) = PQueue.queue (queue s0)
             /\ PQueue.concurrency (queue (succeeded now j h s0)) = PQueue.concurrency (queue s0)
             /\ PQueue.pendingCount (queue (succeeded now j h s0))
                = PQueue.pendingCount (queue s0)
             /\ slots (succeeded now j h s0) = slots s0
             /\ bodies (succeeded now j h s0) = bodies s0
             /\ activeUploads (succeeded now j h s0) = activeUploads s0
             /\ totalJobs (stats (succeeded now j h s0)) = totalJobs (stats s0)
             /\ completedJobs (stats (succeeded now j h s0))
                + failedJobs (stats (succeeded now j h s0))
                = S (completedJobs (stats s0) + failedJobs (stats s0))).
  { intros h s0. unfold succeeded, checkRateLimits.
    destruct (JsNum.lt _ _); [destruct (JsNum.isTimeValue _)|]; try apply Hcaught.
    - cbn [emit activeUploads].
      destruct (activeUploads s0 !! jobId j); [cbn; repeat split; lia|].
      destruct (Hcaught None (emit (rateLimitWarning
               (JsNum.parseInt (x_ratelimit_remaining h)) (JsNum.parseInt (x_ratelimit_limit h)))
               s0)) as (H1 & H2 & H3 & H4 & H5 & H6 & H7 & H8).
      repeat split; assumption.
    - destruct (activeUploads s0 !! jobId j); [cbn; repeat split; lia | apply Hcaught]. }
  unfold body. cbn [withActive queue slots bodies activeUploads stats].
  destruct g as [sha|r].
  - destruct p as [h|r'].
    + destruct (Hsucc h st) as (H1 & H2 & H3 & H4 & H5 & H6 & H7 & H8).
      rewrite H6. repeat split; assumption.
    + destruct (Hcaught r' st) as (H1 & H2 & H3 & H4 & H5 & H6 & H7 & H8).
      rewrite H6. repeat split; assumption.
  - destruct (bool_decide (status <$> r = Some 404%Z)).
    + destruct p as [h|r'].
      * destruct (Hsucc h st) as (H1 & H2 & H3 & H4 & H5 & H6 & H7 & H8).
        rewrite H6. repeat split; assumption.
      * destruct (Hcaught r' st) as (H1 & H2 & H3 & H4 & H5 & H6 & H7 & H8).
        rewrite H6. repeat split; assumption.
    + destruct (Hcaught r st) as (H1 & H2 & H3 & H4 & H5 & H6 & H7 & H8).
      rewrite H6. repeat split; assumption.
Qed.


Lemma elem_of_without id l x : x ∈ without id l <-> x ∈ l /\ x <> id.
Proof.
  unfold without. rewrite !list_elem_of_In, filter_In.
  destruct (Nat.eqb_spec x id); cbn; intuition congruence.
Qed.

Lemma NoDup_without id l : NoDup l -> NoDup (without id l).
Proof.
  intros H. apply NoDup_ListNoDup. apply List.NoDup_filter, NoDup_ListNoDup, H.
Qed.

Lemma length_without_one id l :
  NoDup l -> id ∈ l -> length (without id l) = Nat.pred (length l).
Proof.
  induction 1 as [|x l Hx Hl IH]; [intros Hin; inversion Hin|].
  intros Hin. unfold without in *. cbn [List.filter].
  destruct (Nat.eqb_spec x id) as [->|Hne]; cbn [negb length Nat.pred].
  - clear IH Hin. induction l as [|y l IH]; [reflexivity|].
    cbn [List.filter]. apply not_elem_of_cons in Hx as [Hy Hx].
    destruct (Nat.eqb_spec y id); [congruence|]. cbn [negb length].
    rewrite IH; [reflexivity | exact Hx | apply NoDup_cons in Hl; apply Hl].
  - apply elem_of_cons in Hin as [->|Hin]; [congruence|].
    rewrite IH by exact Hin. destruct l; [inversion Hin | reflexivity].
Qed.

Lemma Forall_without (P : nat -> Prop) id l : Forall P l -> Forall P (without id l).
Proof.
  intros H. apply Forall_forall. intros x Hx. apply elem_of_without in Hx as [Hx _].
  rewrite Forall_forall in H. exact (H x Hx).
Qed.

Lemma NoDup_without_app id l k : NoDup (l ++ k) -> NoDup (without id l ++ k).
Proof.
  intros H. apply NoDup_app in H as (H1 & H2 & H3). apply NoDup_app.
  split; [apply NoDup_without, H1 | split; [|exact H3]].
  intros x Hx. apply elem_of_without in Hx as [Hx _]. exact (H2 x Hx).
Qed.

Lemma map_without_body id (bs : list Job) :
  List.map jobId (List.filter (fun x => negb (Nat.eqb (jobId x) id)) bs)
  = without id (List.map jobId bs).
Proof.
  induction bs as [|b bs IH]; [reflexivity|].
  unfold without in *. cbn [List.filter List.map].
  destruct (negb (jobId b =? id)); cbn [List.map]; rewrite IH; reflexivity.
Qed.

Lemma findBody_In id st j : findBody id st = Some j -> In j (bodies st) /\ jobId j = id.
Proof.
  unfold findBody. intros H. apply find_some in H as [H1 H2].
  apply Nat.eqb_eq in H2. split; assumption.
Qed.

Lemma list_to_set_without id (l : list nat) :
  (list_to_set (without id l) : gset nat) = list_to_set l ∖ {[id]}.
Proof.
  apply set_eq. intros x.
  rewrite elem_of_difference, !elem_of_list_to_set, elem_of_without, elem_of_singleton.
  reflexivity.
Qed.

(** The requests of a running job are answered and its body ends. *)
Lemma tidy_body c n now id j g p st :
  tidy c n st -> findBody id st = Some j ->
  tidy c n (body now j g p
                 (withBodies (List.filter (fun x => negb (Nat.eqb (jobId x) id)) (bodies st)) st)).
Proof.
  intros [Hc Hp Hb Hi Hf Hs Hh Ha Ht Hn] Hfind.
  apply findBody_In in Hfind as [Hin Hid].
  set (st1 := withBodies _ st).
  destruct (body_books now j g p st1) as (B1 & B2 & B3 & B4 & B5 & B6 & B7 & B8).
  assert (Hrun : id ∈ runningIds st).
  { unfold runningIds. apply list_elem_of_In, in_map_iff. exists j. split; assumption. }
  assert (Hnd : NoDup (runningIds st)) by (apply NoDup_app in Hi; apply Hi).
  constructor; unfold runningIds, queuedIds in *;
    rewrite ?B1, ?B2, ?B3, ?B4, ?B5, ?B6, ?B7; subst st1;
    cbn [withBodies queue bodies slots stats activeUploads] in *.
  - exact Hc.
  - exact Hp.
  - exact Hb.
  - rewrite map_without_body. apply NoDup_without_app, Hi.
  - rewrite map_without_body. apply Forall_app. apply Forall_app in Hf as [Hf1 Hf2].
    split; [apply Forall_without, Hf1 | exact Hf2].
  - exact Hs.
  - exact Hh.
  - rewrite dom_delete_L, Ha, map_without_body, list_to_set_without, Hid. reflexivity.
  - assert (Hlen : length (List.filter (fun x => negb (Nat.eqb (jobId x) id)) (bodies st))
                   = Nat.pred (length (bodies st))).
    { rewrite <- (length_map jobId), map_without_body, length_without_one by assumption.
      rewrite length_map. reflexivity. }
    rewrite Hlen. destruct (bodies st); [destruct Hin|]. cbn [length Nat.pred] in *. lia.
  - exact Hn.
Qed.

(** The wrapper of the queue ends for a job: its slot is given back. *)
Lemma tidy_release c n now id st : tidy c n st -> tidy c n (fst (release now id st)).
Proof.
  intros T. rewrite release_eq. destruct (bool_decide (id ∈ slots st)) eqn:E; [|exact T].
  apply bool_decide_eq_true in E. cbn [fst].
  destruct T as [Hc Hp Hb Hi Hf Hs Hh Ha Ht Hn].
  set (st1 := withQueue (PQueue.Make (PQueue.concurrency (queue st)) (PQueue.timeout (queue st))
                                     (PQueue.throwOnTimeout (queue st))
                                     (PQueue.isPaused (queue st))
                                     (Nat.pred (PQueue.pendingCount (queue st)))
                                     (PQueue.queue (queue st)))
                        (withSlots (without id (slots st)) st)).
  assert (T1 : tidy c n st1).
  { assert (Hnd : NoDup (slots st)) by (apply NoDup_app in Hs; apply Hs).
    pose proof (length_without_one id _ Hnd E) as Hlen.
    constructor; unfold runningIds, queuedIds in *; subst st1;
      cbn [withQueue withSlots queue bodies slots stats activeUploads PQueue.concurrency
           PQueue.pendingCount PQueue.queue].
    - exact Hc.
    - rewrite Hlen, Hp. reflexivity.
    - rewrite Hlen. lia.
    - exact Hi.
    - exact Hf.
    - apply NoDup_without_app, Hs.
    - apply Forall_without, Hh.
    - exact Ha.
    - exact Ht.
    - exact Hn. }
  exact (tidy_try c n now st1 T1).
Qed.

Lemma tidy_settle c n now id g p st :
  tidy c n st -> tidy c n (fst (settle now id g p st)).
Proof.
  intros T. unfold settle. destruct (findBody id st) as [j|] eqn:E; [|exact T].
  apply tidy_release, tidy_body; assumption.
Qed.

Lemma tidy_timeoutJob c n now id st :
  tidy c n st -> tidy c n (fst (timeoutJob now id st)).
Proof.
  intros T. unfold timeoutJob. destruct (overdue now id st); [|exact T].
  apply tidy_release, T.
Qed.

(** The loop of [start] keeps the books. *)
Lemma tidy_processQueue c n now fuel st :
  tidy c n st ->
  tidy c n (fold_left (fun s j => begin now j s)
                      (fst (PQueue.processQueue fuel (queue st)))
                      (withQueue (snd (PQueue.processQueue fuel (queue st))) st)).
Proof.
  revert st. induction fuel as [|f IH]; intros st T.
  - cbn [PQueue.processQueue fst snd fold_left]. destruct T. constructor; assumption.
  - cbn [PQueue.processQueue].
    pose proof (tidy_try c n now st T) as T1.
    destruct (PQueue.tryToStartAnother (queue st)) as [[j|] q1] eqn:E; cbn [fst snd started] in *.
    + specialize (IH _ T1). cbn [begin emit withActive withBodies withSlots withQueue queue] in IH.
      destruct (PQueue.processQueue f q1) as [js q2]. cbn [fst snd fold_left] in *.
      exact IH.
    + cbn [fold_left]. exact T1.
Qed.

Lemma tidy_start c n now st : tidy c n st -> tidy c n (start now st).
Proof.
  intros T. unfold start, PQueue.start.
  destruct (negb (PQueue.isPaused (queue st))) eqn:E.
  - cbn [fold_left]. destruct T. constructor; assumption.
  - set (st1 := withQueue (PQueue.Make (PQueue.concurrency (queue st)) (PQueue.timeout (queue st))
                                       (PQueue.throwOnTimeout (queue st)) false
                                       (PQueue.pendingCount (queue st))
                                       (PQueue.queue (queue st))) st).
    assert (T1 : tidy c n st1) by (destruct T; constructor; assumption).
    pose proof (tidy_processQueue c n now (S (PQueue.size (queue st))) st1 T1) as H.
    subst st1. cbn [withQueue queue] in H.
    destruct (PQueue.processQueue _ _) as [js q]. exact H.
Qed.

Lemma tidy_fireTimer c n now i st : tidy c n st -> tidy c n (fireTimer now i st).
Proof.
  intros T. unfold fireTimer. destruct (timers st !! i); [|exact T].
  unfold resume.
  apply (tidy_frame c n (start now (withTimers (take i (timers st) ++ drop (S i) (timers st)) st)));
    try reflexivity.
  apply tidy_start.
  apply (tidy_frame c n st); try reflexivity. exact T.
Qed.


Lemma without_absent id l : id ∉ l -> without id l = l.
Proof.
  induction l as [|x l IH]; [reflexivity|]. intros H. apply not_elem_of_cons in H as [H1 H2].
  unfold without in *. cbn [List.filter]. destruct (Nat.eqb_spec x id); [congruence|].
  cbn [negb]. rewrite IH by exact H2. reflexivity.
Qed.

Lemma grows_refl st st' :
  bodies st' = bodies st -> slots st' = slots st -> grows st st'.
Proof.
  intros Hb Hs. exists []. unfold runningIds. rewrite Hb, Hs, !app_nil_r. split; reflexivity.
Qed.

Lemma grows_trans st1 st2 st3 : grows st1 st2 -> grows st2 st3 -> grows st1 st3.
Proof.
  intros (n1 & B1 & S1) (n2 & B2 & S2). exists (n1 ++ n2).
  rewrite B2, S2, B1, S1, !app_assoc. split; reflexivity.
Qed.

Lemma grows_begin now j st : grows st (begin now j st).
Proof.
  exists [jobId j]. unfold runningIds.
  cbn [begin emit withActive withBodies withSlots bodies slots]. rewrite List.map_app.
  split; reflexivity.
Qed.

Lemma grows_try now st :
  grows st (started now (fst (PQueue.tryToStartAnother (queue st)))
                    (withQueue (snd (PQueue.tryToStartAnother (queue st))) st)).
Proof.
  destruct (PQueue.tryToStartAnother (queue st)) as [[j|] q]; cbn [fst snd started].
  - apply (grows_trans _ (withQueue q st)); [apply grows_refl; reflexivity | apply grows_begin].
  - apply grows_refl; reflexivity.
Qed.

Lemma addUploadJob_eq now n fd sid st :
  let s := stats st in
  let st1 := withQueue (PQueue.Make (PQueue.concurrency (queue st)) (PQueue.timeout (queue st))
                                    (PQueue.throwOnTimeout (queue st))
                                    (PQueue.isPaused (queue st))
                                    (PQueue.pendingCount (queue st))
                                    (PQueue.enqueue (PQueue.Item (priorityOf fd) (MkJob n fd sid))
                                                    (PQueue.queue (queue st))))
                       (withStats (MkStats (S (totalJobs s)) (completedJobs s) (failedJobs s)
                                           (rateLimitHits s)) st) in
  addUploadJob now n fd sid st
  = started now (fst (PQueue.tryToStartAnother (queue st1)))
            (withQueue (snd (PQueue.tryToStartAnother (queue st1))) st1).
Proof.
  intros s st1. unfold addUploadJob, PQueue.add. subst st1 s.
  cbn [withQueue withStats queue stats].
  destruct (PQueue.tryToStartAnother _) as [oj q]. reflexivity.
Qed.

Lemma grows_addUploadJob now n fd sid st : grows st (addUploadJob now n fd sid st).
Proof.
  rewrite addUploadJob_eq. cbv zeta.
  eapply grows_trans; [|apply grows_try]. apply grows_refl; reflexivity.
Qed.

Lemma grows_processQueue now fuel st :
  grows st (fold_left (fun s j => begin now j s)
                      (fst (PQueue.processQueue fuel (queue st)))
                      (withQueue (snd (PQueue.processQueue fuel (queue st))) st)).
Proof.
  revert st. induction fuel as [|f IH]; intros st.
  - cbn [PQueue.processQueue fst snd fold_left]. apply grows_refl; reflexivity.
  - cbn [PQueue.processQueue].
    pose proof (grows_try now st) as G1.
    destruct (PQueue.tryToStartAnother (queue st)) as [[j|] q1] eqn:E; cbn [fst snd started] in *.
    + specialize (IH (begin now j (withQueue q1 st))).
      cbn [begin emit withActive withBodies withSlots withQueue queue] in IH.
      destruct (PQueue.processQueue f q1) as [js q2]. cbn [fst snd fold_left] in *.
      eapply grows_trans; [exact G1|]. exact IH.
    + cbn [fold_left]. exact G1.
Qed.

Lemma grows_start now st : grows st (start now st).
Proof.
  unfold start, PQueue.start.
  destruct (negb (PQueue.isPaused (queue st))) eqn:E.
  - cbn [fold_left]. apply grows_refl; reflexivity.
  - set (st1 := withQueue (PQueue.Make (PQueue.concurrency (queue st)) (PQueue.timeout (queue st))
                                       (PQueue.throwOnTimeout (queue st)) false
                                       (PQueue.pendingCount (queue st))
                                       (PQueue.queue (queue st))) st).
    pose proof (grows_processQueue now (S (PQueue.size (queue st))) st1) as H.
    subst st1. cbn [withQueue queue] in H.
    destruct (PQueue.processQueue _ _) as [js q].
    eapply grows_trans; [|exact H]. apply grows_refl; reflexivity.
Qed.

Lemma grows_fireTimer now i st : grows st (fireTimer now i st).
Proof.
  unfold fireTimer. destruct (timers st !! i); [|apply grows_refl; reflexivity].
  unfold resume.
  eapply grows_trans; [|eapply grows_trans; [apply grows_start|]];
    [|apply grows_refl; reflexivity].
  apply grows_refl; reflexivity.
Qed.

Lemma frees_release now id st : frees id st (fst (release now id st)).
Proof.
  rewrite release_eq. destruct (bool_decide (id ∈ slots st)) eqn:E; cbn [fst].
  - set (st1 := withQueue (PQueue.Make (PQueue.concurrency (queue st)) (PQueue.timeout (queue st))
                                     (PQueue.throwOnTimeout (queue st))
                                     (PQueue.isPaused (queue st))
                                     (Nat.pred (PQueue.pendingCount (queue st)))
                                     (PQueue.queue (queue st)))
                        (withSlots (without id (slots st)) st)).
    destruct (grows_try now st1) as (new & B & S). exists new. split; [exact B | exact S].
  - apply bool_decide_eq_false in E. exists []. rewrite without_absent by exact E.
    rewrite !app_nil_r. split; reflexivity.
Qed.

Lemma ends_settle now id g p st j :
  findBody id st = Some j -> ends id st (fst (settle now id g p st)).
Proof.
  intros Hf. unfold settle. rewrite Hf.
  set (st1 := body now j g p _).
  destruct (frees_release now id st1) as (new & B & S). exists new.
  destruct (body_books now j g p
              (withBodies (List.filter (fun x => negb (Nat.eqb (jobId x) id)) (bodies st)) st))
    as (_ & _ & _ & B4 & B5 & _).
  fold st1 in B4, B5. rewrite B, S. unfold runningIds. rewrite B4, B5.
  cbn [withBodies bodies slots]. rewrite map_without_body. split; reflexivity.
Qed.

Lemma held_grows st st' : held st -> grows st st' -> held st'.
Proof.
  unfold held. intros H (new & B & S). rewrite B, S. apply Forall_app. split.
  - eapply Forall_impl; [exact H|]. cbn. intros x Hx. apply elem_of_app. left. exact Hx.
  - apply Forall_forall. intros x Hx. apply elem_of_app. right. exact Hx.
Qed.

Lemma held_frees id st st' : held st -> frees id st st' -> held st'.
Proof.
  unfold held. intros H (new & B & S). rewrite B, S. apply Forall_app. split.
  - apply Forall_forall. intros x Hx. apply elem_of_without in Hx as [Hx _].
    rewrite Forall_forall in H. apply elem_of_app. left. exact (H x Hx).
  - apply Forall_forall. intros x Hx. apply elem_of_app. right. exact Hx.
Qed.

Lemma held_ends id st st' : held st -> ends id st st' -> held st'.
Proof.
  unfold held. intros H (new & B & S). rewrite B, S. apply Forall_app. split.
  - apply Forall_forall. intros x Hx. apply elem_of_without in Hx as [Hx Hne].
    rewrite Forall_forall in H. apply elem_of_app. left. apply elem_of_without.
    split; [exact (H x Hx) | exact Hne].
  - apply Forall_forall. intros x Hx. apply elem_of_app. right. exact Hx.
Qed.

Lemma even_grows st st' : slots st = runningIds st -> grows st st' -> slots st' = runningIds st'.
Proof. intros H (new & B & S). rewrite B, S, H. reflexivity. Qed.

Lemma even_ends id st st' :
  slots st = runningIds st -> ends id st st' -> slots st' = runningIds st'.
Proof. intros H (new & B & S). rewrite B, S, H. reflexivity. Qed.

End AccountingFacts.

Section ServerBooks.
Import UploadQueue Observe Routes Server Accounting Books.

Lemma tidy_create env : tidy (concurrencyOf env) 0 (create env).
Proof.
  constructor; unfold create, runningIds, queuedIds, PQueue.create;
    cbn [queue slots bodies activeUploads UploadQueue.stats PQueue.concurrency
         PQueue.pendingCount PQueue.queue List.map app length noStats totalJobs
         completedJobs failedJobs];
    try reflexivity; try constructor; try lia.
Qed.

Lemma tidy_addAll c now sid fs : forall first index q,
  tidy c first q -> tidy c (first + length fs) (addAll now first index sid fs q).
Proof.
  induction fs as [|f fs IH]; intros first index q T; cbn [addAll length].
  - rewrite Nat.add_0_r. exact T.
  - rewrite Nat.add_succ_r, <- Nat.add_succ_l. apply IH, tidy_addUploadJob, T.
Qed.

Lemma books_settled env now id sys : books env sys -> books env (settled now id sys).
Proof. exact (fun H => H). Qed.

Lemma books_step env sys turn : books env sys -> books env (step env sys turn).
Proof.
  unfold books. intros T. unfold step. destruct turn as [now a]. cbn [fst snd].
  destruct a as [req|inst sid|inst sid|sid|id g p|id|i|c|c].
  - destruct (sessions sys !! uuid req); exact T.
  - unfold execute. destruct (guard inst sid (sessions sys)) as [e|se]; [exact T|].
    cbn [snd]. destruct (length (files se) =? 0)%nat eqn:E;
      cbn [nextJob uploadQueue Server.withQueue].
    + apply Nat.eqb_eq in E. apply length_zero_iff_nil in E. rewrite E. exact T.
    + apply tidy_addAll, T.
  - exact T.
  - exact T.
  - pose proof (tidy_settle _ _ now id g p _ T) as T'.
    destruct (settle now id g p (uploadQueue sys)) as [q promise]. cbn [fst] in T'.
    destruct promise; exact T'.
  - pose proof (tidy_timeoutJob _ _ now id _ T) as T'.
    destruct (timeoutJob now id (uploadQueue sys)) as [q promise]. cbn [fst] in T'.
    destruct promise; exact T'.
  - apply tidy_fireTimer, T.
  - exact T.
  - exact T.
Qed.

Lemma books_run env turns : books env (run env turns (boot env)).
Proof.
  unfold run. generalize (tidy_create env : books env (boot env)). generalize (boot env).
  induction turns as [|turn turns IH]; intros sys Hs; [exact Hs|].
  cbn [fold_left]. apply IH, books_step, Hs.
Qed.

Lemma tidy_activeJobs c n st :
  tidy c n st -> base.size (activeUploads st) = length (bodies st).
Proof.
  intros T. rewrite <- size_dom, (tidy_active _ _ _ T).
  rewrite size_list_to_set by (pose proof (tidy_ids _ _ _ T) as H; apply NoDup_app in H; apply H).
  unfold runningIds. apply length_map.
Qed.

Lemma grows_addAll now sid fs : forall first index q,
  grows q (addAll now first index sid fs q).
Proof.
  induction fs as [|f fs IH]; intros first index q; cbn [addAll].
  - apply grows_refl; reflexivity.
  - eapply grows_trans; [apply grows_addUploadJob | apply IH].
Qed.

Lemma held_step env sys turn :
  held (uploadQueue sys) -> held (uploadQueue (step env sys turn)).
Proof.
  intros T. unfold step. destruct turn as [now a]. cbn [fst snd].
  destruct a as [req|inst sid|inst sid|sid|id g p|id|i|c|c].
  - destruct (sessions sys !! uuid req); exact T.
  - unfold execute. destruct (guard inst sid (sessions sys)) as [e|se]; [exact T|].
    cbn [snd]. destruct (length (files se) =? 0)%nat;
      cbn [uploadQueue Server.withQueue]; eapply held_grows; try exact T; apply grows_addAll.
  - exact T.
  - exact T.
  - assert (T' : held (fst (settle now id g p (uploadQueue sys)))).
    { destruct (findBody id (uploadQueue sys)) as [j|] eqn:E.
      - eapply held_ends; [exact T | eapply ends_settle, E].
      - unfold settle. rewrite E. exact T. }
    destruct (settle now id g p (uploadQueue sys)) as [q promise]. cbn [fst] in T'.
    destruct promise; exact T'.
  - assert (T' : held (fst (timeoutJob now id (uploadQueue sys)))).
    { unfold timeoutJob. destruct (overdue now id (uploadQueue sys)); [|exact T].
      eapply held_frees; [exact T | apply frees_release]. }
    destruct (timeoutJob now id (uploadQueue sys)) as [q promise]. cbn [fst] in T'.
    destruct promise; exact T'.
  - cbn [uploadQueue Server.withQueue]. eapply held_grows; [exact T | apply grows_fireTimer].
  - exact T.
  - exact T.
Qed.

Lemma held_run env turns : held (uploadQueue (run env turns (boot env))).
Proof.
  unfold run. assert (H : held (uploadQueue (boot env))) by constructor.
  revert H. generalize (boot env).
  induction turns as [|turn turns IH]; intros sys Hs; [exact Hs|].
  cbn [fold_left]. apply IH, held_step, Hs.
Qed.

Lemma even_step env sys turn :
  isTimeout (snd turn) = false ->
  slots (uploadQueue sys) = runningIds (uploadQueue sys) ->
  slots (uploadQueue (step env sys turn)) = runningIds (uploadQueue (step env sys turn)).
Proof.
  intros Hno T. unfold step. destruct turn as [now a]. cbn [fst snd] in *.
  destruct a as [req|inst sid|inst sid|sid|id g p|id|i|c|c]; try discriminate Hno.
  - destruct (sessions sys !! uuid req); exact T.
  - unfold execute. destruct (guard inst sid (sessions sys)) as [e|se]; [exact T|].
    cbn [snd]. destruct (length (files se) =? 0)%nat;
      cbn [uploadQueue Server.withQueue]; eapply even_grows; try exact T; apply grows_addAll.
  - exact T.
  - exact T.
  - assert (T' : slots (fst (settle now id g p (uploadQueue sys)))
                 = runningIds (fst (settle now id g p (uploadQueue sys)))).
    { destruct (findBody id (uploadQueue sys)) as [j|] eqn:E.
      - eapply even_ends; [exact T | eapply ends_settle, E].
      - unfold settle. rewrite E. exact T. }
    destruct (settle now id g p (uploadQueue sys)) as [q promise]. cbn [fst] in T'.
    destruct promise; exact T'.
  - cbn [uploadQueue Server.withQueue]. eapply even_grows; [exact T | apply grows_fireTimer].
  - exact T.
  - exact T.
Qed.

Lemma even_run env turns :
  Forall (fun turn => isTimeout (snd turn) = false) turns ->
  slots (uploadQueue (run env turns (boot env)))
  = runningIds (uploadQueue (run env turns (boot env))).
Proof.
  unfold run.
  assert (H : slots (uploadQueue (boot env)) = runningIds (uploadQueue (boot env)))
    by reflexivity.
  revert H. generalize (boot env).
  induction turns as [|turn turns IH]; intros sys Hs Hno; [exact Hs|].
  apply Forall_cons in Hno as [H1 H2].
  cbn [fold_left]. apply IH; [apply even_step; assumption | exact H2].
Qed.

(** X7: however the requests, the answers of GitHub, the queue's
    timeouts and the resume timers interleave, the number of running
    jobs that the shared queue of the server reports ([pendingJobs] of
    [getStats()]) never exceeds the configured concurrency, which is at
    least one, and each of these jobs has its entry in [activeUploads]
    (job ids being distinct). *)
Theorem running_jobs_never_exceed_concurrency env turns :
  let r := getStats (uploadQueue (run env turns (boot env))) in
  pendingJobs r <= concurrencyOf env
  /\ 1 <= concurrencyOf env
  /\ pendingJobs r <= activeJobs r.
Proof.
  cbv zeta. pose proof (books_run env turns) as T. pose proof (held_run env turns) as H.
  unfold books in T. set (q := uploadQueue (run env turns (boot env))) in *.
  unfold getStats, PQueue.pending. cbn [pendingJobs activeJobs].
  rewrite (tidy_activeJobs _ _ _ T), (tidy_pending _ _ _ T).
  split; [exact (tidy_bound _ _ _ T)|]. split.
  - unfold concurrencyOf, defaultConcurrency.
    destruct (Env.UPLOAD_CONCURRENCY env) as [[|k]|]; lia.
  - rewrite <- (length_map jobId (bodies q)). apply submseteq_length, NoDup_submseteq.
    + pose proof (tidy_slots _ _ _ T) as N. apply NoDup_app in N. apply N.
    + intros x Hx. unfold held in H. rewrite Forall_forall in H. exact (H x Hx).
Qed.

(** X8: in every state of the server the counters that [getStats()]
    reports account for each submitted job exactly once: [totalJobs] is
    the number of [addUploadJob] calls that /execute has made, and it is
    the sum of the completed jobs, the failed jobs, the waiting jobs
    ([queueSize]) and the jobs whose body is running ([activeJobs]). *)
Theorem every_submitted_job_is_counted_once env turns :
  let sys := run env turns (boot env) in
  let r := getStats (uploadQueue sys) in
  totalJobs (counters r) = nextJob sys
  /\ totalJobs (counters r)
     = completedJobs (counters r) + failedJobs (counters r) + queueSize r + activeJobs r.
Proof.
  cbv zeta. pose proof (books_run env turns) as T. unfold books in T.
  set (sys := run env turns (boot env)) in *.
  unfold getStats, PQueue.size. cbn [counters queueSize activeJobs].
  rewrite (tidy_activeJobs _ _ _ T).
  split; [exact (tidy_next _ _ _ T) | exact (tidy_total _ _ _ T)].
Qed.

(** X9: as long as no job runs into the queue's timeout, the uploads in
    flight are exactly the jobs that hold a slot of the queue: the size
    of [activeUploads] equals [pendingJobs], so at most [concurrency]
    uploads are in flight at any time. *)
Theorem without_timeout_uploads_in_flight_are_bounded env turns :
  Forall (fun turn => isTimeout (snd turn) = false) turns ->
  let r := getStats (uploadQueue (run env turns (boot env))) in
  activeJobs r = pendingJobs r /\ activeJobs r <= concurrencyOf env.
Proof.
  intros Hno. cbv zeta. pose proof (books_run env turns) as T.
  pose proof (even_run env turns Hno) as E.
  unfold books in T. set (q := uploadQueue (run env turns (boot env))) in *.
  unfold getStats, PQueue.pending. cbn [pendingJobs activeJobs].
  rewrite (tidy_activeJobs _ _ _ T), (tidy_pending _ _ _ T).
  assert (L : length (bodies q) = length (slots q)).
  { rewrite E. unfold runningIds. rewrite length_map. reflexivity. }
  split; [exact L|]. rewrite L. exact (tidy_bound _ _ _ T).
Qed.

(** Seven files on two slots, cancelled and then answered one by one. *)
Lemma without_timeout_witness :
  let turns := [ (10%Z, PostStart (ServerScenario.uploadOf ServerScenario.sevenFiles "s1"));
                 (20%Z, PostExecute (Some 7) "s1");
                 (30%Z, PostCancel (Some 7) "s1");
                 (40%Z, ServerScenario.answered 0) ] in
  Forall (fun turn => isTimeout (snd turn) = false) turns
  /\ (let r := getStats (uploadQueue (run ServerScenario.twoSlots turns
                                          (boot ServerScenario.twoSlots))) in
      activeJobs r = pendingJobs r /\ activeJobs r <= concurrencyOf ServerScenario.twoSlots).
Proof.
  cbv zeta. split.
  - repeat constructor.
  - apply (without_timeout_uploads_in_flight_are_bounded ServerScenario.twoSlots).
    repeat constructor.
Defined.

End ServerBooks.

Section JobBodyFacts.
Import JsNum UploadQueue Observe Accounting.

Lemma checkRateLimits_frame h st :
  queue (checked h st) = queue st
  /\ activeUploads (checked h st) = activeUploads st
  /\ stats (checked h st) = stats st
  /\ timers (checked h st) = timers st
  /\ bodies (checked h st) = bodies st
  /\ slots (checked h st) = slots st.
Proof.
  unfold checked, checkRateLimits.
  destruct (lt _ _); [destruct (isTimeValue _)|]; repeat split; reflexivity.
Qed.

Lemma checked_emitted h st st2 :
  emitted st2 = emitted st -> emitted (checked h st2) = emitted (checked h st).
Proof.
  intros E. unfold checked, checkRateLimits.
  destruct (lt _ _); [destruct (isTimeValue _)|]; cbn; rewrite ?E; reflexivity.
Qed.

(** A write that succeeds for a job whose entry is gone ends in the
    [catch] block, whether or not [checkRateLimits] throws. *)
Lemma succeeded_without_entry now j h st :
  activeUploads st !! jobId j = None ->
  succeeded now j h st = caught now j None (checked h st).
Proof.
  intros Ha. unfold succeeded, checked.
  destruct (checkRateLimits h st) as [st1|] eqn:E; [|reflexivity].
  cbn [default from_option].
  assert (H1 : activeUploads st1 = activeUploads st).
  { pose proof (checkRateLimits_frame h st) as (_ & H & _). unfold checked in H.
    rewrite E in H. exact H. }
  rewrite H1, Ha. reflexivity.
Qed.

Lemma benign_body now j g h st :
  benign g = true ->
  body now j g (PutDone h) st
  = withActive (delete (jobId j) (activeUploads (succeeded now j h st))) (succeeded now j h st).
Proof.
  intros Hg. unfold body. destruct g as [sha|r]; [reflexivity|].
  cbn [benign] in Hg. rewrite Hg. reflexivity.
Qed.

Lemma release_cleared now id st :
  PQueue.queue (queue st) = [] ->
  emitted (fst (release now id st)) = emitted st
  /\ stats (fst (release now id st)) = stats st.
Proof.
  intros Hq. rewrite release_eq. destruct (bool_decide _); [|split; reflexivity].
  unfold PQueue.next, PQueue.tryToStartAnother. cbn [PQueue.queue]. rewrite Hq.
  cbn [fst snd started]. split; reflexivity.
Qed.

(** X10: [clear()] empties [activeUploads] and the counters but does not
    stop the jobs that are running.  When GitHub then accepts the write
    of such a job, the job finds no entry of its own to read its start
    time from: it is counted as failed, not as completed, and a jobError
    event without a status is emitted instead of jobComplete, so that
    the counters read 0 jobs in total and 1 failed.  Before that event
    comes the warning of [checkRateLimits] if it is due and the reset
    time is usable; if [checkRateLimits] throws, nothing comes before
    it. *)
Theorem write_after_clear_is_counted_failed now id j g h st :
  findBody id st = Some j ->
  benign g = true ->
  let st' := fst (settle now id g (PutDone h) (clear st)) in
  stats st' = MkStats 0 0 1 0
  /\ emitted st'
     = emitted (default st (checkRateLimits h st))
       ++ [jobError (jobId j) (jobSession j) (path (jobFile j)) None].
Proof.
  intros Hf Hg. cbv zeta. unfold settle.
  assert (Hf' : findBody id (clear st) = Some j) by exact Hf.
  rewrite Hf'. rewrite (benign_body _ _ _ _ _ Hg).
  set (st0 := withBodies _ (clear st)).
  rewrite (succeeded_without_entry now j h st0) by apply lookup_empty.
  set (st1 := withActive _ _).
  destruct (checkRateLimits_frame h st0) as (Hq & _ & Hst & _).
  destruct (release_cleared now id st1) as [He Ht].
  { subst st1. unfold caught. cbn [isRateLimit withActive emit withStats queue].
    rewrite Hq. reflexivity. }
  rewrite He, Ht. subst st1. unfold caught.
  cbn [isRateLimit withActive emit withStats stats emitted fmap option_fmap option_map].
  rewrite Hst.
  split; [reflexivity|].
  f_equal. exact (checked_emitted h st st0 eq_refl).
Qed.

(** A running job whose write is accepted after [clear()]. *)
Lemma write_after_clear_witness :
  findBody 0 Scenario.twoRunning = Some (MkJob 0 (Scenario.fileOf "a" 0) "s")
  /\ benign Scenario.notFound = true
  /\ (let st' := fst (settle 1 0 Scenario.notFound (PutDone (Scenario.quota "4000" "1700000000"))
                             (clear Scenario.twoRunning)) in
      stats st' = MkStats 0 0 1 0
      /\ emitted st' = emitted Scenario.twoRunning
                       ++ [jobError 0 "s" (path (Scenario.fileOf "a" 0)) None]).
Proof.
  split; [reflexivity|]. split; [reflexivity|].
  destruct (write_after_clear_is_counted_failed 1 0 (MkJob 0 (Scenario.fileOf "a" 0) "s")
              Scenario.notFound (Scenario.quota "4000" "1700000000") Scenario.twoRunning
              eq_refl eq_refl) as (H1 & H2).
  split; [exact H1 | exact H2].
Defined.

Lemma calm_trans st1 st2 st3 : calm st1 st2 -> calm st2 st3 -> calm st1 st3.
Proof.
  intros (A1 & A2 & A3 & A4) (B1 & B2 & B3 & B4). repeat split; congruence.
Qed.

Lemma calm_checked h st : calm st (checked h st).
Proof.
  unfold checked, checkRateLimits, calm.
  destruct (lt _ _); [destruct (isTimeValue _)|]; cbn; unfold count;
    rewrite ?List.filter_app, ?length_app; cbn; repeat split; try reflexivity; lia.
Qed.

Lemma calm_caught now j r st : isRateLimit r = false -> calm st (caught now j r st).
Proof.
  intros H. unfold caught, calm. rewrite H.
  cbn [emit withStats withActive queue timers stats emitted rateLimitHits].
  rewrite count_app, count_one. cbn [isExceeded]. repeat split; try reflexivity; lia.
Qed.

Lemma calm_succeeded now j h st : calm st (succeeded now j h st).
Proof.
  pose proof (calm_checked h st) as C. unfold succeeded, checked in *.
  destruct (checkRateLimits h st) as [st1|]; cbn [default from_option] in C;
    [|apply calm_caught; reflexivity].
  eapply calm_trans; [exact C|].
  destruct (activeUploads st1 !! jobId j).
  - unfold calm. cbn. unfold count. rewrite List.filter_app, length_app. cbn.
    repeat split; try reflexivity; lia.
  - apply calm_caught. reflexivity.
Qed.

Lemma calm_release now id st : calm st (fst (release now id st)).
Proof.
  rewrite release_eq. destruct (bool_decide _); [|repeat split; reflexivity].
  cbn [fst].
  destruct (starts_started now (fst (PQueue.next (queue st)))
              (withQueue (snd (PQueue.next (queue st)))
                         (withSlots (List.filter (fun x => negb (Nat.eqb x id)) (slots st)) st)))
    as [E _ _ T S _].
  pose proof (next_keeps_pause (queue st)) as P.
  unfold calm. rewrite E, T, S, count_app, count_starts by reflexivity.
  split; [|repeat split; cbn [withQueue withSlots timers stats emitted]; lia].
  destruct (PQueue.next (queue st)) as [[j|] q]; cbn [fst snd started] in *; exact P.
Qed.

(** X11: only an exhausted quota stops the queue.  When neither request
    of a job is rejected with status 403 and [x-ratelimit-remaining]
    ["0"] (the write succeeds, whatever its rate-limit headers say, or a
    request fails with another status, with other headers or without a
    response), the job does not pause the queue, sets no resume timer,
    counts no rate-limit hit and emits no rateLimitExceeded event. *)
Theorem only_exhausted_quota_pauses now id g p st :
  (forall r, g = GetRejected r -> isRateLimit r = false) ->
  (forall r, p = PutRejected r -> isRateLimit r = false) ->
  let st' := fst (settle now id g p st) in
  PQueue.isPaused (queue st') = PQueue.isPaused (queue st)
  /\ timers st' = timers st
  /\ rateLimitHits (stats st') = rateLimitHits (stats st)
  /\ count isExceeded (emitted st') = count isExceeded (emitted st).
Proof.
  intros Hg Hp. cbv zeta. change (calm st (fst (settle now id g p st))).
  unfold settle. destruct (findBody id st) as [j|]; [|repeat split; reflexivity].
  eapply calm_trans; [|apply calm_release].
  set (st0 := withBodies _ st).
  apply (calm_trans st st0); [repeat split; reflexivity|].
  unfold body.
  assert (Hput : calm st0 match p with
                          | PutDone h => succeeded now j h st0
                          | PutRejected r' => caught now j r' st0
                          end).
  { destruct p as [h|r']; [apply calm_succeeded | apply calm_caught, (Hp r'); reflexivity]. }
  assert (Hfin : forall s, calm st0 s -> calm st0 (withActive (delete (jobId j) (activeUploads s)) s)).
  { intros s H. exact H. }
  apply Hfin. destruct g as [sha|r]; [exact Hput|].
  destruct (bool_decide _); [exact Hput|]. apply calm_caught, (Hg r). reflexivity.
Qed.

(** The write of a running job is rejected with status 500. *)
Lemma only_exhausted_quota_witness :
  let g := Scenario.notFound in
  let p := PutRejected (Some (MkResponse 500 (Scenario.quota "0" "1700000000"))) in
  (forall r, g = GetRejected r -> isRateLimit r = false)
  /\ (forall r, p = PutRejected r -> isRateLimit r = false)
  /\ (let st' := fst (settle 1 0 g p Scenario.twoRunning) in
      PQueue.isPaused (queue st') = PQueue.isPaused (queue Scenario.twoRunning)
      /\ timers st' = timers Scenario.twoRunning
      /\ rateLimitHits (stats st') = rateLimitHits (stats Scenario.twoRunning)
      /\ count isExceeded (emitted st') = count isExceeded (emitted Scenario.twoRunning)).
Proof.
  cbv zeta.
  assert (Hg : forall r, Scenario.notFound = GetRejected r -> isRateLimit r = false).
  { intros r H. inversion H. reflexivity. }
  assert (Hp : forall r, PutRejected (Some (MkResponse 500 (Scenario.quota "0" "1700000000")))
                         = PutRejected r -> isRateLimit r = false).
  { intros r H. inversion H. reflexivity. }
  split; [exact Hg|]. split; [exact Hp|].
  exact (only_exhausted_quota_pauses 1 0 _ _ Scenario.twoRunning Hg Hp).
Defined.

End JobBodyFacts.

Section SessionFacts.
Import UploadQueue Observe Routes Server Accounting Books.

Lemma stats_addUploadJob now n fd sid st :
  totalJobs (UploadQueue.stats (addUploadJob now n fd sid st))
  = S (totalJobs (UploadQueue.stats st)).
Proof.
  rewrite addUploadJob_eq. cbv zeta.
  match goal with
  | |- context [started now ?oj ?s] => destruct (starts_started now oj s) as [_ _ _ _ S _]
  end.
  rewrite S. reflexivity.
Qed.

Lemma stats_addAll now sid fs : forall first index q,
  totalJobs (UploadQueue.stats (addAll now first index sid fs q))
  = totalJobs (UploadQueue.stats q) + length fs.
Proof.
  induction fs as [|f fs IH]; intros first index q; cbn [addAll length]; [lia|].
  rewrite IH, stats_addUploadJob. lia.
Qed.

(** X12: /execute looks at the installation of the session, not at its
    status.  Every accepted call submits every file of the session to
    the queue, so a session that is uploading, completed or cancelled is
    uploaded again in full: [totalJobs] grows by the number of files, the
    status is set to uploading and a new completion callback waits for
    the new jobs. *)
Theorem execute_submits_every_file_whatever_the_status now inst sid sys se :
  guard inst sid (sessions sys) = inr se ->
  files se <> [] ->
  let sys' := snd (execute now inst sid sys) in
  fst (execute now inst sid sys) = ReplyOk
  /\ totalJobs (UploadQueue.stats (uploadQueue sys'))
     = totalJobs (UploadQueue.stats (uploadQueue sys)) + length (files se)
  /\ Routes.status <$> (sessions sys' !! sid) = Some Uploading
  /\ watches sys' = watches sys ++ [(sid, seq (nextJob sys) (length (files se)))].
Proof.
  intros Hg Hne. cbv zeta. unfold execute. rewrite Hg. cbn [fst snd].
  destruct (length (files se) =? 0)%nat eqn:E.
  { apply Nat.eqb_eq, length_zero_iff_nil in E. contradiction. }
  cbn [uploadQueue Server.withQueue sessions watches nextJob].
  split; [reflexivity|]. split; [apply stats_addAll|]. split; [|reflexivity].
  rewrite lookup_insert_eq. reflexivity.
Qed.

(** The cancelled session of seven files is executed again. *)
Lemma execute_again_witness :
  let se := MkSession ServerScenario.sevenFiles
                      (MkConfig "o" "r" "main" "" "Upload files" "token" 7)
                      (Some "upload_1"%string) 10 Cancelled (MkSessionStats 7 0 0)
                      None (Some 30%Z) in
  let sys := ServerScenario.cancelledRun in
  guard (Some 7) "s1" (sessions sys) = inr se
  /\ files se <> []
  /\ (let sys' := snd (execute 40 (Some 7) "s1" sys) in
      fst (execute 40 (Some 7) "s1" sys) = ReplyOk
      /\ totalJobs (UploadQueue.stats (uploadQueue sys'))
         = totalJobs (UploadQueue.stats (uploadQueue sys)) + length (files se)
      /\ Routes.status <$> (sessions sys' !! "s1"%string) = Some Uploading
      /\ watches sys' = watches sys ++ [("s1"%string, seq (nextJob sys) (length (files se)))]).
Proof.
  cbv zeta.
  assert (Hg : guard (Some 7) "s1" (sessions ServerScenario.cancelledRun)
               = inr (MkSession ServerScenario.sevenFiles
                                (MkConfig "o" "r" "main" "" "Upload files" "token" 7)
                                (Some "upload_1"%string) 10 Cancelled (MkSessionStats 7 0 0)
                                None (Some 30%Z))) by (vm_compute; reflexivity).
  split; [exact Hg|]. split; [discriminate|].
  exact (execute_submits_every_file_whatever_the_status 40 (Some 7) "s1" _ _ Hg
           ltac:(discriminate)).
Defined.


Lemma guard_refuses inst sid (ss : gmap string Session) :
  (forall se, ss !! sid = Some se -> inst <> Some (installationId (config se))) ->
  exists code msg, (code = 401 \/ code = 403 \/ code = 404)
                   /\ guard inst sid ss = inl (ReplyError code msg).
Proof.
  intros H. unfold guard. destruct (noInstallation inst).
  { eexists _, _. split; [left; reflexivity | reflexivity]. }
  destruct (ss !! sid) as [se|] eqn:E.
  - destruct (bool_decide _) eqn:B.
    + apply bool_decide_eq_true in B. exfalso. apply (H se eq_refl). symmetry. exact B.
    + eexists _, _. split; [right; left; reflexivity | reflexivity].
  - eexists _, _. split; [right; right; reflexivity | reflexivity].
Qed.

(** X13: a session answers only to the installation that started it.
    A request for /execute, /status or /cancel that names an unknown
    session, or that comes from a client whose installation is missing
    or is not the one stored with the session, is answered with 401, 403
    or 404, and it changes nothing: no job is submitted and the session
    keeps its status. *)
Theorem foreign_installation_is_refused env now inst sid sys :
  (forall se, sessions sys !! sid = Some se -> inst <> Some (installationId (config se))) ->
  step env sys (now, PostExecute inst sid) = sys
  /\ step env sys (now, PostCancel inst sid) = sys
  /\ exists code, (code = 401 \/ code = 403 \/ code = 404)
       /\ (exists msg, fst (execute now inst sid sys) = ReplyError code msg)
       /\ (exists msg, fst (cancel now inst sid (sessions sys)) = ReplyError code msg)
       /\ (exists msg, statusOf inst sid (sessions sys) = inl (ReplyError code msg)).
Proof.
  intros H. destruct (guard_refuses inst sid (sessions sys) H) as (code & msg & Hc & Hg).
  unfold step, execute, cancel, statusOf. cbn [fst snd]. rewrite Hg. cbn [fst snd].
  split; [reflexivity|]. split; [destruct sys; reflexivity|].
  exists code. split; [exact Hc|]. repeat split; exists msg; reflexivity.
Qed.

(** Installation 8 asks for the session of installation 7. *)
Lemma foreign_installation_witness :
  let sys := ServerScenario.cancelledRun in
  (forall se, sessions sys !! "s1"%string = Some se -> Some 8 <> Some (installationId (config se)))
  /\ step ServerScenario.twoSlots sys (50%Z, PostExecute (Some 8) "s1") = sys
  /\ step ServerScenario.twoSlots sys (50%Z, PostCancel (Some 8) "s1") = sys.
Proof.
  cbv zeta.
  assert (H : forall se, sessions ServerScenario.cancelledRun !! "s1"%string = Some se ->
                         Some 8 <> Some (installationId (config se))).
  { intros se Hse. vm_compute in Hse. injection Hse as <-. discriminate. }
  split; [exact H|].
  destruct (foreign_installation_is_refused ServerScenario.twoSlots 50 (Some 8) "s1"
              ServerScenario.cancelledRun H) as (H1 & H2 & _).
  split; [exact H1 | exact H2].
Defined.

Lemma sameUpload_refl se : sameUpload se se.
Proof. repeat split. Qed.

Lemma sameUpload_trans a b c : sameUpload a b -> sameUpload b c -> sameUpload a c.
Proof. intros (A1 & A2 & A3 & A4) (B1 & B2 & B3 & B4). repeat split; congruence. Qed.

Lemma keeps_refl ss : keeps ss ss.
Proof. intros sid se H. exists se. split; [exact H | apply sameUpload_refl]. Qed.

Lemma keeps_trans a b c : keeps a b -> keeps b c -> keeps a c.
Proof.
  intros H1 H2 sid se H. destruct (H1 sid se H) as (se1 & E1 & S1).
  destruct (H2 sid se1 E1) as (se2 & E2 & S2). exists se2.
  split; [exact E2 | exact (sameUpload_trans _ _ _ S1 S2)].
Qed.

Lemma keeps_alter f sid (ss : gmap string Session) :
  (forall se, sameUpload se (f se)) -> keeps ss (alter f sid ss).
Proof.
  intros Hf k se H. rewrite lookup_alter. case_decide as E.
  - subst. rewrite H. exists (f se). split; [reflexivity | apply Hf].
  - exists se. split; [exact H | apply sameUpload_refl].
Qed.

Lemma keeps_insert sid se0 se1 (ss : gmap string Session) :
  ss !! sid = Some se0 -> sameUpload se0 se1 -> keeps ss (<[sid := se1]> ss).
Proof.
  intros H0 Hs k se H. destruct (decide (k = sid)) as [->|Hne].
  - rewrite lookup_insert_eq. exists se1. split; [reflexivity|]. congruence.
  - rewrite lookup_insert_ne by congruence. exists se. split; [exact H | apply sameUpload_refl].
Qed.

Lemma keeps_fresh sid se1 (ss : gmap string Session) :
  ss !! sid = None -> keeps ss (<[sid := se1]> ss).
Proof.
  intros H0 k se H. destruct (decide (k = sid)) as [->|Hne]; [congruence|].
  rewrite lookup_insert_ne by congruence. exists se. split; [exact H | apply sameUpload_refl].
Qed.

Lemma keeps_allSettled now sid ss : keeps ss (allSettled now sid ss).
Proof. apply keeps_alter. intros se. repeat split. Qed.

Lemma keeps_fold now (done : list (string * list nat)) : forall ss0 ss,
  keeps ss0 ss -> keeps ss0 (fold_left (fun ss w => allSettled now (fst w) ss) done ss).
Proof.
  induction done as [|w done IH]; intros ss0 ss S; [exact S|].
  cbn [fold_left]. apply IH. eapply keeps_trans; [exact S | apply keeps_allSettled].
Qed.

Lemma keeps_settled now id sys : keeps (sessions sys) (sessions (settled now id sys)).
Proof. cbn [settled sessions]. apply keeps_fold, keeps_refl. Qed.

Lemma keeps_start env now req ss :
  ss !! uuid req = None -> keeps ss (snd (Routes.start env now req ss)).
Proof.
  intros Hfresh. unfold Routes.start.
  repeat match goal with
         | |- context [if ?b then _ else _] => destruct b; cbn [snd]; try apply keeps_refl
         | |- context [match ?x with _ => _ end] => destruct x; cbn [snd]; try apply keeps_refl
         end.
  apply keeps_fresh, Hfresh.
Qed.

Lemma keeps_step env sys turn : keeps (sessions sys) (sessions (step env sys turn)).
Proof.
  unfold step. destruct turn as [now a]. cbn [fst snd].
  destruct a as [req|inst sid|inst sid|sid|id g p|id|i|c|c];
    try apply keeps_refl.
  - destruct (sessions sys !! uuid req) eqn:E; [apply keeps_refl|].
    cbn [sessions]. apply keeps_start, E.
  - unfold execute. destruct (guard inst sid (sessions sys)) as [e|se] eqn:Eg;
      [apply keeps_refl|]. apply guard_session in Eg. cbn [snd].
    assert (K : keeps (sessions sys) (<[sid := withStatus Uploading se]> (sessions sys))).
    { eapply keeps_insert; [exact Eg | repeat split]. }
    destruct (length (files se) =? 0)%nat; cbn [sessions]; [|exact K].
    eapply keeps_trans; [exact K | apply keeps_allSettled].
  - unfold cancel. destruct (guard inst sid (sessions sys)) as [e|se] eqn:Eg;
      cbn [snd sessions]; [apply keeps_refl|]. apply guard_session in Eg.
    eapply keeps_insert; [exact Eg | repeat split].
  - assert (K : forall q, keeps (sessions sys) (sessions (settled now id (Server.withQueue q sys))))
      by (intros q; exact (keeps_settled now id (Server.withQueue q sys))).
    destruct (settle now id g p (uploadQueue sys)) as [q promise].
    destruct promise; [apply K | apply keeps_refl].
  - assert (K : forall q, keeps (sessions sys) (sessions (settled now id (Server.withQueue q sys))))
      by (intros q; exact (keeps_settled now id (Server.withQueue q sys))).
    destruct (timeoutJob now id (uploadQueue sys)) as [q promise].
    destruct promise; [apply K | apply keeps_refl].
Qed.

Lemma keeps_run env turns : forall sys, keeps (sessions sys) (sessions (run env turns sys)).
Proof.
  unfold run. induction turns as [|turn turns IH]; intros sys; [apply keeps_refl|].
  cbn [fold_left]. eapply keeps_trans; [apply keeps_step | apply IH].
Qed.

(** X14: the server never forgets a session and never changes what
    /start stored in it.  Whatever happens after a session was stored
    (requests of any client, answers of GitHub, timeouts, completion,
    cancellation), the session is still there with the same files, the
    same configuration (the installation token fetched by /start
    included), the same temporary directory and the same start time. *)
Theorem sessions_are_kept_as_started env turns sys sid se :
  sessions sys !! sid = Some se ->
  exists se', sessions (run env turns sys) !! sid = Some se'
              /\ files se' = files se
              /\ config se' = config se
              /\ tempId se' = tempId se
              /\ startedAt se' = startedAt se.
Proof.
  intros H. destruct (keeps_run env turns sys sid se H) as (se' & E & S).
  exists se'. split; [exact E | exact S].
Qed.


(** The cancelled session of seven files, after one of its jobs is
    answered. *)
Lemma sessions_are_kept_witness :
  let se := MkSession ServerScenario.sevenFiles
                      (MkConfig "o" "r" "main" "" "Upload files" "token" 7)
                      (Some "upload_1"%string) 10 Cancelled (MkSessionStats 7 0 0)
                      None (Some 30%Z) in
  sessions ServerScenario.cancelledRun !! "s1"%string = Some se
  /\ exists se', sessions (run ServerScenario.twoSlots [(40%Z, ServerScenario.answered 0)]
                               ServerScenario.cancelledRun) !! "s1"%string = Some se'
                 /\ files se' = files se
                 /\ config se' = config se
                 /\ tempId se' = tempId se
                 /\ startedAt se' = startedAt se.
Proof.
  cbv zeta.
  assert (H : sessions ServerScenario.cancelledRun !! "s1"%string
              = Some (MkSession ServerScenario.sevenFiles
                                (MkConfig "o" "r" "main" "" "Upload files" "token" 7)
                                (Some "upload_1"%string) 10 Cancelled (MkSessionStats 7 0 0)
                                None (Some 30%Z))) by (vm_compute; reflexivity).
  split; [exact H|].
  exact (sessions_are_kept_as_started ServerScenario.twoSlots
           [(40%Z, ServerScenario.answered 0)] ServerScenario.cancelledRun "s1" _ H).
Defined.

Lemma uploadable_same se se' : sameUpload se se' -> uploadable se -> uploadable se'.
Proof.
  intros (F & C & _ & _). unfold uploadable. rewrite F, C. exact (fun H => H).
Qed.

Lemma orElse_nonempty x d : d <> ""%string -> orElse x d <> ""%string.
Proof.
  intros Hd. unfold orElse. destruct x as [s|]; [|exact Hd].
  case_bool_decide; assumption.
Qed.

Lemma missing_default x : missing x = false -> default ""%string x <> ""%string.
Proof.
  unfold missing. destruct x as [s|]; [|discriminate]. cbn [default from_option].
  intros H. apply bool_decide_eq_false in H. exact H.
Qed.

Lemma noInstallation_default x : noInstallation x = false -> default 0 x <> 0.
Proof. destruct x as [[|n]|]; cbn; [discriminate | intros _; discriminate | discriminate]. Qed.

Lemma valid_filter (fs : list FileScanner.File) :
  Forall (fun file => PathSanitizer.isValidPath (FileScanner.path file) = true)
         (List.filter (fun file => PathSanitizer.isValidPath (FileScanner.path file)) fs).
Proof.
  apply Forall_forall. intros f Hf. apply list_elem_of_In, filter_In in Hf. apply Hf.
Qed.

(** What /start stores is uploadable, and it stores nothing otherwise. *)
Lemma start_uploadable env now req ss :
  map_Forall (fun _ se => uploadable se) ss ->
  map_Forall (fun _ se => uploadable se) (snd (Routes.start env now req ss)).
Proof.
  intros S. unfold Routes.start.
  destruct (noInstallation (reqInstallation req)) eqn:E1; [exact S|].
  destruct (negb _); [exact S|].
  destruct (from_option _ false (reqFile req)); [exact S|].
  destruct (missing (reqOwner req) || missing (reqRepo req)) eqn:E2; [exact S|].
  apply orb_false_iff in E2 as [Eo Er].
  destruct (reqFile req) as [file|]; [|exact S].
  destruct (tokenAnswer req) as [token|]; [|exact S].
  destruct (_ || _); [|exact S].
  destruct (extractAnswer req) as [[fs tmp]|]; [|exact S].
  destruct (length _ =? 0)%nat eqn:E3; [exact S|]. cbn [snd].
  apply map_Forall_insert_2; [|exact S].
  unfold uploadable. cbn [files config installationId owner repo branch].
  split; [intros E; rewrite E in E3; discriminate|].
  split; [apply valid_filter|].
  split; [apply noInstallation_default, E1|].
  split; [apply missing_default, Eo|].
  split; [apply missing_default, Er|].
  apply orElse_nonempty. discriminate.
Qed.

Lemma uploadable_alter f sid (ss : gmap string Session) :
  (forall se, sameUpload se (f se)) ->
  map_Forall (fun _ se => uploadable se) ss ->
  map_Forall (fun _ se => uploadable se) (alter f sid ss).
Proof.
  intros Hf H k se. rewrite lookup_alter. case_decide as E.
  - subst. destruct (ss !! k) as [se0|] eqn:E0; [|discriminate].
    cbn. intros [= <-]. eapply uploadable_same; [apply Hf | exact (H _ _ E0)].
  - apply H.
Qed.

Lemma uploadable_settled now id sys :
  map_Forall (fun _ se => uploadable se) (sessions sys) ->
  map_Forall (fun _ se => uploadable se) (sessions (settled now id sys)).
Proof.
  cbn [settled sessions].
  generalize (List.filter (fun w : string * list nat => (length (snd w) =? 0)%nat)
                (List.map (fun w => (fst w, List.filter (fun x => negb (Nat.eqb x id)) (snd w)))
                          (watches sys))).
  intros done. generalize (sessions sys).
  induction done as [|w done IH]; intros ss S; [exact S|].
  cbn [fold_left]. apply IH. unfold allSettled. apply uploadable_alter; [|exact S].
  intros se. repeat split.
Qed.

Lemma uploadable_step env sys turn :
  map_Forall (fun _ se => uploadable se) (sessions sys) ->
  map_Forall (fun _ se => uploadable se) (sessions (step env sys turn)).
Proof.
  intros S. unfold step. destruct turn as [now a]. cbn [fst snd].
  destruct a as [req|inst sid|inst sid|sid|id g p|id|i|c|c]; try exact S.
  - destruct (sessions sys !! uuid req); [exact S|]. cbn [sessions].
    apply start_uploadable, S.
  - unfold execute. destruct (guard inst sid (sessions sys)) as [e|se] eqn:Eg; [exact S|].
    apply guard_session in Eg. cbn [snd].
    assert (S' : map_Forall (fun _ se => uploadable se)
                   (<[sid := withStatus Uploading se]> (sessions sys))).
    { apply map_Forall_insert_2; [exact (S _ _ Eg) | exact S]. }
    destruct (length (files se) =? 0)%nat; cbn [sessions]; [|exact S'].
    unfold allSettled. apply uploadable_alter; [|exact S']. intros x. repeat split.
  - unfold cancel. destruct (guard inst sid (sessions sys)) as [e|se] eqn:Eg;
      cbn [snd sessions]; [exact S|]. apply guard_session in Eg.
    apply map_Forall_insert_2; [exact (S _ _ Eg) | exact S].
  - destruct (settle now id g p (uploadQueue sys)) as [q promise].
    destruct promise; [|exact S].
    exact (uploadable_settled now id (Server.withQueue q sys) S).
  - destruct (timeoutJob now id (uploadQueue sys)) as [q promise].
    destruct promise; [|exact S].
    exact (uploadable_settled now id (Server.withQueue q sys) S).
Qed.

(** X15: every session that the server holds can be uploaded as it is:
    it has at least one file, every path in it passed [isValidPath], and
    its configuration names an installation, an owner, a repository and
    a branch.  /start is the only route that stores a session, and
    nothing the server does afterwards adds a file or changes a path. *)
Theorem stored_sessions_hold_only_valid_paths env turns :
  map_Forall
    (fun _ se =>
       files se <> []
       /\ Forall (fun file => PathSanitizer.isValidPath (FileScanner.path file) = true)
                 (files se)
       /\ installationId (config se) <> 0
       /\ owner (config se) <> ""%string
       /\ repo (config se) <> ""%string
       /\ branch (config se) <> ""%string)
    (sessions (run env turns (boot env))).
Proof.
  change (map_Forall (fun _ se => uploadable se) (sessions (run env turns (boot env)))).
  unfold run.
  assert (H : map_Forall (fun _ se => uploadable se) (sessions (boot env)))
    by apply map_Forall_empty.
  revert H. generalize (boot env).
  induction turns as [|turn turns IH]; intros sys Hs; [exact Hs|].
  cbn [fold_left]. apply IH, uploadable_step, Hs.
Qed.

End SessionFacts.

Section TokenCacheFacts.
Import GitHubAuth.

Lemma sourced_step turns c turn :
  sourced turns c -> sourced (turns ++ [turn]) (step c turn).
Proof.
  intros H id cached. destruct turn as [now [k|k [tok|]]]; unfold step; cbn [fst snd].
  - unfold cachedToken. intros Hl.
    assert (Hc : c !! id = Some cached).
    { destruct (c !! k) as [e|] eqn:E; [|exact Hl].
      destruct (now <? expiresAt e)%Z; [exact Hl|]. cbn [snd] in Hl.
      apply lookup_delete_Some in Hl. apply Hl. }
    destruct (H id cached Hc) as (t & Hin & He). exists t.
    split; [apply in_or_app; left; exact Hin | exact He].
  - unfold received. cbn [snd]. destruct (decide (id = k)) as [->|Hne].
    + rewrite lookup_insert_eq. intros [= <-]. exists now. cbn [token expiresAt].
      split; [apply in_or_app; right; left; reflexivity | lia].
    + rewrite lookup_insert_ne by congruence. intros Hc.
      destruct (H id cached Hc) as (t & Hin & He). exists t.
      split; [apply in_or_app; left; exact Hin | exact He].
  - unfold received. cbn [snd]. intros Hc.
    destruct (H id cached Hc) as (t & Hin & He). exists t.
    split; [apply in_or_app; left; exact Hin | exact He].
Qed.

Lemma sourced_run turns : sourced turns (run turns).
Proof.
  unfold run. induction turns as [|turn turns IH] using rev_ind.
  - intros id cached H. cbn [fold_left] in H. unfold create in H.
    rewrite lookup_empty in H. discriminate.
  - rewrite fold_left_app. cbn [fold_left]. apply sourced_step, IH.
Qed.

(** X16: a token that [getInstallationToken] returns from its cache,
    after any history of calls and answers, is a token that GitHub
    answered for the same installation, and that answer arrived less
    than 59 minutes (3 540 000 ms) before by the clock of the server. *)
Theorem cached_token_is_younger_than_59_minutes turns now installationId tok :
  fst (cachedToken now installationId (run turns)) = Some tok ->
  exists t, In (t, Answered installationId (Some tok)) turns
            /\ (now < t + 3540000)%Z.
Proof.
  unfold cachedToken. intros H.
  destruct (run turns !! installationId) as [cached|] eqn:E; [|discriminate].
  destruct (now <? expiresAt cached)%Z eqn:L; [|discriminate].
  cbn [fst] in H. injection H as <-.
  destruct (sourced_run turns installationId cached E) as (t & Hin & He).
  exists t. split; [exact Hin|]. apply Z.ltb_lt in L. lia.
Qed.

(** A token for installation 7 arrives at 1000 and is asked for again
    half an hour later. *)
Lemma cached_token_witness :
  let turns := [ (900%Z, Called 7); (1000%Z, Answered 7 (Some "ghs_1"%string)) ] in
  fst (cachedToken 1801000 7 (run turns)) = Some "ghs_1"%string
  /\ exists t, In (t, Answered 7 (Some "ghs_1"%string)) turns /\ (1801000 < t + 3540000)%Z.
Proof.
  cbv zeta.
  assert (H : fst (cachedToken 1801000 7
                     (run [ (900%Z, Called 7); (1000%Z, Answered 7 (Some "ghs_1"%string)) ]))
              = Some "ghs_1"%string) by (vm_compute; reflexivity).
  split; [exact H|].
  exact (cached_token_is_younger_than_59_minutes _ 1801000 7 "ghs_1" H).
Defined.

End TokenCacheFacts.

Section InstallFacts.
Import Install.



(** X18: the state check compares with [req.session.installState]
    whatever its value.  While no issued state is pending, a client can
    pass it without ever having asked for /start: a request without
    [state] passes on a new session, and a request with [state: null]
    passes after a verification; the session then takes the
    installation id that the request names, if GitHub knows it. *)
Theorem state_check_passes_without_issued_state n installation session :
  n <> 0 ->
  (forall state, installState session <> Issued state) ->
  exists state,
    (state = Undefined \/ state = Null)
    /\ verify (Some n) state (Found installation) session
       = (Success, MkClientSession Spent (Some n) (Some installation)).
Proof.
  intros Hn Hs. destruct n as [|n]; [contradiction|].
  destruct session as [[|s|] i info]; cbn [installState] in Hs.
  - exists Undefined. split; [left; reflexivity | reflexivity].
  - exfalso. exact (Hs s eq_refl).
  - exists Null. split; [right; reflexivity | reflexivity].
Qed.

Lemma state_check_witness :
  7 <> 0
  /\ (forall state, installState fresh <> Issued state)
  /\ exists state,
       (state = Undefined \/ state = Null)
       /\ verify (Some 7) state (Found (MkInstallation 7 "octocat")) fresh
          = (Success, MkClientSession Spent (Some 7) (Some (MkInstallation 7 "octocat"))).
Proof.
  assert (H : forall state, installState fresh <> Issued state) by (intros state; discriminate).
  split; [discriminate|]. split; [exact H|].
  apply (state_check_passes_without_issued_state 7 (MkInstallation 7 "octocat") fresh);
    [discriminate | exact H].
Defined.

Lemma confirmed_more rs r session : confirmed rs session -> confirmed (rs ++ [r]) session.
Proof.
  intros H n Hn. destruct (H n Hn) as (state & inst & Hin & Hi).
  exists state, inst. split; [apply in_or_app; left; exact Hin | exact Hi].
Qed.

Lemma confirmed_serve rs r session :
  confirmed rs session -> confirmed (rs ++ [r]) (serve session r).
Proof.
  intros H. destruct r as [state|i state answer|i]; cbn [serve].
  - intros n Hn. cbn [start installationId installationInfo] in *.
    destruct (H n Hn) as (st & inst & Hin & Hi). exists st, inst.
    split; [apply in_or_app; left; exact Hin | exact Hi].
  - unfold verify. destruct (Routes.noInstallation i); [apply confirmed_more, H|].
    destruct (differs state (installState session)); [apply confirmed_more, H|].
    destruct answer as [inst| |]; cbn [snd]; try (apply confirmed_more, H).
    intros n Hn. cbn [installationId installationInfo] in *. subst i.
    exists state, inst. split; [apply in_or_app; right; left; reflexivity | reflexivity].
  - unfold uninstall. destruct (Routes.noInstallation i); [apply confirmed_more, H|].
    destruct (bool_decide _); cbn [snd]; [|apply confirmed_more, H].
    intros n Hn. discriminate Hn.
Qed.

Lemma confirmed_serveAll rs : confirmed rs (serveAll rs fresh).
Proof.
  unfold serveAll. induction rs as [|r rs IH] using rev_ind.
  - intros n Hn. discriminate Hn.
  - rewrite fold_left_app. cbn [fold_left]. apply confirmed_serve, IH.
Qed.

(** X19: a session reports an installation only after GitHub confirmed
    it.  Whatever requests a client sends to /start, /verify and
    /uninstall, if its session then passes [requireInstallation] (and
    /status answers installed), the installation id of the session was
    named by a /verify request for which [verifyInstallation] found the
    installation, and the stored information is the one found. *)
Theorem installed_session_was_confirmed rs :
  installed (serveAll rs fresh) = true ->
  exists n state installation,
    installationId (serveAll rs fresh) = Some (S n)
    /\ installationInfo (serveAll rs fresh) = Some installation
    /\ In (PostVerify (Some (S n)) state (Found installation)) rs.
Proof.
  unfold installed. intros H.
  destruct (installationId (serveAll rs fresh)) as [[|n]|] eqn:E; try discriminate H.
  destruct (confirmed_serveAll rs (S n) E) as (state & inst & Hin & Hi).
  exists n, state, inst. repeat split; assumption.
Qed.

Lemma installed_session_witness :
  let rs := [ GetStart "k3x9";
              PostVerify (Some 7) (Str "k3x9") (Found (MkInstallation 7 "octocat"));
              PostUninstall (Some 8) ] in
  installed (serveAll rs fresh) = true
  /\ exists n state installation,
       installationId (serveAll rs fresh) = Some (S n)
       /\ installationInfo (serveAll rs fresh) = Some installation
       /\ In (PostVerify (Some (S n)) state (Found installation)) rs.
Proof.
  cbv zeta. split; [reflexivity|].
  apply (installed_session_was_confirmed
           [ GetStart "k3x9";
             PostVerify (Some 7) (Str "k3x9") (Found (MkInstallation 7 "octocat"));
             PostUninstall (Some 8) ]).
  reflexivity.
Defined.

End InstallFacts.

Section GroupFacts.
Import Js PathSanitizer FileGroups.
Context {A : Type}.
Variable name : A -> jsstring.
Variable toLowerCase : jsstring -> jsstring.

Local Abbreviation extOf := (FileGroups.extOf name toLowerCase).
Local Abbreviation groupFilesByExtension := (FileGroups.groupFilesByExtension name toLowerCase).

Lemma eqs_true (a b : jsstring) : eqs a b = true <-> a = b.
Proof. unfold eqs. apply bool_decide_eq_true. Qed.

Lemma eqs_false (a b : jsstring) : eqs a b = false <-> a <> b.
Proof. unfold eqs. apply bool_decide_eq_false. Qed.

Lemma eqs_sym (a b : jsstring) : eqs a b = eqs b a.
Proof.
  destruct (eqs b a) eqn:E.
  - apply eqs_true in E. apply eqs_true. congruence.
  - apply eqs_false in E. apply eqs_false. congruence.
Qed.

Lemma includes_In (l : list jsstring) (s : jsstring) : includes l s = true <-> In s l.
Proof.
  unfold includes. rewrite existsb_exists. split.
  - intros (x & Hx & E). apply eqs_true in E. subst. exact Hx.
  - intros H. exists s. split; [exact H | apply eqs_true; reflexivity].
Qed.

Lemma push_keys ext (file : A) groups :
  List.map fst (push ext file groups)
  = if includes (List.map fst groups) ext then List.map fst groups
    else List.map fst groups ++ [ext].
Proof.
  induction groups as [|[k fs] rest IH]; [reflexivity|].
  unfold includes in *. cbn [push List.map fst existsb]. rewrite (eqs_sym ext k).
  destruct (eqs k ext) eqn:E; cbn [orb List.map fst]; [reflexivity|].
  rewrite IH. destruct (existsb _ _); reflexivity.
Qed.

Lemma push_groupOf ext (file : A) groups k :
  groupOf k (push ext file groups)
  = groupOf k groups ++ (if eqs ext k then [file] else []).
Proof.
  induction groups as [|[k0 fs] rest IH]; unfold groupOf in *.
  - cbn [push List.find fst snd]. destruct (eqs ext k); reflexivity.
  - cbn [push]. destruct (eqs k0 ext) eqn:E; cbn [List.find fst snd].
    + apply eqs_true in E. subst k0. destruct (eqs ext k); [reflexivity|].
      destruct (List.find _ rest); rewrite app_nil_r; reflexivity.
    + destruct (eqs k0 k) eqn:E'; [|exact IH].
      apply eqs_true in E'. subst k0. rewrite (eqs_sym ext k), E, app_nil_r. reflexivity.
Qed.

Lemma push_nonempty ext (file : A) groups :
  Forall (fun g => snd g <> []) groups ->
  Forall (fun g => snd g <> []) (push ext file groups).
Proof.
  induction 1 as [|[k fs] rest Hg Hr IH]; cbn [push].
  - constructor; [discriminate | constructor].
  - destruct (eqs k ext); constructor; try assumption.
    cbn [snd]. intros E. apply app_eq_nil in E as [_ E]. discriminate.
Qed.

Lemma fold_push (files : list A) : forall groups,
  let groups' := fold_left (fun groups file => push (extOf file) file groups) files groups in
  List.map fst groups'
  = List.map fst groups ++ firstSeen (List.map extOf files) (List.map fst groups)
  /\ (forall k, groupOf k groups'
                = groupOf k groups ++ List.filter (fun file => eqs (extOf file) k) files)
  /\ (Forall (fun g => snd g <> []) groups -> Forall (fun g => snd g <> []) groups').
Proof.
  induction files as [|f files IH]; intros groups; cbv zeta.
  - cbn [fold_left List.map firstSeen List.filter]. rewrite app_nil_r.
    split; [reflexivity|]. split; [intros k; rewrite app_nil_r; reflexivity | exact (fun H => H)].
  - cbn [fold_left List.map firstSeen List.filter].
    destruct (IH (push (extOf f) f groups)) as (K & G & N). cbv zeta in K, G, N.
    split; [|split].
    + rewrite K, push_keys. destruct (includes (List.map fst groups) (extOf f)); [reflexivity|].
      rewrite <- app_assoc. reflexivity.
    + intros k. rewrite G, push_groupOf. destruct (eqs (extOf f) k); rewrite <- app_assoc;
        reflexivity.
    + intros H. apply N, push_nonempty, H.
Qed.

Lemma firstSeen_fresh keys : forall seen,
  NoDup seen -> NoDup (seen ++ firstSeen keys seen).
Proof.
  induction keys as [|k keys IH]; intros seen H; cbn [firstSeen].
  - rewrite app_nil_r. exact H.
  - destruct (includes seen k) eqn:E; [apply IH, H|].
    rewrite cons_middle, app_assoc. apply IH.
    apply NoDup_app. split; [exact H|]. split; [|apply NoDup_singleton].
    intros x Hx Hk. apply list_elem_of_singleton in Hk. subst x.
    apply list_elem_of_In, includes_In in Hx. congruence.
Qed.

Lemma groupOf_In (groups : list (jsstring * list A)) g :
  NoDup (List.map fst groups) -> In g groups -> groupOf (fst g) groups = snd g.
Proof.
  unfold groupOf. induction groups as [|g0 rest IH]; intros Hn Hin; [destruct Hin|].
  cbn [List.map] in Hn. apply NoDup_cons in Hn as [Hfresh Hn].
  cbn [List.find]. destruct (eqs (fst g0) (fst g)) eqn:E.
  - destruct Hin as [->|Hin]; [reflexivity|]. exfalso. apply Hfresh.
    apply eqs_true in E. rewrite E. apply list_elem_of_In, in_map, Hin.
  - destruct Hin as [->|Hin]; [|exact (IH Hn Hin)].
    apply eqs_false in E. congruence.
Qed.

(** The keys are ['no-extension'] or begin with a dot, as far as
    [toLowerCase] keeps the empty string and a leading dot: no key is
    the name of a property that a plain object inherits. *)
Lemma extOf_shape file :
  toLowerCase [] = [] ->
  (forall s, exists s', toLowerCase (dot :: s) = dot :: s') ->
  extOf file = lit "no-extension" \/ exists s, extOf file = dot :: s.
Proof.
  intros H0 Hd. unfold FileGroups.extOf, extname.
  destruct (lastDot (basename (name file))) as [[pre ext]|].
  - destruct (eqs pre [] || eqs (basename (name file)) (lit "..")).
    + rewrite H0. left. reflexivity.
    + destruct (Hd ext) as (s' & E). rewrite E. right. exists s'. reflexivity.
  - rewrite H0. left. reflexivity.
Qed.

(** X20: [groupFilesByExtension] sorts every file into exactly one
    group.  The keys of the result are the lower-cased extensions of the
    names (['no-extension'] for a name without one) in the order in
    which they first occur, each once; the group of a key is not empty
    and holds exactly the files with this key, in the order of the
    input; so every file of the input is in the group of its key. *)
Theorem files_are_grouped_by_extension (files : list A) :
  let groups := groupFilesByExtension files in
  List.map fst groups = firstSeen (List.map extOf files) []
  /\ NoDup (List.map fst groups)
  /\ Forall (fun g => snd g <> []
                      /\ snd g = List.filter (fun file => eqs (extOf file) (fst g)) files)
            groups
  /\ (forall file, In file files -> In file (groupOf (extOf file) groups)).
Proof.
  cbv zeta. unfold FileGroups.groupFilesByExtension.
  destruct (fold_push files []) as (K & G & N). cbv zeta in K, G, N.
  cbn [List.map app] in K.
  assert (D : NoDup (List.map fst
                       (fold_left (fun groups file => push (extOf file) file groups) files []))).
  { rewrite K. apply (firstSeen_fresh (List.map extOf files) []). constructor. }
  split; [exact K|]. split; [exact D|]. split.
  - assert (N0 : Forall (fun g : jsstring * list A => snd g <> []) []) by constructor.
    specialize (N N0). apply Forall_forall. intros g Hg.
    apply list_elem_of_In in Hg. split.
    + rewrite Forall_forall in N. apply N, list_elem_of_In, Hg.
    + rewrite <- (groupOf_In _ g D Hg), G. reflexivity.
  - intros file Hin. rewrite G. cbn [groupOf List.find app]. apply filter_In.
    split; [exact Hin | apply eqs_true; reflexivity].
Qed.

End GroupFacts.

Section FileListFacts.
Import FileScanner.

Lemma totalSize_from (files : list File) : forall z,
  fold_left (fun sum file => (sum + FileScanner.size file)%Z) files z
  = (z + totalSize files)%Z.
Proof.
  unfold totalSize. induction files as [|f files IH]; intros z; cbn [fold_left]; [lia|].
  rewrite IH, (IH (0 + FileScanner.size f)%Z). lia.
Qed.

Lemma totalSize_cons f files :
  totalSize (f :: files) = (FileScanner.size f + totalSize files)%Z.
Proof. unfold totalSize at 1. cbn [fold_left]. rewrite totalSize_from. lia. Qed.

Lemma totalSize_part (part files : list File) :
  Forall (fun file => (0 <= FileScanner.size file)%Z) files ->
  sublist part files ->
  (0 <= totalSize part <= totalSize files)%Z.
Proof.
  intros Hpos Hsub. induction Hsub as [|f part files Hsub IH|f part files Hsub IH].
  - cbn. lia.
  - apply Forall_cons in Hpos as [Hf Hpos]. rewrite !totalSize_cons.
    specialize (IH Hpos). lia.
  - apply Forall_cons in Hpos as [Hf Hpos]. rewrite totalSize_cons.
    specialize (IH Hpos). lia.
Qed.

(** X21: [validateFileList] is monotone in the list.  When no size is
    negative, a list that it accepts is still accepted, with the same
    limits, after any of its files are left out. *)
Theorem validateFileList_accepts_every_part files part maxFiles maxTotalSize :
  Forall (fun file => (0 <= FileScanner.size file)%Z) files ->
  sublist part files ->
  validateFileList files maxFiles maxTotalSize = Returned true ->
  validateFileList part maxFiles maxTotalSize = Returned true.
Proof.
  intros Hpos Hsub. unfold validateFileList.
  pose proof (sublist_length _ _ Hsub) as Hlen.
  pose proof (totalSize_part _ _ Hpos Hsub) as Hsize.
  destruct (maxFiles <? length files)%nat eqn:E1; [discriminate|].
  destruct (maxTotalSize <? totalSize files)%Z eqn:E2; [discriminate|]. intros _.
  apply Nat.ltb_ge in E1. apply Z.ltb_ge in E2.
  rewrite (proj2 (Nat.ltb_ge _ _)) by lia. rewrite (proj2 (Z.ltb_ge _ _)) by lia.
  reflexivity.
Qed.

Lemma validateFileList_witness :
  let a := MkFile (Js.lit "a.txt") 10 (Js.lit "eA==") in
  let b := MkFile (Js.lit "b.txt") 20 (Js.lit "eA==") in
  Forall (fun file => (0 <= FileScanner.size file)%Z) [a; b]
  /\ sublist [b] [a; b]
  /\ validateFileList [a; b] defaultMaxFiles defaultMaxTotalSize = Returned true
  /\ validateFileList [b] defaultMaxFiles defaultMaxTotalSize = Returned true.
Proof.
  cbv zeta.
  assert (H1 : Forall (fun file => (0 <= FileScanner.size file)%Z)
                 [MkFile (Js.lit "a.txt") 10 (Js.lit "eA==");
                  MkFile (Js.lit "b.txt") 20 (Js.lit "eA==")]).
  { repeat constructor; cbn; lia. }
  assert (H2 : sublist [MkFile (Js.lit "b.txt") 20 (Js.lit "eA==")]
                 [MkFile (Js.lit "a.txt") 10 (Js.lit "eA==");
                  MkFile (Js.lit "b.txt") 20 (Js.lit "eA==")]).
  { apply sublist_cons, sublist_skip, sublist_nil. }
  assert (H3 : validateFileList [MkFile (Js.lit "a.txt") 10 (Js.lit "eA==");
                                 MkFile (Js.lit "b.txt") 20 (Js.lit "eA==")]
                 defaultMaxFiles defaultMaxTotalSize = Returned true) by reflexivity.
  split; [exact H1|]. split; [exact H2|]. split; [exact H3|].
  exact (validateFileList_accepts_every_part _ _ _ _ H1 H2 H3).
Defined.

End FileListFacts.

Section ReposFacts.
Import Repos.
Context {Repo : Type}.

Lemma fetch_continues (github : nat -> Answer Repo) n : forall fuel page allRepos,
  (forall i, i < n -> continues github (page + i)) ->
  fetch (n + fuel) github page allRepos
  = fetch fuel github (page + n) (allRepos ++ collected github page n).
Proof.
  induction n as [|n IH]; intros fuel page allRepos H.
  - cbn [Nat.add collected]. rewrite Nat.add_0_r, app_nil_r. reflexivity.
  - destruct (H 0 ltac:(lia)) as (response & E & Hn). rewrite Nat.add_0_r in E.
    cbn [Nat.add fetch collected]. rewrite E, Hn.
    rewrite IH.
    + rewrite <- app_assoc, Nat.add_succ_r. reflexivity.
    + intros i Hi. specialize (H (S i) ltac:(lia)). rewrite Nat.add_succ_r in H. exact H.
Qed.

Lemma collected_S (github : nat -> Answer Repo) page n :
  collected github page (S n)
  = match github page with
    | Ok response => repositories response ++ collected github (S page) n
    | Rejected _ => []
    end.
Proof. reflexivity. Qed.

Lemma collected_more (github : nat -> Answer Repo) n : forall page,
  (forall i, i < n -> continues github (page + i)) ->
  collected github page (S n)
  = collected github page n
    ++ match github (page + n) with
       | Ok response => repositories response
       | Rejected _ => []
       end.
Proof.
  induction n as [|n IH]; intros page Hc.
  - cbn [collected app]. rewrite Nat.add_0_r. destruct (github page); rewrite ?app_nil_r;
      reflexivity.
  - destruct (Hc 0 ltac:(lia)) as (response & E & _). rewrite Nat.add_0_r in E.
    rewrite (collected_S github page (S n)), (collected_S github page n), E.
    rewrite (IH (S page)).
    + rewrite <- app_assoc, Nat.add_succ_r. reflexivity.
    + intros i Hi. specialize (Hc (S i) ltac:(lia)). rewrite Nat.add_succ_r in Hc.
      exact Hc.
Qed.

(** X22: GET / returns the repositories of all pages up to the first
    page without a next page, in the order of the pages, and their
    number.  If the pages 1 to [n] each name a next page and page
    [n + 1] does not, the answer after [n + 1] requests is the
    concatenation of the [n + 1] pages; if the request for page [n + 1]
    is rejected instead, the answer is an error (401 for a rejected
    token, 500 otherwise) and the repositories of the pages before are
    dropped. *)
Theorem repositories_of_all_pages_are_returned (github : nat -> Answer Repo) n fuel :
  (forall i, i < n -> continues github (1 + i)) ->
  (forall response, github (1 + n) = Ok response -> hasNext (link response) = false) ->
  getRepositories (n + S fuel) github
  = Some match github (1 + n) with
         | Ok _ => Repositories (collected github 1 (S n)) (length (collected github 1 (S n)))
         | Rejected status => failed status
         end.
Proof.
  intros Hc Hl. unfold getRepositories. rewrite fetch_continues by exact Hc.
  cbn [fetch app].
  destruct (github (1 + n)) as [response|status] eqn:E; [|reflexivity].
  rewrite (Hl response eq_refl), (collected_more github n 1 Hc), E. reflexivity.
Qed.

(** X23: the loop ends only when GitHub says so.  If every page that
    the route asks for names a next page, the route has sent no answer
    after any number of requests. *)
Theorem pagination_does_not_end_by_itself (github : nat -> Answer Repo) fuel :
  (forall page, 1 <= page -> continues github page) ->
  getRepositories fuel github = None.
Proof.
  intros H. unfold getRepositories.
  rewrite <- (Nat.add_0_r fuel), fetch_continues; [reflexivity|].
  intros i _. apply H. lia.
Qed.

End ReposFacts.

Section ReposExamples.
Import Repos.

Lemma repositories_witness :
  (forall i, i < 1 -> continues twoPages (1 + i))
  /\ (forall response, twoPages (1 + 1) = Ok response -> hasNext (link response) = false)
  /\ getRepositories (1 + 1) twoPages = Some (Repositories [11; 12; 13] 3).
Proof.
  assert (H1 : forall i, i < 1 -> continues twoPages (1 + i)).
  { intros i Hi. assert (i = 0) as -> by lia. eexists. split; reflexivity. }
  assert (H2 : forall response, twoPages (1 + 1) = Ok response -> hasNext (link response) = false).
  { intros response [= <-]. reflexivity. }
  split; [exact H1|]. split; [exact H2|].
  exact (repositories_of_all_pages_are_returned twoPages 1 0 H1 H2).
Defined.

Lemma pagination_witness :
  (forall page, 1 <= page -> continues endless page)
  /\ getRepositories 1000 endless = None.
Proof.
  assert (H : forall page, 1 <= page -> continues endless page).
  { intros page _. eexists. split; reflexivity. }
  split; [exact H|].
  exact (pagination_does_not_end_by_itself endless 1000 H).
Defined.

End ReposExamples.

Section SafeNameFacts.
Import Js PathSanitizer PathTools PathSpec.

Lemma replaced_safe s :
  Forall (fun c => isSafeChar c = true)
         (List.map (fun c => if isSafeChar c then c else underscore) s).
Proof.
  induction s as [|c s IH]; [constructor|]. cbn [List.map]. constructor; [|exact IH].
  destruct (isSafeChar c) eqn:E; [exact E | reflexivity].
Qed.

(** X24: the name that [getSafeFileName] returns is a cleaned stem, the
    counter suffix and the extension of the original name.  The stem is
    never empty, holds only letters, digits, dots, underscores and
    hyphens, and neither begins nor ends with an underscore; the
    extension is the one [path.extname] finds in the original name,
    copied as it is. *)
Theorem getSafeFileName_cleans_the_stem originalName counter :
  exists safeName,
    getSafeFileName originalName counter
    = safeName ++ suffixOf counter ++ extname originalName
    /\ safeName <> []
    /\ Forall (fun c => isSafeChar c = true) safeName
    /\ headGood (isChar underscore) safeName
    /\ lastGood (isChar underscore) safeName.
Proof.
  unfold getSafeFileName. cbv zeta.
  set (raw := cleaned (baseNameOf originalName)).
  assert (Hsafe : Forall (fun c => isSafeChar c = true) raw).
  { apply dropEnd_Forall, dropStart_Forall, replaced_safe. }
  assert (Hhead : headGood (isChar underscore) raw).
  { apply dropEnd_head, dropStart_head. }
  assert (Hlast : lastGood (isChar underscore) raw) by apply dropEnd_last.
  destruct (eqs raw []) eqn:E.
  - exists (lit "file"). split; [reflexivity|]. split; [discriminate|].
    split; [repeat constructor|]. split; reflexivity.
  - exists raw. split; [reflexivity|]. split; [apply bool_decide_eq_false in E; exact E|].
    repeat split; assumption.
Qed.

Lemma safe_noslash stem :
  Forall (fun c => isSafeChar c = true) stem -> Forall (fun c => isChar slash c = false) stem.
Proof.
  intros H. eapply Forall_impl; [exact H|]. intros c Hc. cbn beta in *.
  destruct (isChar slash c) eqn:E; [|reflexivity].
  apply N.eqb_eq in E. subst c. vm_compute in Hc. discriminate.
Qed.

Lemma replaced_id s :
  Forall (fun c => isSafeChar c = true) s ->
  List.map (fun c => if isSafeChar c then c else underscore) s = s.
Proof.
  induction 1 as [|c s Hc Hs IH]; [reflexivity|]. cbn [List.map]. rewrite Hc, IH. reflexivity.
Qed.

(** X25: [getSafeFileName] does not clean the extension.  A name made
    of a clean stem, a dot and any text without dot and slash is
    returned unchanged, whatever characters that text holds: spaces,
    control characters and the characters < > : | ? * stay in the
    name. *)
Theorem getSafeFileName_keeps_any_extension stem e :
  stem <> [] ->
  Forall (fun c => isSafeChar c = true) stem ->
  headGood (isChar underscore) stem ->
  lastGood (isChar underscore) stem ->
  e <> [] ->
  Forall (fun c => isChar dot c = false) e ->
  Forall (fun c => isChar slash c = false) e ->
  getSafeFileName (stem ++ dot :: e) 0 = stem ++ dot :: e.
Proof.
  intros Hne Hsafe Hh Hl He Hd Hs.
  pose proof (safe_noslash stem Hsafe) as Hns.
  assert (Hname : Forall (fun c => isChar slash c = false) (stem ++ dot :: e)).
  { apply Forall_app. split; [exact Hns|]. constructor; [reflexivity | exact Hs]. }
  assert (Hb : basename (stem ++ dot :: e) = stem ++ dot :: e).
  { apply (basename_of_name [] (stem ++ dot :: e));
      [destruct stem; discriminate | exact Hname | left; reflexivity]. }
  assert (Hx : extname (stem ++ dot :: e) = dot :: e).
  { apply (extname_of_name [] stem e); try assumption. left. reflexivity. }
  unfold getSafeFileName, baseNameOf. cbv zeta. rewrite Hx, Hb, lastDot_app by exact Hd.
  assert (Hpre : eqs stem [] = false) by (apply bool_decide_eq_false; exact Hne).
  assert (Hdd : eqs (stem ++ dot :: e) (lit "..") = false).
  { apply bool_decide_eq_false. intros E.
    destruct stem as [|c [|c' stem]]; [contradiction| |]; cbn [app] in E.
    - injection E as _ E. destruct e; [contradiction | discriminate].
    - injection E as _ _ E. destruct stem; discriminate. }
  rewrite Hpre, Hdd. cbn [orb].
  unfold cleaned.
  rewrite (replaced_id stem Hsafe), (dropStart_id _ _ Hh), (dropEnd_id _ _ Hl), Hpre.
  reflexivity.
Qed.

Lemma getSafeFileName_extension_witness :
  let stem := lit "report" in
  let e := lit "p?f <1>" in
  stem <> []
  /\ Forall (fun c => isSafeChar c = true) stem
  /\ headGood (isChar underscore) stem
  /\ lastGood (isChar underscore) stem
  /\ e <> []
  /\ Forall (fun c => isChar dot c = false) e
  /\ Forall (fun c => isChar slash c = false) e
  /\ getSafeFileName (stem ++ dot :: e) 0 = stem ++ dot :: e.
Proof.
  cbv zeta.
  assert (H1 : lit "report" <> []) by discriminate.
  assert (H2 : Forall (fun c => isSafeChar c = true) (lit "report"))
    by (repeat constructor).
  assert (H3 : headGood (isChar underscore) (lit "report")) by reflexivity.
  assert (H4 : lastGood (isChar underscore) (lit "report")) by reflexivity.
  assert (H5 : lit "p?f <1>" <> []) by discriminate.
  assert (H6 : Forall (fun c => isChar dot c = false) (lit "p?f <1>"))
    by (repeat constructor).
  assert (H7 : Forall (fun c => isChar slash c = false) (lit "p?f <1>"))
    by (repeat constructor).
  repeat (split; [assumption|]).
  exact (getSafeFileName_keeps_any_extension _ _ H1 H2 H3 H4 H5 H6 H7).
Defined.


Lemma lastDot_some b pre x :
  lastDot b = Some (pre, x) -> b = pre ++ dot :: x /\ Forall (fun c => isChar dot c = false) x.
Proof.
  revert pre x. induction b as [|c b IH]; intros pre x; [discriminate|].
  cbn [lastDot]. destruct (lastDot b) as [[pre' x']|] eqn:E.
  - intros [= <- <-]. destruct (IH pre' x' eq_refl) as [-> Hx]. split; [reflexivity | exact Hx].
  - destruct (isChar dot c) eqn:Ec; [|discriminate]. intros [= <- <-].
    apply N.eqb_eq in Ec. subst c. split; [reflexivity|].
    clear IH. induction b as [|d b IHb]; [constructor|].
    cbn [lastDot] in E. destruct (lastDot b) as [[? ?]|]; [discriminate|].
    destruct (isChar dot d) eqn:Ed; [discriminate|]. constructor; [exact Ed | apply IHb; reflexivity].
Qed.

Lemma lastDot_nodot b : lastDot b = None -> Forall (fun c => isChar dot c = false) b.
Proof.
  induction b as [|c b IH]; [constructor|]. cbn [lastDot].
  destruct (lastDot b) as [[? ?]|]; [discriminate|].
  destruct (isChar dot c) eqn:Ec; [discriminate|]. intros _. constructor; [exact Ec | apply IH; reflexivity].
Qed.

Lemma basename_noslash p : Forall (fun c => isChar slash c = false) (basename p).
Proof.
  unfold basename.
  pose proof (split_parts (fun _ => True) slash (dropEnd (isChar slash) p)) as H.
  assert (Ht : Forall (fun _ : N => True) (dropEnd (isChar slash) p)).
  { apply Forall_forall. intros; exact I. }
  specialize (H Ht). clear Ht.
  induction (split slash (dropEnd (isChar slash) p)) as [|q qs IH]; [constructor|].
  apply Forall_cons in H as [Hq Hqs]. destruct qs as [|q' qs'].
  - cbn [List.last]. eapply Forall_impl; [exact Hq|]. intros c [_ Hc].
    unfold isChar. rewrite N.eqb_sym. exact Hc.
  - exact (IH Hqs).
Qed.

Lemma cleaned_fixed s :
  Forall (fun c => isSafeChar c = true) s ->
  headGood (isChar underscore) s -> lastGood (isChar underscore) s -> cleaned s = s.
Proof.
  intros Hs Hh Hl. unfold cleaned.
  rewrite (replaced_id s Hs), (dropStart_id _ _ Hh), (dropEnd_id _ _ Hl). reflexivity.
Qed.

Lemma cleaned_facts s :
  Forall (fun c => isSafeChar c = true) (cleaned s)
  /\ headGood (isChar underscore) (cleaned s)
  /\ lastGood (isChar underscore) (cleaned s).
Proof.
  unfold cleaned. split; [apply dropEnd_Forall, dropStart_Forall, replaced_safe|].
  split; [apply dropEnd_head, dropStart_head | apply dropEnd_last].
Qed.

Lemma cleaned_nodot s :
  Forall (fun c => isChar dot c = false) s -> Forall (fun c => isChar dot c = false) (cleaned s).
Proof.
  intros H. unfold cleaned. apply dropEnd_Forall, dropStart_Forall.
  induction H as [|c s Hc Hs IH]; [constructor|]. cbn [List.map]. constructor; [|exact IH].
  destruct (isSafeChar c); [exact Hc | reflexivity].
Qed.


Lemma safe_name_nonempty stem (e : list N) : stem <> [] -> stem ++ e <> [].
Proof. destruct stem; [contradiction | discriminate]. Qed.

(** A clean stem with an extension is returned as it is. *)
Lemma fixed_name stem x :
  stem <> [] ->
  Forall (fun c => isSafeChar c = true) stem ->
  headGood (isChar underscore) stem ->
  lastGood (isChar underscore) stem ->
  Forall (fun c => isChar dot c = false) x ->
  Forall (fun c => isChar slash c = false) x ->
  stem ++ dot :: x <> lit ".." ->
  getSafeFileName (stem ++ dot :: x) 0 = stem ++ dot :: x.
Proof.
  intros Hne Hsafe Hh Hl Hd Hs Hdd.
  assert (Hname : Forall (fun c => isChar slash c = false) (stem ++ dot :: x)).
  { apply Forall_app. split; [apply safe_noslash, Hsafe|]. constructor; [reflexivity | exact Hs]. }
  assert (Hb : basename (stem ++ dot :: x) = stem ++ dot :: x).
  { apply (basename_of_name [] (stem ++ dot :: x));
      [apply safe_name_nonempty, Hne | exact Hname | left; reflexivity]. }
  assert (Hpre : eqs stem [] = false) by (apply bool_decide_eq_false; exact Hne).
  assert (Hno : eqs (stem ++ dot :: x) (lit "..") = false)
    by (apply bool_decide_eq_false; exact Hdd).
  unfold getSafeFileName, baseNameOf, extname. cbv zeta.
  rewrite Hb, lastDot_app by exact Hd. rewrite Hpre, Hno. cbn [orb].
  rewrite (cleaned_fixed stem Hsafe Hh Hl), Hpre. reflexivity.
Qed.

(** A clean name in which [path.extname] finds no extension is returned
    as it is. *)
Lemma fixed_plain s :
  s <> [] ->
  Forall (fun c => isSafeChar c = true) s ->
  headGood (isChar underscore) s ->
  lastGood (isChar underscore) s ->
  lastDot s = None \/ (exists x, lastDot s = Some ([], x)) \/ s = lit ".." ->
  getSafeFileName s 0 = s.
Proof.
  intros Hne Hsafe Hh Hl Hcase.
  assert (Hb : basename s = s).
  { apply (basename_of_name [] s); [exact Hne | apply safe_noslash, Hsafe | left; reflexivity]. }
  assert (Hs : eqs s [] = false) by (apply bool_decide_eq_false; exact Hne).
  unfold getSafeFileName, baseNameOf, extname. cbv zeta. rewrite Hb.
  destruct Hcase as [E|[[x E]|E]].
  - rewrite E, (cleaned_fixed s Hsafe Hh Hl), Hs. cbn [suffixOf Nat.ltb Nat.leb app].
    apply app_nil_r.
  - rewrite E. assert (Ht : eqs (@nil N) [] = true) by reflexivity. rewrite Ht.
    cbn [orb]. rewrite (cleaned_fixed s Hsafe Hh Hl), Hs. cbn [suffixOf Nat.ltb Nat.leb app].
    apply app_nil_r.
  - subst s. vm_compute. reflexivity.
Qed.

Lemma cleaned_dot x :
  cleaned (dot :: x)
  = dot :: dropEnd (isChar underscore)
                   (List.map (fun c => if isSafeChar c then c else underscore) x).
Proof.
  unfold cleaned. cbn [List.map].
  change (isSafeChar dot) with true. cbv iota.
  change (dropStart (isChar underscore) (dot :: ?l)) with (dot :: l).
  cbn [dropStart]. change (isChar underscore dot) with false. cbv iota.
  cbn [dropEnd]. change (isChar underscore dot) with false.
  destruct (dropEnd _ _); reflexivity.
Qed.

(** X26: [getSafeFileName] is idempotent: the name it returns for a
    name, with no counter, is returned unchanged when it is given
    again. *)
Theorem getSafeFileName_idempotent originalName :
  getSafeFileName (getSafeFileName originalName 0) 0 = getSafeFileName originalName 0.
Proof.
  pose proof (basename_noslash originalName) as Hns.
  unfold getSafeFileName at 2 3. unfold baseNameOf, extname. cbv zeta.
  set (b := basename originalName) in *.
  cbn [suffixOf Nat.ltb Nat.leb app].
  assert (Hfile : forall s, (if eqs (cleaned s) [] then lit "file" else cleaned s) <> []
                            /\ Forall (fun c => isSafeChar c = true)
                                      (if eqs (cleaned s) [] then lit "file" else cleaned s)
                            /\ headGood (isChar underscore)
                                        (if eqs (cleaned s) [] then lit "file" else cleaned s)
                            /\ lastGood (isChar underscore)
                                        (if eqs (cleaned s) [] then lit "file" else cleaned s)).
  { intros s. destruct (cleaned_facts s) as (F1 & F2 & F3).
    destruct (eqs (cleaned s) []) eqn:E.
    - split; [discriminate|]. split; [repeat constructor|]. split; reflexivity.
    - apply bool_decide_eq_false in E. repeat split; assumption. }
  assert (Hnodot : forall s, Forall (fun c => isChar dot c = false) s ->
                             lastDot (if eqs (cleaned s) [] then lit "file" else cleaned s) = None).
  { intros s Hs. destruct (eqs (cleaned s) []); [reflexivity|].
    apply lastDot_none, cleaned_nodot, Hs. }
  destruct (lastDot b) as [[pre x]|] eqn:E.
  - destruct (lastDot_some b pre x E) as [Hb Hx].
    assert (Hxs : Forall (fun c => isChar slash c = false) x).
    { rewrite Hb in Hns. apply Forall_app in Hns as [_ Hns]. inversion Hns; assumption. }
    destruct (eqs pre [] || eqs b (lit "..")) eqn:Ec.
    + rewrite app_nil_r. destruct (Hfile b) as (G1 & G2 & G3 & G4).
      apply fixed_plain; try assumption.
      apply orb_true_iff in Ec as [Ec|Ec].
      * apply eqs_true in Ec. subst pre. cbn [app] in Hb. right. left.
        rewrite Hb, cleaned_dot. cbn [eqs]. unfold eqs. rewrite bool_decide_eq_false_2 by discriminate.
        exists (dropEnd (isChar underscore)
                  (List.map (fun c => if isSafeChar c then c else underscore) x)).
        apply (lastDot_app []). apply dropEnd_Forall.
        clear -Hx. induction Hx as [|c s Hc Hs IH]; [constructor|]. cbn [List.map].
        constructor; [|exact IH]. destruct (isSafeChar c); [exact Hc | reflexivity].
      * apply eqs_true in Ec. right. right. rewrite Ec. vm_compute. reflexivity.
    + destruct (Hfile pre) as (G1 & G2 & G3 & G4).
      set (S := if eqs (cleaned pre) [] then lit "file" else cleaned pre) in *.
      destruct (decide (S ++ dot :: x = lit "..")) as [Hdd|Hdd].
      * rewrite Hdd. vm_compute. reflexivity.
      * apply fixed_name; assumption.
  - rewrite app_nil_r. destruct (Hfile b) as (G1 & G2 & G3 & G4).
    apply fixed_plain; try assumption. left. apply Hnodot, lastDot_nodot, E.
Qed.

End SafeNameFacts.

Section StartFacts.
Import Routes.

Lemma filtered_is_zip file :
  fileFilter file = true ->
  endsWith ".zip" (originalname file) || includesStr "zip" (mimetype file) = true.
Proof.
  unfold fileFilter. intros H. apply orb_true_iff in H as [H|H].
  - apply andb_true_iff in H as [_ H]. rewrite H. reflexivity.
  - apply bool_decide_eq_true in H. apply orb_true_iff. right.
    unfold allowedMimeTypes in H.
    repeat (apply elem_of_cons in H as [->|H]; [vm_compute; reflexivity|]).
    inversion H.
Qed.

(** X27: what multer's [fileFilter] lets through is a ZIP for /start.
    An upload that passes the filter has a name that ends in [.zip] or a
    MIME type that contains [zip], so /start extracts it; the branch of
    /start that answers 400 "Only ZIP files are accepted for folder
    uploads" is never taken, whatever the request. *)
Theorem start_never_answers_only_zip env now req sessions :
  (forall file, fileFilter file = true ->
                endsWith ".zip" (originalname file) || includesStr "zip" (mimetype file) = true)
  /\ fst (start env now req sessions)
     <> StartError 400 "Only ZIP files are accepted for folder uploads.".
Proof.
  split; [exact filtered_is_zip|].
  unfold start.
  destruct (noInstallation (reqInstallation req)); [discriminate|].
  destruct (negb (from_option fileFilter true (reqFile req))) eqn:Ef; [discriminate|].
  destruct (from_option _ false (reqFile req)); [discriminate|].
  destruct (missing (reqOwner req) || missing (reqRepo req)); [discriminate|].
  destruct (reqFile req) as [file|]; [|discriminate].
  destruct (tokenAnswer req) as [token|]; [|discriminate].
  cbn [from_option] in Ef. apply negb_false_iff in Ef.
  rewrite (filtered_is_zip file Ef).
  destruct (extractAnswer req) as [[files tempId]|]; [|discriminate].
  destruct (_ =? _)%nat; discriminate.
Qed.

End StartFacts.

Section JobFacts.
Import UploadQueue Observe Routes Server Accounting Books.

Lemma sub_refl st st' :
  PQueue.queue (queue st') = PQueue.queue (queue st) -> bodies st' = bodies st -> sub st st'.
Proof. intros Hq Hb j. unfold jobsOf. rewrite Hq, Hb. exact (fun H => H). Qed.

Lemma sub_trans st1 st2 st3 : sub st1 st2 -> sub st2 st3 -> sub st1 st3.
Proof. intros H1 H2 j Hj. exact (H1 j (H2 j Hj)). Qed.

Lemma sub_try now st :
  sub st (started now (fst (PQueue.tryToStartAnother (queue st)))
                  (UploadQueue.withQueue (snd (PQueue.tryToStartAnother (queue st))) st)).
Proof.
  unfold PQueue.tryToStartAnother.
  destruct (PQueue.queue (queue st)) as [|x rest] eqn:Eq.
  - cbn [fst snd started]. apply sub_refl; reflexivity.
  - destruct (_ && _); cbn [fst snd started]; [|apply sub_refl; reflexivity].
    intros j. unfold jobsOf.
    cbn [begin emit withActive withBodies withSlots UploadQueue.withQueue queue bodies PQueue.queue].
    rewrite Eq. cbn [List.map]. rewrite !in_app_iff. cbn [In]. tauto.
Qed.

Lemma sub_release now id st : sub st (fst (release now id st)).
Proof.
  rewrite release_eq. destruct (bool_decide _); cbn [fst]; [|apply sub_refl; reflexivity].
  set (st1 := UploadQueue.withQueue (PQueue.Make (PQueue.concurrency (queue st)) (PQueue.timeout (queue st))
                                     (PQueue.throwOnTimeout (queue st))
                                     (PQueue.isPaused (queue st))
                                     (Nat.pred (PQueue.pendingCount (queue st)))
                                     (PQueue.queue (queue st)))
                        (withSlots (without id (slots st)) st)).
  apply (sub_trans st st1); [apply sub_refl; reflexivity | exact (sub_try now st1)].
Qed.

Lemma sub_settle now id g p st : sub st (fst (settle now id g p st)).
Proof.
  unfold settle. destruct (findBody id st) as [j|]; [|apply sub_refl; reflexivity].
  eapply sub_trans; [|apply sub_release].
  destruct (body_books now j g p
              (withBodies (List.filter (fun x => negb (Nat.eqb (jobId x) id)) (bodies st)) st))
    as (B1 & _ & _ & _ & B5 & _).
  intros k. unfold jobsOf. rewrite B1, B5. cbn [withBodies queue bodies].
  rewrite !in_app_iff, filter_In. tauto.
Qed.

Lemma sub_processQueue now fuel st :
  sub st (fold_left (fun s j => begin now j s)
                    (fst (PQueue.processQueue fuel (queue st)))
                    (UploadQueue.withQueue (snd (PQueue.processQueue fuel (queue st))) st)).
Proof.
  revert st. induction fuel as [|f IH]; intros st.
  - cbn [PQueue.processQueue fst snd fold_left]. apply sub_refl; reflexivity.
  - cbn [PQueue.processQueue].
    pose proof (sub_try now st) as G1.
    destruct (PQueue.tryToStartAnother (queue st)) as [[j|] q1] eqn:E; cbn [fst snd started] in *.
    + specialize (IH (begin now j (UploadQueue.withQueue q1 st))).
      cbn [begin emit withActive withBodies withSlots UploadQueue.withQueue queue] in IH.
      destruct (PQueue.processQueue f q1) as [js q2]. cbn [fst snd fold_left] in *.
      eapply sub_trans; [exact G1|]. exact IH.
    + cbn [fold_left]. exact G1.
Qed.

Lemma sub_start now st : sub st (UploadQueue.start now st).
Proof.
  unfold UploadQueue.start, PQueue.start.
  destruct (negb (PQueue.isPaused (queue st))) eqn:E.
  - cbn [fold_left]. apply sub_refl; reflexivity.
  - set (st1 := UploadQueue.withQueue (PQueue.Make (PQueue.concurrency (queue st)) (PQueue.timeout (queue st))
                                       (PQueue.throwOnTimeout (queue st)) false
                                       (PQueue.pendingCount (queue st))
                                       (PQueue.queue (queue st))) st).
    pose proof (sub_processQueue now (S (PQueue.size (queue st))) st1) as H.
    subst st1. cbn [UploadQueue.withQueue queue] in H.
    destruct (PQueue.processQueue _ _) as [js q].
    eapply sub_trans; [|exact H]. apply sub_refl; reflexivity.
Qed.

Lemma sub_fireTimer now i st : sub st (fireTimer now i st).
Proof.
  unfold fireTimer. destruct (timers st !! i); [|apply sub_refl; reflexivity].
  unfold resume.
  set (st1 := withTimers (take i (timers st) ++ drop (S i) (timers st)) st).
  apply (sub_trans st st1); [apply sub_refl; reflexivity|].
  apply (sub_trans st1 (UploadQueue.start now st1)); [apply sub_start|].
  apply sub_refl; reflexivity.
Qed.

(** [addUploadJob] adds its job and no other. *)
Lemma jobs_addUploadJob now n fd sid st j :
  In j (jobsOf (addUploadJob now n fd sid st)) -> j = MkJob n fd sid \/ In j (jobsOf st).
Proof.
  rewrite addUploadJob_eq. cbv zeta. intros H. apply sub_try in H.
  unfold jobsOf in *. cbn [UploadQueue.withQueue withStats queue bodies PQueue.queue] in H.
  rewrite in_app_iff in *. destruct H as [H|H]; [|right; right; exact H].
  apply in_map_iff in H as (e & <- & He).
  apply (Permutation_in _ (enqueue_perm _ _)) in He. destruct He as [<-|He].
  - left. reflexivity.
  - right. left. apply in_map, He.
Qed.

Lemma jobs_addAll now sid fs : forall first index q j,
  In j (jobsOf (addAll now first index sid fs q)) ->
  In j (jobsOf q)
  \/ (jobSession j = sid
      /\ exists file, In file fs
                      /\ path (jobFile j) = FileScanner.path file
                      /\ content (jobFile j) = FileScanner.content file).
Proof.
  induction fs as [|f fs IH]; intros first index q j; cbn [addAll]; [left; assumption|].
  intros H. apply IH in H. destruct H as [H|(Hs & file & Hin & Hp & Hc)].
  - apply jobs_addUploadJob in H. destruct H as [->|H]; [|left; exact H].
    right. split; [reflexivity|]. exists f. split; [left; reflexivity|]. split; reflexivity.
  - right. split; [exact Hs|]. exists file. split; [right; exact Hin|]. split; assumption.
Qed.

Lemma owned_keeps ss ss' j : keeps ss ss' -> owned ss j -> owned ss' j.
Proof.
  intros K (se & file & Hse & Hin & Hp & Hc).
  destruct (K _ _ Hse) as (se' & Hse' & (F & _)).
  exists se', file. rewrite F. repeat split; assumption.
Qed.

Lemma owned_sub ss st st' :
  sub st st' -> Forall (owned ss) (jobsOf st) -> Forall (owned ss) (jobsOf st').
Proof.
  intros S H. apply Forall_forall. intros j Hj. rewrite Forall_forall in H.
  apply H, list_elem_of_In, S, list_elem_of_In, Hj.
Qed.

Lemma owned_keeps_all ss ss' st :
  keeps ss ss' -> Forall (owned ss) (jobsOf st) -> Forall (owned ss') (jobsOf st).
Proof.
  intros K H. eapply Forall_impl; [exact H|]. intros j. apply owned_keeps, K.
Qed.

Lemma owned_step env sys turn :
  Forall (owned (sessions sys)) (jobsOf (uploadQueue sys)) ->
  Forall (owned (sessions (step env sys turn))) (jobsOf (uploadQueue (step env sys turn))).
Proof.
  intros H. pose proof (keeps_step env sys turn) as K.
  revert K. unfold step. destruct turn as [now a]. cbn [fst snd].
  destruct a as [req|inst sid|inst sid|sid|id g p|id|i|c|c].
  - destruct (sessions sys !! uuid req); intros K; [exact H|].
    cbn [sessions uploadQueue] in *. apply (owned_keeps_all _ _ _ K H).
  - unfold execute. destruct (guard inst sid (sessions sys)) as [e|se] eqn:Eg;
      [intros _; exact H|]. apply guard_session in Eg. cbn [snd].
    intros K.
    assert (Hq : Forall (owned (sessions sys))
                   (jobsOf (addAll now (nextJob sys) 0 sid (files se) (uploadQueue sys)))).
    { apply Forall_forall. intros j Hj. apply list_elem_of_In, jobs_addAll in Hj.
      destruct Hj as [Hj|(Hs & file & Hin & Hp & Hc)].
      - rewrite Forall_forall in H. apply H, list_elem_of_In, Hj.
      - exists se, file. rewrite Hs. repeat split; assumption. }
    destruct (length (files se) =? 0)%nat; cbn [sessions uploadQueue Server.withQueue] in *;
      apply (owned_keeps_all _ _ _ K Hq).
  - intros K. cbn [sessions uploadQueue] in *. apply (owned_keeps_all _ _ _ K H).
  - intros _. exact H.
  - pose proof (sub_settle now id g p (uploadQueue sys)) as S.
    destruct (settle now id g p (uploadQueue sys)) as [q promise]. cbn [fst] in S.
    destruct promise; intros K; cbn [settled sessions uploadQueue Server.withQueue] in *;
      apply (owned_keeps_all _ _ _ K), (owned_sub _ _ _ S), H.
  - assert (S : sub (uploadQueue sys) (fst (timeoutJob now id (uploadQueue sys)))).
    { unfold timeoutJob. destruct (overdue now id (uploadQueue sys));
        [apply sub_release | apply sub_refl; reflexivity]. }
    destruct (timeoutJob now id (uploadQueue sys)) as [q promise]. cbn [fst] in S.
    destruct promise; intros K; cbn [settled sessions uploadQueue Server.withQueue] in *;
      apply (owned_keeps_all _ _ _ K), (owned_sub _ _ _ S), H.
  - intros _. cbn [sessions uploadQueue Server.withQueue].
    apply (owned_sub _ _ _ (sub_fireTimer now i (uploadQueue sys))), H.
  - intros _. exact H.
  - intros _. exact H.
Qed.

Lemma owned_run env turns :
  Forall (owned (sessions (run env turns (boot env))))
         (jobsOf (uploadQueue (run env turns (boot env)))).
Proof.
  unfold run.
  assert (H : Forall (owned (sessions (boot env))) (jobsOf (uploadQueue (boot env))))
    by constructor.
  revert H. generalize (boot env).
  induction turns as [|turn turns IH]; intros sys Hs; [exact Hs|].
  cbn [fold_left]. apply IH, owned_step, Hs.
Qed.

Lemma uploadable_run env turns :
  map_Forall (fun _ se => uploadable se) (sessions (run env turns (boot env))).
Proof.
  unfold run.
  assert (H : map_Forall (fun _ se => uploadable se) (sessions (boot env)))
    by apply map_Forall_empty.
  revert H. generalize (boot env).
  induction turns as [|turn turns IH]; intros sys Hs; [exact Hs|].
  cbn [fold_left]. apply IH, uploadable_step, Hs.
Qed.

(** X28: the server uploads only what /start accepted.  In every state
    of the server, each job that waits in the queue or whose body runs
    belongs to a stored session, and its path and content are those of
    a file of that session; the path is therefore one that
    [isValidPath] accepted. *)
Theorem every_job_uploads_a_valid_file_of_its_session env turns :
  let sys := run env turns (boot env) in
  Forall (fun j => exists se file,
                     sessions sys !! jobSession j = Some se
                     /\ In file (files se)
                     /\ path (jobFile j) = FileScanner.path file
                     /\ content (jobFile j) = FileScanner.content file
                     /\ PathSanitizer.isValidPath (path (jobFile j)) = true)
         (List.map PQueue.run (PQueue.queue (queue (uploadQueue sys)))
          ++ bodies (uploadQueue sys)).
Proof.
  cbv zeta. pose proof (owned_run env turns) as H.
  pose proof (uploadable_run env turns) as V.
  eapply Forall_impl; [exact H|]. intros j (se & file & Hse & Hin & Hp & Hc).
  exists se, file. repeat split; try assumption.
  destruct (V _ _ Hse) as (_ & Hv & _). rewrite Forall_forall in Hv.
  rewrite Hp. apply Hv, list_elem_of_In, Hin.
Qed.

End JobFacts.
